(** * Wan2GP music-video pipeline: planner, analyzer, generator caps, assembly

    A shallow embedding of the timing and selection logic of
    [scripts/music_plan.py], [scripts/music_analyze.py],
    [scripts/music_generate.py] and [scripts/music_assemble_ffmpeg.py].

    Conventions.
    - A Python [float] is an exact rational ([Q]); comparisons are the
      rational ones and [round(x, 4)] is rounding to the nearest multiple of
      1/10000, ties to the even multiple.
    - A Python [str] is a [string]; [lower] and [strip] act on ASCII.
    - A dict read with [.get(key, default)] is a record whose optional keys
      are [option] fields.
    - [raise] is an explicit [Raised] outcome. *)

From Stdlib Require Import QArith Qminmax Qround Qabs Lqa ZArith Lia List Bool.
From Stdlib Require Import String Ascii DecimalString Sorted.
Import ListNotations.

(** ** Rational helpers *)

Module Num.

Local Open Scope Q_scope.

Definition Qlt_bool (x y : Q) : bool := negb (Qle_bool y x).

(** [round(x, 4)]: nearest multiple of 1/10000, ties to even. *)
Definition round_half_even (y : Q) : Z :=
  let f := Qfloor y in
  let r := y - inject_Z f in
  if Qlt_bool r (1 # 2) then f
  else if Qlt_bool (1 # 2) r then (f + 1)%Z
  else if Z.even f then f else (f + 1)%Z.

Definition round4 (x : Q) : Q := Qmake (round_half_even (x * 10000)) 10000.

Definition round3 (x : Q) : Q := Qmake (round_half_even (x * 1000)) 1000.

(** Insertion into a list sorted in ascending order; [sorted(values)]. *)
Fixpoint insert_asc (x : Q) (l : list Q) : list Q :=
  match l with
  | [] => [x]
  | y :: r => if Qle_bool x y then x :: l else y :: insert_asc x r
  end.

Definition sort_asc (l : list Q) : list Q := fold_right insert_asc [] l.

(** [statistics.median]: the middle value of the sorted data, the mean of the
    two middle values when the count is even. Python raises on empty data;
    every caller guards against it, the model returns 0 there. *)
Definition median (data : list Q) : Q :=
  let s := sort_asc data in
  let n := List.length s in
  if Nat.even n
  then (nth (n / 2 - 1) s 0 + nth (n / 2) s 0) / 2
  else nth (n / 2) s 0.

(** Consecutive differences [beats[i+1] - beats[i]]. *)
Fixpoint intervals (beats : list Q) : list Q :=
  match beats with
  | a :: ((b :: _) as r) => (b - a) :: intervals r
  | _ => []
  end.

Definition positive_only (l : list Q) : list Q :=
  filter (fun v => Qlt_bool 0 v) l.

End Num.

(** ** String helpers: the Python [str] methods the scripts use *)

Module Text.

Local Open Scope string_scope.

(** [c.lower()] on an ASCII letter. *)
Definition lower_ascii (c : ascii) : ascii :=
  let n := nat_of_ascii c in
  if ((65 <=? n) && (n <=? 90))%nat then ascii_of_nat (n + 32) else c.

(** [s.lower()]. *)
Fixpoint lower (s : string) : string :=
  match s with
  | EmptyString => EmptyString
  | String c r => String (lower_ascii c) (lower r)
  end.

(** [needle in hay]. *)
Fixpoint contains (needle hay : string) : bool :=
  if prefix needle hay then true
  else match hay with
       | EmptyString => false
       | String _ r => contains needle r
       end.

(** [c.isspace()] on ASCII: tab to carriage return, the four separators,
    and the space. *)
Definition is_space (c : ascii) : bool :=
  let n := nat_of_ascii c in
  (((9 <=? n) && (n <=? 13)) || ((28 <=? n) && (n <=? 32)))%nat.

Fixpoint lstrip (s : string) : string :=
  match s with
  | EmptyString => EmptyString
  | String c r => if is_space c then lstrip r else s
  end.

(** Drops trailing whitespace: a character is kept when it is not a space
    or when something is kept after it. *)
Fixpoint rstrip (s : string) : string :=
  match s with
  | EmptyString => EmptyString
  | String c r =>
      match rstrip r with
      | EmptyString => if is_space c then EmptyString else String c EmptyString
      | kept => String c kept
      end
  end.

(** [s.strip()]. *)
Definition strip (s : string) : string := rstrip (lstrip s).

(** [sep.join(parts)]. *)
Definition join (sep : string) (parts : list string) : string :=
  String.concat sep parts.

(** [str(n)] for a natural number. *)
Definition decimal (n : nat) : string := NilZero.string_of_uint (Nat.to_uint n).

(** [f"{n:03d}"]: decimal digits, zero-padded on the left to width 3. *)
Definition pad3 (n : nat) : string :=
  let d := decimal n in
  match String.length d with
  | 1%nat => "00" ++ d
  | 2%nat => "0" ++ d
  | _ => d
  end.

End Text.

(** ** Outcomes of fallible code *)

Inductive outcome (A : Type) : Type :=
| Ok (a : A)
| Raised (msg : string)
| OutOfFuel.

Arguments Ok {A} a.
Arguments Raised {A} msg.
Arguments OutOfFuel {A}.

(** ** scripts/music_analyze.py *)

Module Analyze.

Import Num.
Local Open Scope Q_scope.

(** [_clip_round]: drops values outside [0, duration], rounds the others. *)
Fixpoint _clip_round (values : list Q) (duration : Q) : list Q :=
  match values with
  | [] => []
  | value :: rest =>
      if Qlt_bool value 0 then _clip_round rest duration
      else if Qlt_bool duration value then _clip_round rest duration
      else round4 value :: _clip_round rest duration
  end.

(** [_fallback_beats]: a 120 BPM grid over the duration. *)
Definition _fallback_beats (duration_seconds : Q) : Q * list Q :=
  let bpm := 120 in
  let beat_interval := 60 / bpm in
  let beat_count := Nat.max 1 (Z.to_nat (Qfloor (duration_seconds / beat_interval))) in
  let beats := map (fun i => inject_Z (Z.of_nat i) * beat_interval) (seq 0 beat_count) in
  (bpm, _clip_round beats duration_seconds).

(** [_infer_bpm_from_beats]. *)
Definition _infer_bpm_from_beats (beats : list Q) (fallback_bpm : Q) : Q :=
  if (List.length beats <? 3)%nat then fallback_bpm
  else
    let intervals := positive_only (intervals beats) in
    match intervals with
    | [] => fallback_bpm
    | _ =>
        let med := median intervals in
        if Qle_bool med 0 then fallback_bpm
        else
          let bpm := 60 / med in
          if Qlt_bool bpm 40 || Qlt_bool 220 bpm then fallback_bpm
          else bpm
    end.

(** [beats[::4]]. *)
Fixpoint every_fourth (beats : list Q) : list Q :=
  match beats with
  | b :: _ :: _ :: _ :: rest => b :: every_fourth rest
  | b :: _ => [b]
  | [] => []
  end.

Record BeatReport : Type := {
  backend : string;
  bpm : Q;
  beats : list Q;
  downbeats : list Q;
}.

(** The tempo and beat part of [_try_librosa_analysis]. The detector is an
    external library: its outputs [tempo] (after [float(tempo or 0.0)]) and
    [beat_times] are arguments. Returns the report fields that concern tempo
    and beats, and the warnings. *)
Definition _try_librosa_analysis (tempo : Q) (beat_times : list Q)
    (duration_seconds : Q) : BeatReport * list string :=
  let bpm0 := tempo in
  let beats0 := _clip_round beat_times duration_seconds in
  let '(bpm1, beats1, warnings) :=
    if (List.length beats0 <? 4)%nat then
      let '(fallback_bpm, fallback_beats) := _fallback_beats duration_seconds in
      (fallback_bpm, fallback_beats,
       ["Beat tracking found too few beats; used fallback beat grid."%string])
    else (_infer_bpm_from_beats beats0 (Qmax 1 bpm0), beats0, [])
  in
  ({| backend := "librosa";
      bpm := round3 bpm1;
      beats := beats1;
      downbeats := _clip_round (every_fourth beats1) duration_seconds |},
   warnings).

(** The claim about tempo trust, as the specification words it. *)
Definition tempo_trusted_unless_implausible
    (tempo : Q) (beat_times : list Q) (duration_seconds : Q) : Prop :=
  let beats0 := _clip_round beat_times duration_seconds in
  let reported := bpm (fst (_try_librosa_analysis tempo beat_times duration_seconds)) in
  (4 <= List.length beats0)%nat ->
  (tempo < 40 \/ 220 < tempo ->
     reported == round3 (60 / median (positive_only (intervals beats0)))) /\
  (40 <= tempo <= 220 -> reported == round3 tempo).

End Analyze.

(** ** scripts/music_plan.py: beat helpers *)

Module Plan.

Import Num.
Local Open Scope Q_scope.

(** [_beat_interval]. *)
Definition _beat_interval (beats : list Q) (fallback_bpm : Q) : Q :=
  let fallback :=
    let bpm := Qmax 40 (Qmin 220 (if Qeq_bool fallback_bpm 0 then 120 else fallback_bpm)) in
    60 / bpm in
  if (2 <=? List.length beats)%nat then
    match positive_only (intervals beats) with
    | [] => fallback
    | ivs => median ivs
    end
  else fallback.

(** The [for] loop of [_snap_forward]: the first beat at or after [target]. *)
Fixpoint first_at_or_after (target : Q) (beats : list Q) : option Q :=
  match beats with
  | [] => None
  | beat :: rest =>
      if Qle_bool target beat then Some beat else first_at_or_after target rest
  end.

(** [_snap_forward]: [target] on an empty grid, else the first beat at or
    after [target], else the last beat. *)
Definition _snap_forward (target : Q) (beats : list Q) : Q :=
  match beats with
  | [] => target
  | _ =>
      match first_at_or_after target beats with
      | Some beat => beat
      | None => last beats target
      end
  end.

(** The claim as the specification words it: on a non-empty ascending grid
    the snapped value is a beat at or after the target. *)
Definition snap_never_backward (t : Q) (beats : list Q) : Prop :=
  beats <> [] -> StronglySorted Qle beats ->
  In (_snap_forward t beats) beats /\ t <= _snap_forward t beats.

(** *** Records *)

(** One entry of [analysis["sections"]]; every key is optional. *)
Record SectionRec : Type := {
  sec_label : option string;
  sec_energy : option string;
  sec_start_sec : option Q;
  sec_end_sec : option Q;
}.

(** The analysis JSON object. The planner reads [duration_seconds], [beats],
    [bpm] and [sections]; the other keys are carried along unread. *)
Record Analysis : Type := {
  duration_seconds : option Q;
  beats : list Q;
  bpm : option Q;
  sections : list SectionRec;
  backend : string;
  beat_count : Z;
  downbeats : list Q;
  energy_curve : list (Q * Q);
  warnings : list string;
}.

(** [--style-preset], restricted by argparse to four choices. *)
Inductive StylePreset : Type := Cinematic | Performance | Abstract | BrandPromo.

(** The argparse namespace of [music_plan.py]. *)
Record Args : Type := {
  analysis : string;
  theme : string;
  brand : string;
  style_preset : StylePreset;
  resolution : string;
  fps : Z;
  min_shot_seconds : Q;
  max_shot_seconds : Q;
  takes_hero : Z;
  takes_standard : Z;
  takes_filler : Z;
  seed : Z;
  output : option string;
}.

(** The three shot priorities, which the script spells as strings. *)
Inductive ShotKind : Type := Hero | Standard | Filler.

Definition kind_name (k : ShotKind) : string :=
  match k with
  | Hero => "hero"
  | Standard => "standard"
  | Filler => "filler"
  end.

(** One planned shot. *)
Record Shot : Type := {
  id : string;
  start_sec : Q;
  end_sec : Q;
  duration_sec : Q;
  section : string;
  energy : string;
  priority : string;
  visual_goal : string;
  prompt : string;
  negative_prompt : string;
  quality_hint : string;
  takes : Z;
  transition_after : string;
}.

(** *** The seeded generator

    [random.Random] belongs to the Python standard library. It is taken as an
    interface: a state, the seeding constructor, and the two draws the
    planner makes. [choice g n] is the index picked by [rng.choice] in a
    sequence of [n] elements; [sample g n k] lists the indices picked by
    [rng.sample] for [k] elements out of [n]. Both return the next state. *)
Class RandomSource : Type := {
  rng : Type;
  Random : Z -> rng;
  choice : rng -> nat -> nat * rng;
  sample : rng -> nat -> nat -> list nat * rng;
}.

(** A small linear congruential generator, used to run the planner on
    concrete inputs. *)
Definition lcg_next (g : Z) : Z := ((g * 1103515245 + 12345) mod 2147483648)%Z.

Definition lcg_below (g : Z) (n : nat) : nat :=
  Z.to_nat ((g / 65536) mod (Z.max 1 (Z.of_nat n)))%Z.

Fixpoint lcg_sample (g : Z) (pool : list nat) (k : nat) : list nat * Z :=
  match k with
  | O => ([], g)
  | S k' =>
      let j := lcg_below g (List.length pool) in
      let picked := nth j pool O in
      let pool' := firstn j pool ++ skipn (S j) pool in
      let '(rest, g') := lcg_sample (lcg_next g) pool' k' in
      (picked :: rest, g')
  end.

#[export] Instance LcgRandom : RandomSource := {|
  rng := Z;
  Random := fun seed => Z.abs seed;
  choice := fun g n => (lcg_below g n, lcg_next g);
  sample := fun g n k => lcg_sample g (seq 0 n) k;
|}.

(** *** Section lookup and shot classification *)

Definition default_section (time_sec : Q) : SectionRec :=
  {| sec_label := Some "section"%string;
     sec_energy := Some "medium"%string;
     sec_start_sec := Some 0;
     sec_end_sec := Some (time_sec + 1) |}.

(** [float(d.get(key, 0.0) or 0.0)]. *)
Definition float_or_zero (v : option Q) : Q :=
  match v with
  | Some x => x
  | None => 0
  end.

(** The scan of [_find_section_at]: the first section with
    [start <= time_sec < end]. *)
Fixpoint enclosing_section (time_sec : Q) (sections : list SectionRec)
  : option SectionRec :=
  match sections with
  | [] => None
  | section :: rest =>
      let start := float_or_zero (sec_start_sec section) in
      let end_ := float_or_zero (sec_end_sec section) in
      if Qle_bool start time_sec && Qlt_bool time_sec end_ then Some section
      else enclosing_section time_sec rest
  end.

(** [_find_section_at]. *)
Definition _find_section_at (time_sec : Q) (sections : list SectionRec)
  : SectionRec :=
  match enclosing_section time_sec sections with
  | Some section => section
  | None => last sections (default_section time_sec)
  end.

(** [_shot_type]. *)
Definition _shot_type (section_label energy : string) (shot_index : nat)
  : ShotKind :=
  let label := Text.lower section_label in
  let normalized_energy := Text.lower energy in
  if (shot_index =? 1)%nat then Hero
  else if Text.contains "chorus" label || Text.contains "drop" label then Hero
  else if String.eqb normalized_energy "low" then Filler
  else Standard.

(** *** Prompt text *)

Definition _style_tokens (style_preset : StylePreset) : list string :=
  match style_preset with
  | Cinematic =>
      ["cinematic composition"; "natural skin tones";
       "high dynamic range lighting"; "coherent facial anatomy"]
  | Performance =>
      ["energetic performance framing"; "stage-like confidence";
       "dynamic camera movement"; "strong visual rhythm"]
  | Abstract =>
      ["stylized visual poetry"; "bold color contrast";
       "symbolic scene design"; "surreal but coherent motion"]
  | BrandPromo =>
      ["commercial-grade polish"; "clean premium aesthetic";
       "product storytelling energy"; "ad-ready lighting"]
  end%string.

Definition _section_descriptor (section_label : string) : string :=
  let label := Text.lower section_label in
  (if String.eqb label "intro" then
     "establishing shot with atmosphere and anticipation"
   else if String.eqb label "verse" then
     "narrative medium shot with subtle movement"
   else if String.eqb label "pre-chorus" then
     "rising tension with forward camera drift"
   else if String.eqb label "chorus" then
     "hero shot, strong subject clarity, expressive motion"
   else if String.eqb label "bridge" then
     "contrast section with unexpected angle and mood shift"
   else if String.eqb label "outro" then
     "closing shot with graceful deceleration"
   else "stylized music video shot with clear subject and coherent action")%string.

Definition camera_moves : list string :=
  ["slow dolly-in"; "handheld parallax motion"; "gentle crane rise";
   "tracking shot from side profile"; "center-framed push-in";
   "over-shoulder reveal"]%string.

Definition _negative_prompt : string :=
  ("text, logo, watermark, unreadable typography, blurry, overexposed, underexposed, "
   ++ "gray blob, abstract texture mush, deformed anatomy, extra limbs, flicker, jitter")%string.

Definition _quality_hint (shot_kind : ShotKind) : string := "quality"%string.

Definition _takes_for_kind (shot_kind : ShotKind) (args : Args) : Z :=
  match shot_kind with
  | Hero => Z.max 1 (takes_hero args)
  | Standard => Z.max 1 (takes_standard args)
  | Filler => Z.max 1 (takes_filler args)
  end.

Section WithRandom.

Context {R : RandomSource}.

(** [_build_prompt]: one [choice] among the camera moves, then one [sample]
    of three style tokens, on the generator threaded through the plan. *)
Definition _build_prompt (g : rng) (theme : string) (style_preset : StylePreset)
    (section_label brand : string) : string * rng :=
  let style_tokens := _style_tokens style_preset in
  let descriptor := _section_descriptor section_label in
  let '(i, g1) := choice g (List.length camera_moves) in
  let camera := nth i camera_moves EmptyString in
  let '(picks, g2) :=
    sample g1 (List.length style_tokens) (Nat.min 3 (List.length style_tokens)) in
  let style := Text.join ", " (map (fun j => nth j style_tokens EmptyString) picks) in
  let brand_clause :=
    if String.eqb (Text.strip brand) EmptyString then EmptyString
    else (", subtle visual motif inspired by " ++ Text.strip brand
          ++ ", no readable logos or text")%string in
  (("music video scene, " ++ Text.strip theme ++ ", " ++ descriptor ++ ", "
    ++ camera ++ ", " ++ style
    ++ ", clear human subject, coherent anatomy, cinematic realism"
    ++ brand_clause)%string, g2).

(** *** The sweep of [_build_shots] *)

Definition beats_per_shot (shot_kind : ShotKind) : Q :=
  match shot_kind with
  | Hero => 4
  | Standard => 6
  | Filler => 8
  end.

(** The end time of the shot that starts at [cursor]: target length clamped
    to the bounds, forward snap, lower clamp and cut at the track end, upper
    clamp, and the step forced when the end did not move. *)
Definition shot_end (duration_seconds min_shot max_shot beat_sec : Q)
    (beats : list Q) (cursor : Q) (shot_kind : ShotKind) : Q :=
  let raw_duration := beats_per_shot shot_kind * beat_sec in
  let shot_duration := Qmax min_shot (Qmin max_shot raw_duration) in
  let target_end := cursor + shot_duration in
  let snapped_end :=
    match beats with
    | [] => target_end
    | _ => _snap_forward target_end beats
    end in
  let end_sec1 := Qmin duration_seconds (Qmax (cursor + min_shot) snapped_end) in
  let end_sec2 :=
    if Qlt_bool max_shot (end_sec1 - cursor)
    then Qmin duration_seconds (cursor + max_shot)
    else end_sec1 in
  if Qle_bool end_sec2 cursor
  then Qmin duration_seconds (cursor + Qmax beat_sec min_shot)
  else end_sec2.

(** The snapped end used by [shot_end]. *)
Definition snapped (beats : list Q) (target_end : Q) : Q :=
  match beats with
  | [] => target_end
  | _ => _snap_forward target_end beats
  end.

(** [shot_end] with the snapped end [sn] made explicit. *)
Definition shot_end_from (D m M b sn c : Q) (k : ShotKind) : Q :=
  let e1 := Qmin D (Qmax (c + m) sn) in
  let e2 := if Qlt_bool M (e1 - c) then Qmin D (c + M) else e1 in
  if Qle_bool e2 c then Qmin D (c + Qmax b m) else e2.

(** Whether the cursor is still before the last beat: the one situation in
    which a step of the sweep may be shorter than [min_step]. *)
Definition before_last_beat (beats : list Q) (cursor : Q) : nat :=
  match beats with
  | [] => 0
  | _ => if Qlt_bool cursor (last beats 0) then 1 else 0
  end.

(** The [while cursor < duration_seconds - 0.1] loop. The shot built at the
    cursor comes first, followed by the shots of the rest of the sweep, which
    is the order in which the script appends them. *)
Fixpoint build_loop (fuel : nat) (duration_seconds beat_sec : Q)
    (beats : list Q) (sections : list SectionRec) (args : Args)
    (cursor : Q) (shot_index : nat) (g : rng) : outcome (list Shot) :=
  match fuel with
  | O => OutOfFuel
  | S fuel' =>
      if Qlt_bool cursor (duration_seconds - (1 # 10)) then
        let section := _find_section_at cursor sections in
        let section_label :=
          match sec_label section with Some l => l | None => "section"%string end in
        let energy :=
          match sec_energy section with Some e => e | None => "medium"%string end in
        let shot_kind := _shot_type section_label energy shot_index in
        let end_sec :=
          shot_end duration_seconds (min_shot_seconds args) (max_shot_seconds args)
                   beat_sec beats cursor shot_kind in
        let '(prompt, g') :=
          _build_prompt g (theme args) (style_preset args) section_label (brand args) in
        let shot :=
          {| id := ("shot_" ++ Text.pad3 shot_index)%string;
             start_sec := round4 cursor;
             end_sec := round4 end_sec;
             duration_sec := round4 (end_sec - cursor);
             section := section_label;
             energy := energy;
             priority := kind_name shot_kind;
             visual_goal := _section_descriptor section_label;
             prompt := prompt;
             negative_prompt := _negative_prompt;
             quality_hint := _quality_hint shot_kind;
             takes := _takes_for_kind shot_kind args;
             transition_after := "cut"%string |} in
        match build_loop fuel' duration_seconds beat_sec beats sections args
                         end_sec (S shot_index) g' with
        | Ok rest => Ok (shot :: rest)
        | Raised msg => Raised msg
        | OutOfFuel => OutOfFuel
        end
      else Ok []
  end.

End WithRandom.

(** The tail merge: when there are at least two shots and the last one is
    shorter than the minimum, the one before it is extended to the end of the
    last one and the last one is removed. *)
Definition merge_into (previous tail : Shot) : Shot :=
  {| id := id previous;
     start_sec := start_sec previous;
     end_sec := end_sec tail;
     duration_sec := round4 (end_sec tail - start_sec previous);
     section := section previous;
     energy := energy previous;
     priority := priority previous;
     visual_goal := visual_goal previous;
     prompt := prompt previous;
     negative_prompt := negative_prompt previous;
     quality_hint := quality_hint previous;
     takes := takes previous;
     transition_after := transition_after previous |}.

Fixpoint merge_tail (min_shot : Q) (shots : list Shot) : list Shot :=
  match shots with
  | [] => []
  | [only] => [only]
  | [previous; tail] =>
      if Qlt_bool (duration_sec tail) min_shot
      then [merge_into previous tail]
      else [previous; tail]
  | shot :: ((_ :: _ :: _) as rest) => shot :: merge_tail min_shot rest
  end.

(** Whether the tail merge fires on a list of shots. *)
Fixpoint tail_merged (min_shot : Q) (shots : list Shot) : bool :=
  match shots with
  | [] => false
  | [only] => false
  | [previous; tail] => Qlt_bool (duration_sec tail) min_shot
  | shot :: ((_ :: _ :: _) as rest) => tail_merged min_shot rest
  end.

(** The shots of a sweep whose cursor goes from [c] to [ce] by steps in
    [step]: each shot records, rounded, the cursor before and after its step
    and the length of the step. *)
Inductive sweep_of (step : Q -> Q -> Prop) : Q -> list Shot -> Q -> Prop :=
| sweep_done (c : Q) : sweep_of step c [] c
| sweep_shot (c e : Q) (s : Shot) (rest : list Shot) (ce : Q) :
    step c e ->
    start_sec s = round4 c ->
    end_sec s = round4 e ->
    duration_sec s = round4 (e - c) ->
    sweep_of step e rest ce ->
    sweep_of step c (s :: rest) ce.

(** One iteration of the loop of [_build_shots], as a relation between the
    cursor before and after it. *)
Definition loop_step (D m M b : Q) (beats : list Q) (c e : Q) : Prop :=
  c < D - (1 # 10) /\ exists k, e = shot_end D m M b beats c k.

(** A list of shots that starts at [a], ends at [z], and in which every shot
    starts where the previous one ends. *)
Inductive linked : Q -> list Shot -> Q -> Prop :=
| linked_nil (a : Q) : linked a [] a
| linked_cons (a : Q) (s : Shot) (rest : list Shot) (z : Q) :
    start_sec s = a ->
    linked (end_sec s) rest z ->
    linked a (s :: rest) z.

(** The last shot of a list. *)
Definition last_shot (shots : list Shot) : option Shot :=
  nth_error shots (List.length shots - 1).

(** The contiguity claim as the specification words it, each equality
    within a tolerance of 0.001 seconds. *)
Definition contiguous_to_duration (D : Q) (shots : list Shot) : Prop :=
  (forall s, hd_error shots = Some s -> Qabs (start_sec s - 0) <= 1 # 1000) /\
  (forall i s t, nth_error shots i = Some s -> nth_error shots (S i) = Some t ->
     Qabs (end_sec s - start_sec t) <= 1 # 1000) /\
  (forall s, last_shot shots = Some s -> Qabs (end_sec s - D) <= 1 # 1000).

(** The duration claim as the specification words it, for the shots [raw]
    of the loop and the final list [final]: a shot shorter than the minimum
    is the result of the tail merge, and no shot is longer than the maximum
    plus one beat interval. *)
Definition durations_within_bounds (min_shot max_shot beat_sec : Q)
    (raw final : list Shot) : Prop :=
  (forall s, In s final -> duration_sec s < min_shot ->
     tail_merged min_shot raw = true /\ last_shot final = Some s) /\
  (forall s, In s final -> duration_sec s <= max_shot + beat_sec).

(** A number of iterations that the sweep cannot exceed: every iteration but
    at most one advances the cursor by [min_step] or reaches the end. *)
Definition positive_or_tenth (x : Q) : Q := if Qlt_bool 0 x then x else 1 # 10.

Definition min_step (min_shot max_shot beat_sec : Q) : Q :=
  Qmin (1 # 10)
       (Qmin beat_sec (Qmin (positive_or_tenth max_shot) (positive_or_tenth min_shot))).

Definition plan_fuel (duration_seconds min_shot max_shot beat_sec : Q) : nat :=
  Z.to_nat (Qceiling (duration_seconds / min_step min_shot max_shot beat_sec)) + 3.

(** The values [_build_shots] reads from the analysis:
    [float(analysis.get("duration_seconds", 0.0) or 0.0)], the non-negative
    beats, and [float(analysis.get("bpm", 120.0) or 120.0)]. *)
Definition analysis_duration (a : Analysis) : Q :=
  float_or_zero (duration_seconds a).

Definition analysis_beats (a : Analysis) : list Q :=
  filter (fun value => Qle_bool 0 value) (beats a).

Definition analysis_bpm (a : Analysis) : Q :=
  match bpm a with
  | Some v => if Qeq_bool v 0 then 120 else v
  | None => 120
  end.

Definition analysis_beat_sec (a : Analysis) : Q :=
  _beat_interval (analysis_beats a) (analysis_bpm a).

Section WithRandomTop.

Context {R : RandomSource}.

(** The loop of [_build_shots], from cursor 0, shot index 1 and the
    generator seeded with [args.seed]. *)
Definition sweep_fuel (fuel : nat) (a : Analysis) (args : Args)
  : outcome (list Shot) :=
  build_loop fuel (analysis_duration a) (analysis_beat_sec a)
             (analysis_beats a) (sections a) args 0 1 (Random (seed args)).

(** [_build_shots] with an explicit iteration budget. *)
Definition _build_shots_fuel (fuel : nat) (a : Analysis) (args : Args)
  : outcome (list Shot) :=
  if Qle_bool (analysis_duration a) 0 then
    Raised "Analysis file missing valid duration_seconds"
  else
    match sweep_fuel fuel a args with
    | Ok shots => Ok (merge_tail (min_shot_seconds args) shots)
    | Raised msg => Raised msg
    | OutOfFuel => OutOfFuel
    end.

(** The budget [plan_fuel] for an analysis and arguments. *)
Definition analysis_fuel (a : Analysis) (args : Args) : nat :=
  plan_fuel (analysis_duration a) (min_shot_seconds args) (max_shot_seconds args)
            (analysis_beat_sec a).

(** [_build_shots], run with the budget [analysis_fuel], which always
    suffices. *)
Definition _build_shots (a : Analysis) (args : Args) : outcome (list Shot) :=
  _build_shots_fuel (analysis_fuel a args) a args.

End WithRandomTop.

(** Two analyses with the same content for the planner: the keys it reads
    are equal. Analyses equal in every key are such. *)
Definition same_content (a1 a2 : Analysis) : Prop :=
  duration_seconds a1 = duration_seconds a2 /\
  beats a1 = beats a2 /\
  bpm a1 = bpm a2 /\
  sections a1 = sections a2.

(** Two argument sets with the same creative parameters and seed. *)
Definition same_parameters (p1 p2 : Args) : Prop :=
  theme p1 = theme p2 /\
  brand p1 = brand p2 /\
  style_preset p1 = style_preset p2 /\
  min_shot_seconds p1 = min_shot_seconds p2 /\
  max_shot_seconds p1 = max_shot_seconds p2 /\
  takes_hero p1 = takes_hero p2 /\
  takes_standard p1 = takes_standard p2 /\
  takes_filler p1 = takes_filler p2 /\
  seed p1 = seed p2.

End Plan.

(** ** scripts/music_generate.py: the shot and take caps *)

Module Generate.

Local Open Scope Z_scope.

(** A shot of the plan file, as the generator reads it. *)
Record PlanShot : Type := {
  shot_id : option string;
  planned_takes : option Z;
}.

(** [int(shot.get("takes", 1) or 1)]. *)
Definition takes_or_one (v : option Z) : Z :=
  match v with
  | Some n => if n =? 0 then 1 else n
  | None => 1
  end.

(** [_takes_for_shot]. *)
Definition _takes_for_shot (shot : PlanShot) (max_takes_per_shot : option Z) : Z :=
  let planned := takes_or_one (planned_takes shot) in
  let planned := Z.max 1 planned in
  match max_takes_per_shot with
  | Some cap => Z.min planned (Z.max 1 cap)
  | None => planned
  end.

(** [shots[: max(1, args.max_shots)]] when the cap is given. *)
Definition capped_shots (shots : list PlanShot) (max_shots : option Z)
  : list PlanShot :=
  match max_shots with
  | Some cap => firstn (Z.to_nat (Z.max 1 cap)) shots
  | None => shots
  end.

(** [range(1, takes + 1)]. *)
Definition take_indexes (takes : Z) : list nat := seq 1 (Z.to_nat takes).

(** The iteration structure of [main]: the shots processed and, for each,
    the take indexes attempted. An empty plan raises. *)
Definition generation_schedule (shots : list PlanShot)
    (max_shots max_takes_per_shot : option Z)
  : outcome (list (PlanShot * list nat)) :=
  match shots with
  | [] => Raised "Plan file has no shots to generate."
  | _ =>
      Ok (map (fun shot => (shot, take_indexes (_takes_for_shot shot max_takes_per_shot)))
              (capped_shots shots max_shots))
  end.

End Generate.

(** ** scripts/music_assemble_ffmpeg.py: clip selection *)

Module Assemble.

Import Num.
Local Open Scope Q_scope.

(** A take of the manifest; every key is optional. *)
Record Take : Type := {
  take_id : string;
  status : option string;
  video_file : option string;
  quality_score : option Q;
}.

(** A shot of the manifest with its takes. *)
Record ShotReport : Type := {
  shot_id : string;
  takes : list Take;
}.

(** The manifest: the shots, and the optional plain list [clips]. *)
Record Manifest : Type := {
  shots : list ShotReport;
  clips : list string;
}.

(** [float(take.get("quality_score", 0.0) or 0.0)]. *)
Definition score_of (take : Take) : Q :=
  match quality_score take with
  | Some s => s
  | None => 0
  end.

(** Insertion that keeps the list in descending key order and puts the new
    element before the elements of equal key. *)
Fixpoint insert_desc (x : Q * Take) (l : list (Q * Take)) : list (Q * Take) :=
  match l with
  | [] => [x]
  | y :: r => if Qlt_bool (fst x) (fst y) then y :: insert_desc x r else x :: l
  end.

(** [candidates.sort(key=..., reverse=True)]: a stable sort, so candidates of
    equal score keep the order of the takes list. *)
Definition sort_desc (l : list (Q * Take)) : list (Q * Take) :=
  fold_right insert_desc [] l.

Section WithFiles.

(** The file system: [resolve] is [Path(...).expanduser().resolve()] and
    [path_exists] tells whether the resolved path exists. *)
Variable resolve : string -> string.
Variable path_exists : string -> bool.

(** The three filters of the loop of [_best_take]. *)
Definition usable (take : Take) : bool :=
  let st := match status take with Some s => s | None => EmptyString end in
  if negb (String.eqb (Text.lower st) "success") then false
  else
    match video_file take with
    | None => false
    | Some f =>
        if String.eqb f EmptyString then false
        else path_exists (resolve f)
    end.

(** The loop of [_best_take]. *)
Fixpoint candidates (takes : list Take) : list (Q * Take) :=
  match takes with
  | [] => []
  | take :: rest =>
      if usable take then (score_of take, take) :: candidates rest
      else candidates rest
  end.

(** [_best_take]. *)
Definition _best_take (takes : list Take) : option Take :=
  match sort_desc (candidates takes) with
  | [] => None
  | best :: _ => Some (snd best)
  end.

(** The first loop of [_select_clip_paths]: one clip per shot with a best
    take, in shot order. *)
Fixpoint clips_from_shots (shots : list ShotReport) : list string :=
  match shots with
  | [] => []
  | shot :: rest =>
      match _best_take (takes shot) with
      | None => clips_from_shots rest
      | Some best =>
          let f := match video_file best with Some f => f | None => "None"%string end in
          resolve f :: clips_from_shots rest
      end
  end.

(** The second loop: the entries of [clips] that exist. *)
Fixpoint existing_raw_clips (raw_clips : list string) : list string :=
  match raw_clips with
  | [] => []
  | value :: rest =>
      let clip := resolve value in
      if path_exists clip then clip :: existing_raw_clips rest
      else existing_raw_clips rest
  end.

(** [_select_clip_paths]. *)
Definition _select_clip_paths (manifest : Manifest) (max_clips : option Z)
  : list string :=
  let clips1 := clips_from_shots (shots manifest) in
  let clips2 :=
    match clips1 with
    | [] => existing_raw_clips (clips manifest)
    | _ => clips1
    end in
  match max_clips with
  | Some cap => firstn (Z.to_nat (Z.max 1 cap)) clips2
  | None => clips2
  end.

(** The step of [main] that selects the clips and raises when there is
    none; on [Ok] the assembly goes on with these clips. *)
Definition select_or_fail (manifest : Manifest) (max_clips : option Z)
  : outcome (list string) :=
  match _select_clip_paths manifest max_clips with
  | [] => Raised "No successful clips found in manifest."
  | clip_paths => Ok clip_paths
  end.

(** A shot has a usable take. *)
Definition has_usable_take (shot : ShotReport) : bool :=
  existsb usable (takes shot).

(** The claim as the specification words it: the error is raised exactly
    when no shot has a usable take. *)
Definition fails_exactly_without_usable_take
    (manifest : Manifest) (max_clips : option Z) : Prop :=
  select_or_fail manifest max_clips
    = Raised "No successful clips found in manifest."
  <-> (forall shot, In shot (shots manifest) ->
         has_usable_take shot = false).

End WithFiles.

End Assemble.

(** ** Concrete inputs used by the examples *)

Module Examples.

Import Plan Assemble.
Local Open Scope Q_scope.
Local Open Scope string_scope.

(** A file system where every path is its own resolution and exists. *)
Definition same_path (p : string) : string := p.
Definition every_file (p : string) : bool := true.

Definition take_scored (name : string) (score : option Q) : Take :=
  {| take_id := name;
     status := Some "success";
     video_file := Some (name ++ ".mp4");
     quality_score := score |}.

(** Three successful takes scoring 0.35, 0.8 and 0.6. *)
Definition three_takes : list Take :=
  [ take_scored "shot_001_take01" (Some (35 # 100));
    take_scored "shot_001_take02" (Some (8 # 10));
    take_scored "shot_001_take03" (Some (6 # 10)) ].

(** A take without score next to a failed take. *)
Definition unscored_take : Take := take_scored "shot_002_take01" None.

Definition failed_take : Take :=
  {| take_id := "shot_002_take02";
     status := Some "error";
     video_file := None;
     quality_score := None |}.

(** A manifest without shots that lists one clip directly. *)
Definition clips_only_manifest : Manifest :=
  {| shots := []; clips := ["intro.mp4"] |}.

(** A manifest with one shot carrying the three takes. *)
Definition one_shot_manifest : Manifest :=
  {| shots := [ {| shot_id := "shot_001"; takes := three_takes |} ]; clips := [] |}.

(** An analysis without beats and sections at 120 BPM. *)
Definition plain_analysis (duration : Q) : Analysis :=
  {| duration_seconds := Some duration;
     beats := [];
     bpm := Some 120%Q;
     sections := [];
     backend := "ffprobe-fallback";
     beat_count := 0;
     downbeats := [];
     energy_curve := [(0%Q, 0%Q)];
     warnings := [] |}.

(** The default arguments of the planner command line. *)
Definition default_args : Args :=
  {| analysis := "audio-analysis.json";
     theme := "neon city dream";
     brand := EmptyString;
     style_preset := Cinematic;
     resolution := "832x480";
     fps := 16;
     min_shot_seconds := 2%Q;
     max_shot_seconds := 4%Q;
     takes_hero := 3;
     takes_standard := 2;
     takes_filler := 1;
     seed := 42;
     output := None |}.

(** The same analysis as [plain_analysis], reported by another backend with
    a warning: the keys the planner reads are unchanged. *)
Definition annotated_analysis (duration : Q) : Analysis :=
  {| duration_seconds := Some duration;
     beats := [];
     bpm := Some 120%Q;
     sections := [];
     backend := "librosa";
     beat_count := 0;
     downbeats := [];
     energy_curve := [];
     warnings := ["Beat tracking found too few beats; used fallback beat grid."] |}.

(** The default arguments with an output path and another resolution. *)
Definition args_with_output : Args :=
  {| analysis := "other-analysis.json";
     theme := "neon city dream";
     brand := EmptyString;
     style_preset := Cinematic;
     resolution := "1280x720";
     fps := 24;
     min_shot_seconds := 2%Q;
     max_shot_seconds := 4%Q;
     takes_hero := 3;
     takes_standard := 2;
     takes_filler := 1;
     seed := 42;
     output := Some "plan.json" |}.

(** Arguments whose minimum shot length exceeds the maximum. *)
Definition inverted_args : Args :=
  {| analysis := "audio-analysis.json";
     theme := "neon city dream";
     brand := EmptyString;
     style_preset := Cinematic;
     resolution := "832x480";
     fps := 16;
     min_shot_seconds := 4%Q;
     max_shot_seconds := 2%Q;
     takes_hero := 3;
     takes_standard := 2;
     takes_filler := 1;
     seed := 42;
     output := None |}.

(** Arguments with negative shot lengths. *)
Definition negative_args : Args :=
  {| analysis := "audio-analysis.json";
     theme := "neon city dream";
     brand := EmptyString;
     style_preset := Cinematic;
     resolution := "832x480";
     fps := 16;
     min_shot_seconds := (-2)%Q;
     max_shot_seconds := (-1)%Q;
     takes_hero := 3;
     takes_standard := 2;
     takes_filler := 1;
     seed := 42;
     output := None |}.

End Examples.

(** ** scripts/music_analyze.py: nearest-beat snapping and sections *)

Module AnalyzeSections.

Import Num Plan.
Local Open Scope Q_scope.

(** The scan of [min(beats, key=lambda beat: abs(beat - target))]: the
    current best is replaced only by a strictly nearer beat, so the first
    beat of minimal distance is kept. *)
Fixpoint nearest_from (target best : Q) (rest : list Q) : Q :=
  match rest with
  | [] => best
  | beat :: rest' =>
      if Qlt_bool (Qabs (beat - target)) (Qabs (best - target))
      then nearest_from target beat rest'
      else nearest_from target best rest'
  end.

(** [_snap_to_nearest_beat]. *)
Definition _snap_to_nearest_beat (target : Q) (beats : list Q) : Q :=
  match beats with
  | [] => target
  | beat :: rest => nearest_from target beat rest
  end.

(** The two proportional layouts of [_build_sections]. *)
Definition short_layout : list (string * Q) :=
  [ ("intro", 14 # 100); ("verse", 24 # 100); ("chorus", 22 # 100);
    ("verse", 2 # 10); ("chorus", 2 # 10) ]%string.

Definition long_layout : list (string * Q) :=
  [ ("intro", 1 # 10); ("verse", 16 # 100); ("pre-chorus", 1 # 10);
    ("chorus", 14 # 100); ("verse", 16 # 100); ("chorus", 14 # 100);
    ("bridge", 1 # 10); ("chorus", 1 # 10) ]%string.

Definition layout_for (duration_seconds : Q) : list (string * Q) :=
  if Qle_bool duration_seconds 45 then short_layout else long_layout.

(** The loop over the layout: the running sum of the proportional lengths,
    snapped to the nearest beat and clamped into the track. *)
Fixpoint layout_boundaries (duration_seconds : Q) (beats : list Q)
    (cursor : Q) (layout : list (string * Q)) : list Q :=
  match layout with
  | [] => []
  | (_, ratio) :: rest =>
      let cursor' := cursor + duration_seconds * ratio in
      let snapped := _snap_to_nearest_beat cursor' beats in
      Qmin duration_seconds (Qmax 0 snapped)
        :: layout_boundaries duration_seconds beats cursor' rest
  end.

(** [boundaries]: 0, the layout boundaries, the duration. *)
Definition boundaries (duration_seconds : Q) (beats : list Q)
    (layout : list (string * Q)) : list Q :=
  0 :: layout_boundaries duration_seconds beats 0 layout ++ [duration_seconds].

(** The loop that builds [cleaned] after its first element: a boundary
    nearer than [min_span] to the last kept one is dropped. *)
Fixpoint clean_from (min_span last_kept : Q) (bs : list Q) : list Q :=
  match bs with
  | [] => []
  | boundary :: rest =>
      if Qlt_bool (boundary - last_kept) min_span
      then clean_from min_span last_kept rest
      else boundary :: clean_from min_span boundary rest
  end.

(** [cleaned], after the two fix-ups: the last element is raised to the
    duration, and 0 is put in front when the list does not start with it. *)
Definition cleaned_boundaries (duration_seconds min_section_seconds : Q)
    (bs : list Q) : list Q :=
  let min_span := Qmax 2 min_section_seconds in
  let cleaned0 :=
    match bs with
    | [] => []
    | first :: rest => first :: clean_from min_span first rest
    end in
  let cleaned1 :=
    if Qlt_bool (last cleaned0 0) duration_seconds
    then removelast cleaned0 ++ [duration_seconds]
    else cleaned0 in
  match cleaned1 with
  | first :: _ => if Qeq_bool first 0 then cleaned1 else 0 :: cleaned1
  | [] => cleaned1
  end.

(** [energy_by_label.get(label, "medium")]. *)
Definition energy_by_label (label : string) : string :=
  (if String.eqb label "intro" then "low"
   else if String.eqb label "verse" then "medium"
   else if String.eqb label "pre-chorus" then "medium"
   else if String.eqb label "chorus" then "high"
   else if String.eqb label "bridge" then "medium"
   else if String.eqb label "outro" then "low"
   else "medium")%string.

(** The label of the section of index [idx] among [n] cleaned boundaries. *)
Definition section_label (labels : list string) (n idx : nat) : string :=
  if (idx <? List.length labels)%nat then nth idx labels "section"%string
  else if (idx =? n - 2)%nat then "outro"%string
  else "section"%string.

(** The loop over [range(len(cleaned) - 1)]: one section per pair of
    consecutive boundaries, skipped when its rounded end is not after its
    rounded start. *)
Fixpoint sections_loop (labels : list string) (n idx : nat)
    (cleaned : list Q) : list SectionRec :=
  match cleaned with
  | a :: ((b :: _) as rest) =>
      let start := round4 a in
      let end_ := round4 b in
      if Qle_bool end_ start then sections_loop labels n (S idx) rest
      else
        let label := section_label labels n idx in
        {| sec_label := Some label;
           sec_energy := Some (energy_by_label label);
           sec_start_sec := Some start;
           sec_end_sec := Some end_ |}
          :: sections_loop labels n (S idx) rest
  | _ => []
  end.

(** [_build_sections]. *)
Definition _build_sections (duration_seconds : Q) (beats : list Q)
    (min_section_seconds : Q) : list SectionRec :=
  let layout := layout_for duration_seconds in
  let cleaned :=
    cleaned_boundaries duration_seconds min_section_seconds
      (boundaries duration_seconds beats layout) in
  let labels := map fst layout in
  match sections_loop labels (List.length cleaned) 0 cleaned with
  | [] =>
      [ {| sec_label := Some "section"%string;
           sec_energy := Some "medium"%string;
           sec_start_sec := Some 0;
           sec_end_sec := Some (round4 duration_seconds) |} ]
  | sections => sections
  end.

(** A list of sections that starts at [a], ends at [z], and in which every
    section starts where the previous one ends. *)
Inductive sec_linked : Q -> list SectionRec -> Q -> Prop :=
| sec_linked_one (s : SectionRec) :
    sec_linked (float_or_zero (sec_start_sec s)) [s]
               (float_or_zero (sec_end_sec s))
| sec_linked_cons (s : SectionRec) (rest : list SectionRec) (z : Q) :
    sec_linked (float_or_zero (sec_end_sec s)) rest z ->
    sec_linked (float_or_zero (sec_start_sec s)) (s :: rest) z.

(** Every element is at least [g] after the previous one, from [a] on. *)
Fixpoint spaced (g a : Q) (l : list Q) : Prop :=
  match l with
  | [] => True
  | b :: r => a + g <= b /\ spaced g b r
  end.

End AnalyzeSections.

(** ** scripts/music_plan.py: the report of [main] *)

Module PlanReport.

Import Num Plan.
Local Open Scope Q_scope.

(** [sum(1 for shot in shots if shot.get("priority") == name)]. *)
Definition count_priority (name : string) (shots : list Shot) : nat :=
  List.length (filter (fun shot => String.eqb (priority shot) name) shots).

(** The [summary] object of the plan file. *)
Record Summary : Type := {
  total_shots : nat;
  hero_shots : nat;
  standard_shots : nat;
  filler_shots : nat;
}.

Definition summary (shots : list Shot) : Summary :=
  {| total_shots := List.length shots;
     hero_shots := count_priority "hero" shots;
     standard_shots := count_priority "standard" shots;
     filler_shots := count_priority "filler" shots |}.

(** The fields of a shot that depend only on its priority and section. *)
Definition shot_fields_ok (args : Args) (shot : Shot) : Prop :=
  exists kind,
    priority shot = kind_name kind /\
    takes shot = _takes_for_kind kind args /\
    quality_hint shot = "quality"%string /\
    transition_after shot = "cut"%string /\
    negative_prompt shot = _negative_prompt /\
    visual_goal shot = _section_descriptor (section shot).

End PlanReport.

(** ** scripts/music_generate.py: helpers and the take loop of [main] *)

Module GenerateRun.

Import Num Generate.
Local Open Scope string_scope.

(** [_quality_score_from_file]. The argument is the size in bytes of the
    video file ([video_file.stat().st_size]), [None] when there is no
    file. *)
Definition _quality_score_from_file (video_size : option Z) : option Q :=
  match video_size with
  | None => None
  | Some st_size =>
      let size_mb := (inject_Z st_size / (1024 * 1024))%Q in
      Some (if Qle_bool size_mb (1 # 2) then 15 # 100
            else if Qle_bool size_mb 2 then 35 # 100
            else if Qle_bool size_mb 6 then 6 # 10
            else 8 # 10)%Q
  end.

(** [quality in {"draft", "balanced", "quality"}]. *)
Definition is_quality_choice (quality : string) : bool :=
  String.eqb quality "draft" || String.eqb quality "balanced"
  || String.eqb quality "quality".

(** [_quality_from_shot]; [quality_hint] is the key of the shot, [None] when
    the key is absent. *)
Definition _quality_from_shot (quality_hint : option string) (fallback : string)
  : string :=
  let raw := match quality_hint with Some h => h | None => fallback end in
  let quality := Text.lower (Text.strip raw) in
  if is_quality_choice quality then quality else fallback.

(** [text[n:]] for [0 <= n]. *)
Fixpoint drop (n : nat) (text : string) : string :=
  match n, text with
  | O, _ => text
  | S n', String _ rest => drop n' rest
  | S _, EmptyString => EmptyString
  end.

(** [_short_tail] (and [_tail] of music_video.py). [text[-max_chars:]] is
    the last [max_chars] characters for [max_chars >= 1] and the whole text
    for [max_chars = 0], since [-0] is [0]. *)
Definition _short_tail (text : string) (max_chars : nat) : string :=
  if (String.length text <=? max_chars)%nat then text
  else if (max_chars =? 0)%nat then text
  else drop (String.length text - max_chars) text.

(** [list(dict.fromkeys(indexes))]: the first occurrence of each value, in
    order. *)
Fixpoint dedup (seen l : list Z) : list Z :=
  match l with
  | [] => []
  | x :: r =>
      if existsb (Z.eqb x) seen then dedup seen r
      else x :: dedup (x :: seen) r
  end.

(** The frame index of the still of index [idx]:
    [max(0, min(frame_count - 1, int(round(idx * (frame_count - 1)
    / max(1, still_count - 1)))))]. *)
Definition still_position (frame_count still_count idx : Z) : Z :=
  let position :=
    round_half_even (inject_Z (idx * (frame_count - 1))
                     / inject_Z (Z.max 1 (still_count - 1)))%Q in
  Z.max 0 (Z.min (frame_count - 1) position).

(** The index list of [_build_preview_still_select], for [frame_count > 1]. *)
Definition preview_indexes (frame_count stills : Z) : list Z :=
  let still_count := Z.max 1 stills in
  dedup []
    (map (fun idx => still_position frame_count still_count (Z.of_nat idx))
         (seq 0 (Z.to_nat still_count))).

(** [_build_preview_still_select]. *)
Definition _build_preview_still_select (frame_count stills : Z) : string :=
  if (frame_count <=? 1)%Z then "eq(n,0)"
  else
    Text.join "+"
      (map (fun value => "eq(n\," ++ Text.decimal (Z.to_nat value) ++ ")")
           (preview_indexes frame_count stills)).

(** [_compile_enabled]; [compile_flag] is [compose_flags.get("compile",
    False)]. *)
Definition _compile_enabled (compile_flag : bool) (compile_mode : string) : bool :=
  if String.eqb compile_mode "on" then true
  else if String.eqb compile_mode "off" then false
  else compile_flag.

(** The [--prompt] argument built by [_compose_command]:
    [str(shot.get("prompt", "")).strip()]; [None] when the shot has no
    prompt. *)
Definition compose_prompt (prompt : option string) : string :=
  Text.strip (match prompt with Some p => p | None => EmptyString end).

(** [f"{n:02d}"]. *)
Definition pad2 (n : nat) : string :=
  let d := Text.decimal n in
  match String.length d with
  | 1%nat => "0" ++ d
  | _ => d
  end.

(** What the external processes of one take attempt give: whether the
    compose command succeeded and wrote the process file, the status of the
    run (the status of its report, or the one derived from its exit code),
    and the newest mp4 of the take directory with its size in bytes. *)
Record TakeEnv : Type := {
  compose_ok : bool;
  run_status : string;
  found_video : option (string * Z);
}.

(** The counters of [main]. *)
Record Counters : Type := {
  total_takes : nat;
  successful_takes : nat;
  failed_takes : nat;
}.

Definition no_takes : Counters :=
  {| total_takes := 0; successful_takes := 0; failed_takes := 0 |}.

(** One iteration of the take loop of [main]: the take record appended to
    the shot report, with the keys the assembly reads, and the counters. *)
Definition run_take (execute_generation dry_run : bool) (shot_id : string)
    (take_index : nat) (env : TakeEnv) (cnt : Counters)
  : Assemble.Take * Counters :=
  let total := S (total_takes cnt) in
  let take_id := shot_id ++ "_take" ++ pad2 take_index in
  if negb (compose_ok env) then
    ({| Assemble.take_id := take_id;
        Assemble.status := Some "error";
        Assemble.video_file := None;
        Assemble.quality_score := None |},
     {| total_takes := total;
        successful_takes := successful_takes cnt;
        failed_takes := S (failed_takes cnt) |})
  else if execute_generation then
    if String.eqb (run_status env) "success" && negb dry_run then
      ({| Assemble.take_id := take_id;
          Assemble.status := Some (run_status env);
          Assemble.video_file := option_map fst (found_video env);
          Assemble.quality_score :=
            _quality_score_from_file (option_map snd (found_video env)) |},
       {| total_takes := total;
          successful_takes := S (successful_takes cnt);
          failed_takes := failed_takes cnt |})
    else if String.eqb (run_status env) "success" && dry_run then
      ({| Assemble.take_id := take_id;
          Assemble.status := Some (run_status env);
          Assemble.video_file := None;
          Assemble.quality_score := None |},
       {| total_takes := total;
          successful_takes := S (successful_takes cnt);
          failed_takes := failed_takes cnt |})
    else
      ({| Assemble.take_id := take_id;
          Assemble.status := Some (run_status env);
          Assemble.video_file := None;
          Assemble.quality_score := None |},
       {| total_takes := total;
          successful_takes := successful_takes cnt;
          failed_takes := S (failed_takes cnt) |})
  else
    ({| Assemble.take_id := take_id;
        Assemble.status := Some "planned";
        Assemble.video_file := None;
        Assemble.quality_score := None |},
     {| total_takes := total;
        successful_takes := successful_takes cnt;
        failed_takes := failed_takes cnt |}).

(** Whether the status of a take is [name]. *)
Definition is_status (name : string) (take : Assemble.Take) : bool :=
  match Assemble.status take with
  | Some s => String.eqb s name
  | None => false
  end.

(** The number of takes of status [name]. *)
Definition count_status (name : string) (takes : list Assemble.Take) : nat :=
  List.length (filter (is_status name) takes).

(** The takes of all the shot reports, in order. *)
Definition all_takes (reports : list Assemble.ShotReport) : list Assemble.Take :=
  flat_map Assemble.takes reports.

(** What a take record tells about the run that made it. *)
Definition take_ok (execute_generation dry_run : bool) (t : Assemble.Take) : Prop :=
  (Assemble.video_file t <> None ->
   Assemble.status t = Some "success"%string /\
   execute_generation = true /\ dry_run = false) /\
  (Assemble.quality_score t = None <-> Assemble.video_file t = None) /\
  (execute_generation = false ->
   is_status "error" t = true \/ is_status "planned" t = true) /\
  Assemble.status t <> None.

Section WithEnv.

Variables (execute_generation dry_run : bool).

(** The processes met by take [take_index] of the shot at position
    [position] of the run. *)
Variable env_of : nat -> nat -> TakeEnv.

(** The loop [for take_index in range(1, takes + 1)]. *)
Fixpoint run_takes (shot_id : string) (position : nat) (indexes : list nat)
    (cnt : Counters) : list Assemble.Take * Counters :=
  match indexes with
  | [] => ([], cnt)
  | take_index :: rest =>
      let '(take, cnt1) :=
        run_take execute_generation dry_run shot_id take_index
                 (env_of position take_index) cnt in
      let '(takes, cnt2) := run_takes shot_id position rest cnt1 in
      (take :: takes, cnt2)
  end.

(** The loop [for shot in shots]; [position] is [len(shot_reports)]. *)
Fixpoint run_shots (max_takes_per_shot : option Z) (shots : list PlanShot)
    (position : nat) (cnt : Counters)
  : list Assemble.ShotReport * Counters :=
  match shots with
  | [] => ([], cnt)
  | shot :: rest =>
      let shot_id :=
        match shot_id shot with
        | Some i => i
        | None => "shot_" ++ Text.pad3 (position + 1)
        end in
      let takes := _takes_for_shot shot max_takes_per_shot in
      let '(take_reports, cnt1) :=
        run_takes shot_id position (take_indexes takes) cnt in
      let '(reports, cnt2) :=
        run_shots max_takes_per_shot rest (S position) cnt1 in
      ({| Assemble.shot_id := shot_id; Assemble.takes := take_reports |}
         :: reports, cnt2)
  end.

(** The manifest written by [main], with the keys used here. *)
Record Manifest : Type := {
  status : string;
  shot_reports : list Assemble.ShotReport;
  summary : Counters;
}.

(** [main] from the loaded plan to the manifest, once the plan file is read
    and the checks on the Wan2GP root have passed. An empty plan raises. *)
Definition generate (shots : list PlanShot)
    (max_shots max_takes_per_shot : option Z) : outcome Manifest :=
  match shots with
  | [] => Raised "Plan file has no shots to generate."
  | _ =>
      let '(reports, cnt) :=
        run_shots max_takes_per_shot (capped_shots shots max_shots) 0 no_takes in
      let status :=
        if execute_generation && (successful_takes cnt =? 0)%nat
           && (0 <? total_takes cnt)%nat
        then "error" else "success" in
      Ok {| status := status; shot_reports := reports; summary := cnt |}
  end.

(** The exit code of [main] for a manifest. *)
Definition exit_code (m : Manifest) : Z :=
  if String.eqb (status m) "success" then 0%Z else 1%Z.

End WithEnv.

End GenerateRun.

(** ** scripts/compose_settings.py: frame, step and model selection *)

Module Compose.

Import Num.
Local Open Scope Q_scope.

(** [--quality] and [--task], restricted by argparse to their choices. *)
Inductive Quality : Type := Draft | Balanced | HighQuality.

Inductive Task : Type := Auto | T2v | I2v | Vace.

(** [_max_frames_for_vram]. *)
Definition _max_frames_for_vram (vram_gb : Q) : Z :=
  if Qle_bool vram_gb 8 then 81%Z
  else if Qle_bool vram_gb 12 then 121%Z
  else if Qle_bool vram_gb 20 then 161%Z
  else 241%Z.

(** [_steps_for_quality]. *)
Definition _steps_for_quality (quality : Quality) (vram_gb : Q) : Z :=
  let base :=
    match quality with
    | Draft => 12%Z
    | Balanced => 20%Z
    | HighQuality => 30%Z
    end in
  if Qle_bool vram_gb 8 then Z.min base 20 else base.

(** [quality != "draft"]. *)
Definition not_draft (quality : Quality) : bool :=
  match quality with
  | Draft => false
  | _ => true
  end.

Definition is_high (quality : Quality) : bool :=
  match quality with
  | HighQuality => true
  | _ => false
  end.

(** [_select_model]. *)
Definition _select_model (task : Task) (has_image : bool) (vram_gb : Q)
    (quality : Quality) : string :=
  let normalized :=
    match task with
    | Auto => if has_image then I2v else T2v
    | other => other
    end in
  match normalized with
  | I2v => "i2v"
  | Vace =>
      if Qle_bool 12 vram_gb && not_draft quality then "vace_14B" else "vace_1.3B"
  | _ =>
      if Qle_bool 20 vram_gb && is_high quality then "t2v_2_2"
      else if Qle_bool 12 vram_gb && not_draft quality then "t2v"
      else "t2v_1.3B"
  end%string.

(** The runtime flags recommended to the headless runner. *)
Record RuntimeFlags : Type := {
  attention : string;
  profile : string;
  teacache : option Q;
  compile : bool;
}.

(** [_recommended_runtime_flags]. *)
Definition _recommended_runtime_flags (vram_gb : Q) (quality : Quality)
  : RuntimeFlags :=
  match quality with
  | HighQuality =>
      if Qle_bool vram_gb 12 then
        {| attention := "sdpa"; profile := "4"; teacache := Some (3 # 2);
           compile := false |}
      else
        {| attention := "sdpa"; profile := "3"; teacache := None;
           compile := false |}
  | _ =>
      if Qle_bool vram_gb 8 then
        {| attention := "sdpa"; profile := "4"; teacache := Some (3 # 2);
           compile := false |}
      else if Qle_bool vram_gb 12 then
        {| attention := "sdpa"; profile := "4"; teacache := Some (3 # 2);
           compile := false |}
      else if Qle_bool vram_gb 20 then
        {| attention := "sage"; profile := "3"; teacache := Some 2;
           compile := true |}
      else
        {| attention := "sage2"; profile := "3"; teacache := Some 2;
           compile := true |}
  end%string.

(** The settings computed by [_build_settings] from the task, the quality,
    the duration, the frame rate and the VRAM. The prompt texts, the
    resolution and the seed are copied from the arguments and left out. *)
Record Settings : Type := {
  model_type : string;
  num_inference_steps : Z;
  video_length : Z;
  guidance_phases : option Z;
}.

(** [_build_settings], for a resolution that [_parse_resolution] accepts
    (the function raises on the others before anything is computed). *)
Definition _build_settings (task : Task) (has_image : bool) (quality : Quality)
    (duration_seconds : Q) (fps : Z) (vram_gb : Q) : Settings :=
  let frames_raw := Z.max 16 (round_half_even (duration_seconds * inject_Z fps)) in
  let frame_cap := _max_frames_for_vram vram_gb in
  let frames := Z.min frames_raw frame_cap in
  let steps := _steps_for_quality quality vram_gb in
  let model_type := _select_model task has_image vram_gb quality in
  if String.eqb model_type "t2v_2_2" then
    {| model_type := model_type;
       num_inference_steps := if (steps <? 24)%Z then 24%Z else steps;
       video_length := frames;
       guidance_phases := Some 2%Z |}
  else
    {| model_type := model_type;
       num_inference_steps := steps;
       video_length := frames;
       guidance_phases := None |}.

(** The terms looked for by [_prompt_quality_warnings]. *)
Definition risky_terms : list string :=
  ["logo"; "text"; "typography"; "website"; "url"; ".com"; ".pro"; "domain"]%string.

Definition text_warning : string :=
  ("Prompt asks for readable text/logo/website content; base t2v often degrades. "
   ++ "Prefer clean visual prompts or use i2v + external text overlay.")%string.

(** [_prompt_quality_warnings]. *)
Definition _prompt_quality_warnings (prompt : string) : list string :=
  let lowered := Text.lower prompt in
  if existsb (fun term => Text.contains term lowered) risky_terms
  then [text_warning] else [].

End Compose.

(** ** scripts/music_video.py: the sequence of stages *)

Module Pipeline.

Local Open Scope string_scope.
Local Open Scope Z_scope.

(** The exit codes of the four scripts, as far as they are run. *)
Record StageCodes : Type := {
  analyze_code : Z;
  plan_code : Z;
  generate_code : Z;
  assemble_code : Z;
}.

(** An entry of the stage list of the pipeline report. *)
Inductive StageEntry : Type :=
| Ran (stage : string) (exit_code : Z)
| Skipped (stage reason : string).


(** [_stage_result(...)["status"]]. *)
Definition stage_status (entry : StageEntry) : string :=
  match entry with
  | Ran _ code => if code =? 0 then "success" else "error"
  | Skipped _ _ => "skipped"
  end.

(** The pipeline report and the exit code of [main]. *)
Record Report : Type := {
  status : string;
  error : option string;
  stages : list StageEntry;
  exit_code : Z;
}.

Definition failed (label : string) (stages : list StageEntry) : Report :=
  {| status := "error"; error := Some label; stages := stages; exit_code := 1 |}.

(** [main], after the argument checks: each stage runs when the previous
    one returned 0, and the assembly is skipped on request or when
    generation is not executed. *)
Definition run_pipeline (execute_generation skip_assemble : bool)
    (codes : StageCodes) : Report :=
  let stage1 := [Ran "analyze" (analyze_code codes)] in
  if negb (analyze_code codes =? 0) then failed "audio_analyze_failed" stage1
  else
    let stage2 := app stage1 [Ran "plan" (plan_code codes)] in
    if negb (plan_code codes =? 0) then failed "music_plan_failed" stage2
    else
      let stage3 := app stage2 [Ran "generate" (generate_code codes)] in
      if negb (generate_code codes =? 0) then failed "music_generate_failed" stage3
      else
        let assemble_skipped_reason :=
          if skip_assemble then Some "skip_assemble_flag"
          else if negb execute_generation then Some "generation_not_executed"
          else None in
        match assemble_skipped_reason with
        | None =>
            let stage4 := app stage3 [Ran "assemble" (assemble_code codes)] in
            if negb (assemble_code codes =? 0)
            then failed "music_assemble_failed" stage4
            else {| status := "success"; error := None; stages := stage4;
                    exit_code := 0 |}
        | Some reason =>
            {| status := "success"; error := None;
               stages := app stage3 [Skipped "assemble" reason];
               exit_code := 0 |}
        end.

(** [main] with its two argument checks; the first message is followed by
    the path of the audio file. *)
Definition main (audio_exists wan_root_given execute_generation
    skip_assemble : bool) (codes : StageCodes) : outcome Report :=
  if negb audio_exists then Raised "Audio file not found"
  else if execute_generation && negb wan_root_given then
    Raised "--wan-root is required with --execute-generation"
  else Ok (run_pipeline execute_generation skip_assemble codes).

End Pipeline.

(** ** Concrete inputs for the generator and the pipeline *)

Module RunExamples.

Import Generate GenerateRun.
Local Open Scope string_scope.

(** A plan of two shots, the second without id and with a null take
    count. *)
Definition two_shot_plan : list PlanShot :=
  [ {| shot_id := Some "shot_001"; planned_takes := Some 3%Z |};
    {| shot_id := None; planned_takes := None |} ].

(** Processes for which composing always works, the first take of each shot
    fails to render and the others render a 3 MiB clip. *)
Definition flaky_env (position take_index : nat) : TakeEnv :=
  {| compose_ok := true;
     run_status := if (take_index =? 1)%nat then "error" else "success";
     found_video :=
       if (take_index =? 1)%nat then None
       else Some ("take.mp4", 3145728%Z) |}.


End RunExamples.

(** * Properties *)

(** ** Facts on rationals, rounding and the median *)

Module NumFacts.

Import Num.
Local Open Scope Q_scope.

Lemma Qlt_bool_iff (x y : Q) : Qlt_bool x y = true <-> x < y.
Proof.
  unfold Qlt_bool. rewrite negb_true_iff.
  split; intro H.
  - apply Qnot_le_lt. intro Hle. apply Qle_bool_iff in Hle. congruence.
  - destruct (Qle_bool y x) eqn:E; [|reflexivity].
    apply Qle_bool_iff in E. exfalso. apply (Qlt_not_le _ _ H E).
Qed.

Lemma Qlt_bool_false (x y : Q) : Qlt_bool x y = false <-> y <= x.
Proof.
  unfold Qlt_bool. rewrite negb_false_iff. apply Qle_bool_iff.
Qed.

Lemma Qle_bool_false (x y : Q) : Qle_bool x y = false <-> y < x.
Proof.
  split; intro H.
  - apply Qnot_le_lt. intro Hle. apply Qle_bool_iff in Hle. congruence.
  - destruct (Qle_bool x y) eqn:E; [|reflexivity].
    apply Qle_bool_iff in E. exfalso. apply (Qlt_not_le _ _ H E).
Qed.

Lemma round_half_even_err (y : Q) :
  y - (1 # 2) <= inject_Z (round_half_even y) <= y + (1 # 2).
Proof.
  unfold round_half_even.
  pose proof (Qfloor_le y) as Hlo.
  pose proof (Qlt_floor y) as Hhi.
  rewrite inject_Z_plus in Hhi.
  change (inject_Z 1) with 1 in Hhi.
  destruct (Qlt_bool (y - inject_Z (Qfloor y)) (1 # 2)) eqn:E1.
  - apply Qlt_bool_iff in E1. split; lra.
  - apply Qlt_bool_false in E1.
    destruct (Qlt_bool (1 # 2) (y - inject_Z (Qfloor y))) eqn:E2.
    + rewrite inject_Z_plus. change (inject_Z 1) with 1. split; lra.
    + apply Qlt_bool_false in E2.
      destruct (Z.even (Qfloor y)).
      * split; lra.
      * rewrite inject_Z_plus. change (inject_Z 1) with 1. split; lra.
Qed.

Lemma round4_err (x : Q) :
  x - (1 # 20000) <= round4 x <= x + (1 # 20000).
Proof.
  unfold round4.
  pose proof (round_half_even_err (x * 10000)) as H.
  set (z := round_half_even (x * 10000)) in *.
  assert (Hz : z # 10000 == inject_Z z / 10000).
  { unfold Qeq, inject_Z, Qdiv, Qmult, Qinv. simpl. lia. }
  rewrite Hz. split.
  - apply Qle_shift_div_l; lra.
  - apply Qle_shift_div_r; lra.
Qed.

(** Names every [Qmin] and [Qmax] of the goal and the context and splits on
    which argument it equals, leaving linear facts. *)
Ltac qminmax :=
  repeat match goal with
  | |- context [Qmax ?a ?b] =>
      let H := fresh "Hmax" in
      let x := fresh "mx" in
      pose proof (Q.max_spec a b) as H;
      set (x := Qmax a b) in *; clearbody x;
      destruct H as [[? ?] | [? ?]]
  | |- context [Qmin ?a ?b] =>
      let H := fresh "Hmin" in
      let x := fresh "mn" in
      pose proof (Q.min_spec a b) as H;
      set (x := Qmin a b) in *; clearbody x;
      destruct H as [[? ?] | [? ?]]
  | _ : context [Qmax ?a ?b] |- _ =>
      let H := fresh "Hmax" in
      let x := fresh "mx" in
      pose proof (Q.max_spec a b) as H;
      set (x := Qmax a b) in *; clearbody x;
      destruct H as [[? ?] | [? ?]]
  | _ : context [Qmin ?a ?b] |- _ =>
      let H := fresh "Hmin" in
      let x := fresh "mn" in
      pose proof (Q.min_spec a b) as H;
      set (x := Qmin a b) in *; clearbody x;
      destruct H as [[? ?] | [? ?]]
  end.

(** Turns the boolean comparisons of the context into propositions. *)
Ltac qbool :=
  repeat match goal with
  | H : Qlt_bool _ _ = true |- _ => apply Qlt_bool_iff in H
  | H : Qlt_bool _ _ = false |- _ => apply Qlt_bool_false in H
  | H : Qle_bool _ _ = true |- _ => apply Qle_bool_iff in H
  | H : Qle_bool _ _ = false |- _ => apply Qle_bool_false in H
  end.

Lemma insert_asc_In (x y : Q) (l : list Q) :
  In y (insert_asc x l) <-> y = x \/ In y l.
Proof.
  induction l as [|a l IH]; simpl.
  - intuition.
  - destruct (Qle_bool x a); simpl; [intuition|].
    rewrite IH. intuition.
Qed.

Lemma sort_asc_In (y : Q) (l : list Q) : In y (sort_asc l) <-> In y l.
Proof.
  induction l as [|a l IH]; simpl; [reflexivity|].
  rewrite insert_asc_In, IH. intuition.
Qed.

Lemma insert_asc_length (x : Q) (l : list Q) :
  List.length (insert_asc x l) = S (List.length l).
Proof.
  induction l as [|a l IH]; simpl; [reflexivity|].
  destruct (Qle_bool x a); simpl; congruence.
Qed.

Lemma sort_asc_length (l : list Q) : List.length (sort_asc l) = List.length l.
Proof.
  induction l as [|a l IH]; simpl; [reflexivity|].
  rewrite insert_asc_length. congruence.
Qed.

(** The median of positive data is positive. *)
Lemma median_pos (data : list Q) :
  data <> [] -> (forall v, In v data -> 0 < v) -> 0 < median data.
Proof.
  intros Hne Hpos. unfold median.
  assert (Hs : forall v, In v (sort_asc data) -> 0 < v).
  { intros v Hv. apply Hpos, sort_asc_In, Hv. }
  assert (Hlen : List.length (sort_asc data) <> 0%nat).
  { rewrite sort_asc_length. destruct data; simpl; congruence. }
  set (s := sort_asc data) in *.
  set (n := List.length s) in *.
  assert (Hdiv : (n / 2 < n)%nat) by (apply Nat.div_lt; lia).
  destruct (Nat.even n).
  - assert (0 < nth (n / 2 - 1) s 0) by (apply Hs, nth_In; lia).
    assert (0 < nth (n / 2) s 0) by (apply Hs, nth_In; lia).
    apply Qlt_shift_div_l; lra.
  - apply Hs, nth_In; lia.
Qed.

Lemma positive_only_pos (l : list Q) (v : Q) : In v (positive_only l) -> 0 < v.
Proof.
  unfold positive_only. rewrite filter_In. intros [_ H].
  apply Qlt_bool_iff, H.
Qed.

End NumFacts.

(** ** Forward snapping ([_snap_forward]) *)

Module SnapFacts.

Import Num NumFacts Plan.
Local Open Scope Q_scope.

Lemma first_at_or_after_Some (t : Q) (beats : list Q) (b : Q) :
  first_at_or_after t beats = Some b ->
  exists pre post,
    beats = pre ++ b :: post /\ t <= b /\ (forall x, In x pre -> x < t).
Proof.
  revert b. induction beats as [|a l IH]; intros b H; simpl in H.
  - discriminate.
  - destruct (Qle_bool t a) eqn:E.
    + injection H as <-. exists [], l. repeat split.
      * apply Qle_bool_iff, E.
      * intros x [].
    + apply Qle_bool_false in E.
      destruct (IH b H) as (pre & post & -> & Hb & Hpre).
      exists (a :: pre), post. repeat split; auto.
      intros x [<- | Hx]; auto.
Qed.

Lemma first_at_or_after_None (t : Q) (beats : list Q) :
  first_at_or_after t beats = None <-> (forall x, In x beats -> x < t).
Proof.
  induction beats as [|a l IH]; simpl.
  - split; [intros _ x [] | reflexivity].
  - destruct (Qle_bool t a) eqn:E.
    + split; [discriminate|]. intro H.
      apply Qle_bool_iff in E. specialize (H a (or_introl eq_refl)). lra.
    + apply Qle_bool_false in E. rewrite IH. split.
      * intros H x [<- | Hx]; auto.
      * intros H x Hx. apply H. now right.
Qed.

Lemma last_In (A : Type) (l : list A) (d : A) : l <> [] -> In (last l d) l.
Proof.
  induction l as [|a l IH]; [congruence|]. intros _.
  destruct l as [|b l]; [now left|].
  right. apply IH. discriminate.
Qed.

Lemma sorted_app_le (pre post : list Q) (b x : Q) :
  StronglySorted Qle (pre ++ b :: post) -> In x post -> b <= x.
Proof.
  induction pre as [|a pre IH]; simpl; intros Hs Hx.
  - inversion Hs as [|? ? _ Hall]; subst.
    rewrite Forall_forall in Hall. apply Hall, Hx.
  - inversion Hs; subst. apply IH; assumption.
Qed.

(** C2, counterexample: with beats at 1, 2 and 3 seconds and a target of 10
    seconds the function returns 3, a beat before the target. *)
Lemma snap_forward_moves_backward : ~ snap_never_backward 10 [1; 2; 3].
Proof.
  unfold snap_never_backward. intro H.
  assert (Hs : StronglySorted Qle [1; 2; 3]).
  { repeat constructor; unfold Qle; simpl; lia. }
  destruct (H ltac:(discriminate) Hs) as [_ Hle].
  vm_compute in Hle. apply Hle. reflexivity.
Qed.

(** C2, amended: on a non-empty ascending beat grid, when some beat lies at
    or after the target, [_snap_forward] returns the earliest such beat, which
    is at or after the target; when every beat lies before the target, it
    returns the last beat, which is before the target. *)
Theorem snap_forward_next_or_last (t : Q) (beats : list Q) :
  beats <> [] -> StronglySorted Qle beats ->
  ((exists b, In b beats /\ t <= b) ->
     In (_snap_forward t beats) beats /\ t <= _snap_forward t beats /\
     (forall b, In b beats -> t <= b -> _snap_forward t beats <= b)) /\
  ((forall b, In b beats -> b < t) ->
     _snap_forward t beats = last beats t /\
     In (_snap_forward t beats) beats /\ _snap_forward t beats < t).
Proof.
  intros Hne Hs.
  assert (Hdef : _snap_forward t beats =
                 match first_at_or_after t beats with
                 | Some beat => beat
                 | None => last beats t
                 end).
  { destruct beats; [congruence | reflexivity]. }
  split.
  - intros (b0 & Hb0 & Hle0).
    destruct (first_at_or_after t beats) as [r|] eqn:E.
    + rewrite Hdef.
      destruct (first_at_or_after_Some _ _ _ E) as (pre & post & Hsplit & Hr & Hpre).
      split; [|split]; auto.
      * rewrite Hsplit. apply in_or_app. right. now left.
      * intros b Hb Hle. rewrite Hsplit in Hb.
        apply in_app_or in Hb. destruct Hb as [Hb | [<- | Hb]].
        -- specialize (Hpre b Hb). lra.
        -- lra.
        -- rewrite Hsplit in Hs. eapply sorted_app_le; eassumption.
    + rewrite first_at_or_after_None in E. specialize (E b0 Hb0). lra.
  - intros Hall.
    assert (E : first_at_or_after t beats = None)
      by (apply first_at_or_after_None, Hall).
    rewrite Hdef, E. split; [reflexivity|].
    split; [apply last_In, Hne | apply Hall, last_In, Hne].
Qed.

Lemma snap_forward_next_or_last_witness :
  ((exists b, In b [1; 2; 3] /\ (3 # 2) <= b) ->
     In (_snap_forward (3 # 2) [1; 2; 3]) [1; 2; 3] /\
     (3 # 2) <= _snap_forward (3 # 2) [1; 2; 3] /\
     (forall b, In b [1; 2; 3] -> (3 # 2) <= b ->
                _snap_forward (3 # 2) [1; 2; 3] <= b)) /\
  ((forall b, In b [1; 2; 3] -> b < (3 # 2)) ->
     _snap_forward (3 # 2) [1; 2; 3] = last [1; 2; 3] (3 # 2) /\
     In (_snap_forward (3 # 2) [1; 2; 3]) [1; 2; 3] /\
     _snap_forward (3 # 2) [1; 2; 3] < (3 # 2)).
Proof.
  apply (snap_forward_next_or_last (3 # 2) [1; 2; 3]).
  - discriminate.
  - repeat constructor; unfold Qle; simpl; lia.
Defined.

End SnapFacts.

(** ** Tempo inference ([_infer_bpm_from_beats], [_try_librosa_analysis]) *)

Module AnalyzeFacts.

Import Num NumFacts Analyze.
Local Open Scope Q_scope.

(** C5, counterexample: four beats half a second apart and a raw tempo of
    100 BPM, which is plausible; the report says 120, not 100. *)
Lemma plausible_tempo_not_trusted :
  ~ tempo_trusted_unless_implausible 100 [0; 1 # 2; 1; 3 # 2] 10.
Proof.
  unfold tempo_trusted_unless_implausible. intro H.
  assert (Hlen : le 4 (List.length (_clip_round [0; 1 # 2; 1; 3 # 2] 10)))
    by (vm_compute; lia).
  destruct (H Hlen) as [_ Hin].
  assert (Hr : 40 <= 100 <= 220) by (split; unfold Qle; simpl; lia).
  specialize (Hin Hr). vm_compute in Hin. discriminate.
Qed.

(** C5, amended: when the detector yields at least four beats inside the
    track, the reported BPM is 60 divided by the median positive inter-beat
    interval whenever that value lies within 40 to 220, whatever the raw
    tempo estimate is; the raw estimate, raised to at least 1, is reported
    only when no interval is positive or that value lies outside 40 to 220.
    The reported value is rounded to three decimals. *)
Theorem bpm_from_beats_unless_implausible
    (tempo : Q) (beat_times : list Q) (duration_seconds : Q) :
  let beats0 := _clip_round beat_times duration_seconds in
  let ivs := positive_only (intervals beats0) in
  let reported :=
    bpm (fst (_try_librosa_analysis tempo beat_times duration_seconds)) in
  (4 <= List.length beats0)%nat ->
  (ivs <> [] -> 40 <= 60 / median ivs <= 220 ->
     reported = round3 (60 / median ivs)) /\
  (ivs = [] \/ 60 / median ivs < 40 \/ 220 < 60 / median ivs ->
     reported = round3 (Qmax 1 tempo)).
Proof.
  intros beats0 ivs reported Hlen.
  assert (Hrep : reported = round3 (_infer_bpm_from_beats beats0 (Qmax 1 tempo))).
  { unfold reported, _try_librosa_analysis. fold beats0.
    destruct (List.length beats0 <? 4)%nat eqn:E.
    - apply Nat.ltb_lt in E. lia.
    - reflexivity. }
  rewrite Hrep. unfold _infer_bpm_from_beats.
  destruct (List.length beats0 <? 3)%nat eqn:E3; [apply Nat.ltb_lt in E3; lia|].
  fold ivs.
  destruct ivs as [|v r] eqn:Eivs.
  - split; [congruence | reflexivity].
  - assert (Hmed : 0 < median (v :: r)).
    { apply median_pos; [discriminate|].
      intros x Hx. apply (positive_only_pos (intervals beats0)).
      unfold ivs in Eivs. rewrite Eivs. exact Hx. }
    destruct (Qle_bool (median (v :: r)) 0) eqn:Em.
    + apply Qle_bool_iff in Em. lra.
    + split.
      * intros _ [Hlo Hhi].
        assert (E1 : Qlt_bool (60 / median (v :: r)) 40 = false)
          by (apply Qlt_bool_false, Hlo).
        assert (E2 : Qlt_bool 220 (60 / median (v :: r)) = false)
          by (apply Qlt_bool_false, Hhi).
        rewrite E1, E2. reflexivity.
      * intros [Hnil | [Hlo | Hhi]]; [discriminate | |].
        -- apply Qlt_bool_iff in Hlo. rewrite Hlo. reflexivity.
        -- apply Qlt_bool_iff in Hhi. rewrite Hhi, orb_true_r. reflexivity.
Qed.

Lemma bpm_from_beats_unless_implausible_witness :
  let beats0 := _clip_round [0; 1 # 2; 1; 3 # 2] 10 in
  let ivs := positive_only (intervals beats0) in
  let reported := bpm (fst (_try_librosa_analysis 100 [0; 1 # 2; 1; 3 # 2] 10)) in
  (ivs <> [] -> 40 <= 60 / median ivs <= 220 ->
     reported = round3 (60 / median ivs)) /\
  (ivs = [] \/ 60 / median ivs < 40 \/ 220 < 60 / median ivs ->
     reported = round3 (Qmax 1 100)).
Proof.
  apply (bpm_from_beats_unless_implausible 100 [0; 1 # 2; 1; 3 # 2] 10).
  vm_compute. lia.
Defined.

End AnalyzeFacts.

(** ** Generation caps ([_takes_for_shot], the shot cap of [main]) *)

Module GenerateFacts.

Import Generate.
Local Open Scope Z_scope.

Lemma takes_for_shot_formula (shot : PlanShot) (cap : option Z) :
  _takes_for_shot shot cap =
  match cap with
  | Some c => Z.min (Z.max 1 (takes_or_one (planned_takes shot))) (Z.max 1 c)
  | None => Z.max 1 (takes_or_one (planned_takes shot))
  end.
Proof. reflexivity. Qed.

Lemma takes_for_shot_pos (shot : PlanShot) (cap : option Z) :
  1 <= _takes_for_shot shot cap.
Proof. rewrite takes_for_shot_formula. destruct cap; lia. Qed.

(** [_takes_for_shot] on the [takes] key as it stands in the plan: a count
    [n] is read as [max(1, n)], an absent or null key as 1. *)
Lemma takes_for_shot_raw (shot : PlanShot) (cap : option Z) :
  _takes_for_shot shot cap =
  match cap with
  | Some c =>
      Z.min (match planned_takes shot with Some n => Z.max 1 n | None => 1 end)
            (Z.max 1 c)
  | None => match planned_takes shot with Some n => Z.max 1 n | None => 1 end
  end.
Proof.
  unfold _takes_for_shot, takes_or_one.
  destruct (planned_takes shot) as [n|]; [destruct (Z.eqb_spec n 0)|];
    destruct cap; lia.
Qed.

Lemma capped_shots_nonempty (shots : list PlanShot) (max_shots : option Z) :
  shots <> [] -> capped_shots shots max_shots <> [].
Proof.
  intro Hne. destruct max_shots as [cap|]; simpl; [|exact Hne].
  destruct shots as [|s r]; [congruence|].
  destruct (Z.to_nat (Z.max 1 cap)) eqn:E; [lia|]. simpl. discriminate.
Qed.

Lemma capped_shots_length (shots : list PlanShot) (cap : Z) :
  List.length (capped_shots shots (Some cap)) =
  Nat.min (Z.to_nat (Z.max 1 cap)) (List.length shots).
Proof. simpl. apply length_firstn. Qed.

(** C9: for a plan with at least one shot and any values of the two caps,
    zero and negative ones included, the generator processes the first
    [max(1, max_shots)] shots, hence at least one, and for every processed
    shot it attempts takes 1 to [min(planned, max(1, max_takes_per_shot))],
    where [planned] is the count [n] of the [takes] key of the shot raised
    to at least 1, and 1 when the key is absent or null: at least one
    take. *)
Theorem generation_processes_at_least_one
    (shots : list PlanShot) (max_shots max_takes_per_shot : option Z) :
  shots <> [] ->
  exists schedule,
    generation_schedule shots max_shots max_takes_per_shot = Ok schedule /\
    schedule <> [] /\
    map fst schedule =
      match max_shots with
      | Some cap => firstn (Z.to_nat (Z.max 1 cap)) shots
      | None => shots
      end /\
    (forall shot attempted, In (shot, attempted) schedule ->
       let planned :=
         match planned_takes shot with
         | Some n => Z.max 1 n
         | None => 1
         end in
       let count :=
         match max_takes_per_shot with
         | Some cap => Z.min planned (Z.max 1 cap)
         | None => planned
         end in
       1 <= count /\
       attempted = seq 1 (Z.to_nat count) /\
       attempted <> []).
Proof.
  intro Hne.
  exists (map (fun shot => (shot, take_indexes (_takes_for_shot shot max_takes_per_shot)))
              (capped_shots shots max_shots)).
  split; [destruct shots; [congruence | reflexivity]|].
  split.
  { pose proof (capped_shots_nonempty shots max_shots Hne) as H.
    destruct (capped_shots shots max_shots); [congruence | discriminate]. }
  split.
  { rewrite map_map. simpl. rewrite map_id. reflexivity. }
  intros shot attempted Hin. apply in_map_iff in Hin.
  destruct Hin as (s & Heq & _). injection Heq as <- <-.
  pose proof (takes_for_shot_pos s max_takes_per_shot) as Hpos.
  rewrite takes_for_shot_raw in Hpos.
  cbv zeta. split; [exact Hpos|]. split.
  - unfold take_indexes. rewrite takes_for_shot_raw. reflexivity.
  - unfold take_indexes. rewrite takes_for_shot_raw.
    match goal with |- seq 1 (Z.to_nat ?c) <> [] =>
      destruct (Z.to_nat c) eqn:E; [lia | discriminate] end.
Qed.

Lemma generation_processes_at_least_one_witness :
  exists schedule,
    generation_schedule
      [ {| shot_id := Some "shot_001"%string; planned_takes := Some 3 |};
        {| shot_id := Some "shot_002"%string; planned_takes := Some 0 |} ]
      (Some (-2)) (Some 0) = Ok schedule /\
    schedule <> [] /\
    map fst schedule =
      firstn (Z.to_nat (Z.max 1 (-2)))
        [ {| shot_id := Some "shot_001"%string; planned_takes := Some 3 |};
          {| shot_id := Some "shot_002"%string; planned_takes := Some 0 |} ] /\
    (forall shot attempted, In (shot, attempted) schedule ->
       let planned :=
         match planned_takes shot with
         | Some n => Z.max 1 n
         | None => 1
         end in
       let count := Z.min planned (Z.max 1 0) in
       1 <= count /\
       attempted = seq 1 (Z.to_nat count) /\
       attempted <> []).
Proof.
  apply (generation_processes_at_least_one
           [ {| shot_id := Some "shot_001"%string; planned_takes := Some 3 |};
             {| shot_id := Some "shot_002"%string; planned_takes := Some 0 |} ]
           (Some (-2)) (Some 0)).
  discriminate.
Defined.

End GenerateFacts.

(** ** Best-take selection and clip selection *)

Module AssembleFacts.

Import Num NumFacts Assemble.
Local Open Scope Q_scope.

Lemma insert_desc_not_nil (x : Q * Take) (l : list (Q * Take)) :
  insert_desc x l <> [].
Proof. destruct l; simpl; [|destruct (Qlt_bool _ _)]; discriminate. Qed.

Lemma sort_desc_nil (l : list (Q * Take)) : sort_desc l = [] -> l = [].
Proof.
  destruct l as [|x l]; [reflexivity|]. simpl. intro H.
  exfalso. exact (insert_desc_not_nil _ _ H).
Qed.

(** The head of the stable descending sort is the first element of maximal
    key. *)
Lemma sort_desc_head (l : list (Q * Take)) (b : Q * Take) (r : list (Q * Take)) :
  sort_desc l = b :: r ->
  exists pre post,
    l = pre ++ b :: post /\
    (forall u, In u pre -> fst u < fst b) /\
    (forall u, In u post -> fst u <= fst b).
Proof.
  revert b r. induction l as [|x l IH]; intros b r H; [discriminate|].
  simpl in H. destruct (sort_desc l) as [|y s] eqn:E.
  - apply sort_desc_nil in E. subst l. simpl in H. injection H as <- <-.
    exists [], []. repeat split; intros u [].
  - destruct (IH y s eq_refl) as (pre & post & Hl & Hpre & Hpost).
    simpl in H. destruct (Qlt_bool (fst x) (fst y)) eqn:Ex.
    + injection H as <- <-. apply Qlt_bool_iff in Ex.
      exists (x :: pre), post. rewrite Hl. repeat split; auto.
      intros u [<- | Hu]; auto.
    + injection H as <- <-. apply Qlt_bool_false in Ex.
      exists [], l. repeat split; [intros u []|].
      intros u Hu. rewrite Hl in Hu. apply in_app_or in Hu.
      destruct Hu as [Hu | [<- | Hu]].
      * specialize (Hpre u Hu). lra.
      * exact Ex.
      * specialize (Hpost u Hu). lra.
Qed.

Section WithFiles.

Variable resolve : string -> string.
Variable path_exists : string -> bool.

Lemma candidates_filter (takes : list Take) :
  candidates resolve path_exists takes
  = map (fun u => (score_of u, u)) (filter (usable resolve path_exists) takes).
Proof.
  induction takes as [|t l IH]; simpl; [reflexivity|].
  destruct (usable resolve path_exists t); simpl; congruence.
Qed.

Lemma map_eq_app_cons (A B : Type) (f : A -> B) (l : list A)
    (pre post : list B) (b : B) :
  map f l = pre ++ b :: post ->
  exists l1 a l2, l = l1 ++ a :: l2 /\ map f l1 = pre /\ f a = b /\ map f l2 = post.
Proof.
  revert l. induction pre as [|p pre IH]; intros l H.
  - destruct l as [|a l]; [discriminate|]. simpl in H. injection H as Ha Hl.
    exists [], a, l. auto.
  - destruct l as [|a l]; [discriminate|]. simpl in H. injection H as Ha Hl.
    destruct (IH l Hl) as (l1 & a' & l2 & -> & H1 & H2 & H3).
    exists (a :: l1), a', l2. simpl. repeat split; congruence.
Qed.

Lemma best_take_None (takes : list Take) :
  _best_take resolve path_exists takes = None <-> filter (usable resolve path_exists) takes = [].
Proof.
  unfold _best_take. rewrite candidates_filter.
  destruct (sort_desc _) as [|b r] eqn:E.
  - apply sort_desc_nil in E. split; [|reflexivity]. intros _.
    destruct (filter (usable resolve path_exists) takes); [reflexivity | discriminate].
  - split; [discriminate|]. intro H. rewrite H in E. discriminate.
Qed.

Lemma best_take_Some (takes : list Take) (t : Take) :
  _best_take resolve path_exists takes = Some t ->
  exists pre post,
    filter (usable resolve path_exists) takes = pre ++ t :: post /\
    (forall u, In u pre -> score_of u < score_of t) /\
    (forall u, In u post -> score_of u <= score_of t).
Proof.
  unfold _best_take. rewrite candidates_filter.
  destruct (sort_desc _) as [|b r] eqn:E; [discriminate|].
  intro H. injection H as <-.
  destruct (sort_desc_head _ _ _ E) as (pre & post & Hl & Hpre & Hpost).
  destruct (map_eq_app_cons _ _ _ _ _ _ _ Hl) as (l1 & a & l2 & Hf & H1 & H2 & H3).
  subst b pre post. simpl in *.
  exists l1, l2. split; [exact Hf|]. split.
  - intros u Hu. apply (Hpre (score_of u, u)).
    apply in_map_iff. exists u. auto.
  - intros u Hu. apply (Hpost (score_of u, u)).
    apply in_map_iff. exists u. auto.
Qed.

(** [usable] on the keys of the take. *)
Lemma usable_fields (u : Take) :
  usable resolve path_exists u = true <->
  exists st f,
    status u = Some st /\ Text.lower st = "success"%string /\
    video_file u = Some f /\ f <> EmptyString /\
    path_exists (resolve f) = true.
Proof.
  unfold usable. split.
  - intro H.
    destruct (status u) as [st|] eqn:Es; [|discriminate H].
    destruct (String.eqb_spec (Text.lower st) "success") as [El | El];
      [|discriminate H].
    destruct (video_file u) as [f|] eqn:Ef; [|discriminate H].
    destruct (String.eqb_spec f EmptyString) as [Ee | Ee]; [discriminate H|].
    exists st, f. simpl in H. auto.
  - intros (st & f & -> & El & -> & Hf & Hp).
    rewrite El. simpl.
    destruct (String.eqb_spec f EmptyString) as [Ee | Ee]; [contradiction|].
    exact Hp.
Qed.

Lemma clips_from_shots_app (s1 s2 : list ShotReport) :
  clips_from_shots resolve path_exists (s1 ++ s2)
  = clips_from_shots resolve path_exists s1 ++ clips_from_shots resolve path_exists s2.
Proof.
  induction s1 as [|s l IH]; simpl; [reflexivity|].
  destruct (_best_take resolve path_exists (takes s)); simpl; congruence.
Qed.

(** C6: a take qualifies when its status is [success], in any case of the
    letters, and its video file is named and exists. The selected take is,
    among the qualifying takes, one of maximal [quality_score] (an absent or
    null score counting as 0) and the first of them in the takes list: every
    qualifying take before it scores strictly less, every qualifying take
    after it scores at most as much. A take is selected as soon as one
    qualifies; when none does, none is selected and the shot adds no clip. *)
Theorem best_take_first_maximum (takes : list Take) :
  let score := fun u : Take =>
    match quality_score u with
    | Some s => s
    | None => 0
    end in
  (forall u, usable resolve path_exists u = true <->
     exists st f,
       status u = Some st /\ Text.lower st = "success"%string /\
       video_file u = Some f /\ f <> EmptyString /\
       path_exists (resolve f) = true) /\
  (forall t, _best_take resolve path_exists takes = Some t ->
     exists pre post,
       filter (usable resolve path_exists) takes = pre ++ t :: post /\
       (forall u, In u pre -> score u < score t) /\
       (forall u, In u post -> score u <= score t)) /\
  (filter (usable resolve path_exists) takes <> [] ->
     exists t, _best_take resolve path_exists takes = Some t) /\
  (filter (usable resolve path_exists) takes = [] ->
     _best_take resolve path_exists takes = None /\
     forall name before after,
       clips_from_shots resolve path_exists
         (before ++ {| shot_id := name; takes := takes |} :: after)
       = clips_from_shots resolve path_exists (before ++ after)).
Proof.
  intro score. split; [apply usable_fields|].
  split; [apply best_take_Some|]. split.
  - intro Hne. destruct (_best_take resolve path_exists takes) as [t|] eqn:E; [eauto|].
    apply best_take_None in E. congruence.
  - intro Hnil. apply best_take_None in Hnil. split; [exact Hnil|].
    intros name before after. rewrite !clips_from_shots_app. simpl.
    rewrite Hnil. reflexivity.
Qed.

(** C10: a take qualifies when its status is [success], in any case of the
    letters, and its video file is named and exists. A qualifying take
    without quality score counts with score 0: it is a candidate, it is
    selected when it is the only qualifying take of its shot, and whenever
    some qualifying take has a [quality_score] above 0 the selected take is
    a qualifying take with a [quality_score] above 0 too, so the take
    without score is not the one selected. *)
Theorem unscored_take_counts_as_zero (takes : list Take) (t : Take) :
  let qualifies := fun u : Take =>
    exists st f,
      status u = Some st /\ Text.lower st = "success"%string /\
      video_file u = Some f /\ f <> EmptyString /\
      path_exists (resolve f) = true in
  In t takes -> qualifies t -> quality_score t = None ->
  In (0, t) (candidates resolve path_exists takes) /\
  ((forall u, In u takes -> qualifies u -> u = t) ->
     _best_take resolve path_exists takes = Some t) /\
  (forall u s,
     In u takes -> qualifies u -> quality_score u = Some s -> 0 < s ->
     exists best s',
       _best_take resolve path_exists takes = Some best /\
       qualifies best /\
       quality_score best = Some s' /\ 0 < s' /\ best <> t).
Proof.
  intros qualifies Hin Hqual Hq.
  assert (Hus : usable resolve path_exists t = true)
    by (apply usable_fields; exact Hqual).
  assert (Hs : score_of t = 0) by (unfold score_of; rewrite Hq; reflexivity).
  assert (Hf : In t (filter (usable resolve path_exists) takes)) by (apply filter_In; auto).
  split; [|split].
  - rewrite candidates_filter. apply in_map_iff. exists t. split; [|exact Hf].
    rewrite Hs. reflexivity.
  - intro Honly.
    destruct (_best_take resolve path_exists takes) as [b|] eqn:E.
    + destruct (best_take_Some _ _ E) as (pre & post & Hsplit & _ & _).
      assert (Hb : In b (filter (usable resolve path_exists) takes)).
      { rewrite Hsplit. apply in_or_app. right. now left. }
      apply filter_In in Hb. destruct Hb as [Hb1 Hb2].
      apply usable_fields in Hb2.
      rewrite (Honly b Hb1 Hb2). reflexivity.
    + apply best_take_None in E. rewrite E in Hf. destruct Hf.
  - intros u s Hu Huq Hqu Hs0.
    assert (Huu : usable resolve path_exists u = true)
      by (apply usable_fields; exact Huq).
    assert (Hpos : 0 < score_of u) by (unfold score_of; rewrite Hqu; exact Hs0).
    assert (Hfu : In u (filter (usable resolve path_exists) takes)) by (apply filter_In; auto).
    destruct (_best_take resolve path_exists takes) as [b|] eqn:E.
    + destruct (best_take_Some _ _ E) as (pre & post & Hsplit & Hpre & Hpost).
      assert (Hb : 0 < score_of b).
      { rewrite Hsplit in Hfu. apply in_app_or in Hfu.
        destruct Hfu as [Hx | [<- | Hx]].
        - specialize (Hpre u Hx). lra.
        - exact Hpos.
        - specialize (Hpost u Hx). lra. }
      unfold score_of in Hb.
      destruct (quality_score b) as [s'|] eqn:Eb; [|lra].
      assert (Hbq : qualifies b).
      { apply usable_fields.
        assert (Hbf : In b (filter (usable resolve path_exists) takes)).
        { rewrite Hsplit. apply in_or_app. right. now left. }
        apply filter_In in Hbf. apply Hbf. }
      exists b, s'. split; [reflexivity|]. split; [exact Hbq|].
      split; [exact Eb|].
      split; [exact Hb|]. intro Hbt. rewrite Hbt in Eb. congruence.
    + apply best_take_None in E. rewrite E in Hfu. destruct Hfu.
Qed.

End WithFiles.

Import Examples.

Lemma best_take_first_maximum_witness :
  let score := fun u : Take =>
    match quality_score u with
    | Some s => s
    | None => 0
    end in
  (forall u, usable same_path every_file u = true <->
     exists st f,
       status u = Some st /\ Text.lower st = "success"%string /\
       video_file u = Some f /\ f <> EmptyString /\
       every_file (same_path f) = true) /\
  (forall t, _best_take same_path every_file three_takes = Some t ->
     exists pre post,
       filter (usable same_path every_file) three_takes = pre ++ t :: post /\
       (forall u, In u pre -> score u < score t) /\
       (forall u, In u post -> score u <= score t)) /\
  (filter (usable same_path every_file) three_takes <> [] ->
     exists t, _best_take same_path every_file three_takes = Some t) /\
  (filter (usable same_path every_file) three_takes = [] ->
     _best_take same_path every_file three_takes = None /\
     forall name before after,
       clips_from_shots same_path every_file
         (before ++ {| shot_id := name; takes := three_takes |} :: after)
       = clips_from_shots same_path every_file (before ++ after)).
Proof. exact (best_take_first_maximum same_path every_file three_takes). Defined.

(** The example of the specification: scores 0.35, 0.8 and 0.6 select the
    take scoring 0.8. *)
Example best_of_three_takes :
  _best_take same_path every_file three_takes
  = Some (take_scored "shot_001_take02" (Some (8 # 10))).
Proof. reflexivity. Qed.

Lemma unscored_take_counts_as_zero_witness :
  let qualifies := fun u : Take =>
    exists st f,
      status u = Some st /\ Text.lower st = "success"%string /\
      video_file u = Some f /\ f <> EmptyString /\
      every_file (same_path f) = true in
  In (0, unscored_take)
     (candidates same_path every_file [failed_take; unscored_take]) /\
  ((forall u, In u [failed_take; unscored_take] -> qualifies u ->
              u = unscored_take) ->
     _best_take same_path every_file [failed_take; unscored_take]
     = Some unscored_take) /\
  (forall u s,
     In u [failed_take; unscored_take] -> qualifies u ->
     quality_score u = Some s -> 0 < s ->
     exists best s',
       _best_take same_path every_file [failed_take; unscored_take] = Some best /\
       qualifies best /\
       quality_score best = Some s' /\ 0 < s' /\ best <> unscored_take).
Proof.
  apply (unscored_take_counts_as_zero same_path every_file
           [failed_take; unscored_take] unscored_take).
  - simpl. right. left. reflexivity.
  - exists "success"%string, "shot_002_take01.mp4"%string.
    split; [reflexivity|]. split; [reflexivity|]. split; [reflexivity|].
    split; [discriminate | reflexivity].
  - reflexivity.
Defined.

Section ClipSelection.

Variable resolve : string -> string.
Variable path_exists : string -> bool.

Lemma has_usable_take_false (shot : ShotReport) :
  has_usable_take resolve path_exists shot = false
  <-> _best_take resolve path_exists (takes shot) = None.
Proof.
  rewrite best_take_None. unfold has_usable_take.
  induction (takes shot) as [|t l IH]; simpl; [tauto|].
  destruct (usable resolve path_exists t); simpl.
  - split; discriminate.
  - exact IH.
Qed.

Lemma clips_from_shots_nil (l : list ShotReport) :
  clips_from_shots resolve path_exists l = []
  <-> (forall shot, In shot l -> has_usable_take resolve path_exists shot = false).
Proof.
  induction l as [|s l IH]; simpl.
  - split; [intros _ shot [] | reflexivity].
  - destruct (_best_take resolve path_exists (takes s)) as [b|] eqn:E.
    + split; [discriminate|]. intro H.
      specialize (H s (or_introl eq_refl)).
      apply has_usable_take_false in H. congruence.
    + rewrite IH. split.
      * intros H shot [<- | Hs]; [apply has_usable_take_false, E | auto].
      * intros H shot Hs. apply H. now right.
Qed.

Lemma existing_raw_clips_nil (l : list string) :
  existing_raw_clips resolve path_exists l = []
  <-> (forall value, In value l -> path_exists (resolve value) = false).
Proof.
  induction l as [|v l IH]; simpl.
  - split; [intros _ value [] | reflexivity].
  - destruct (path_exists (resolve v)) eqn:E.
    + split; [discriminate|]. intro H.
      specialize (H v (or_introl eq_refl)). congruence.
    + rewrite IH. split.
      * intros H value [<- | Hv]; auto.
      * intros H value Hv. apply H. now right.
Qed.

Lemma capped_nil (A : Type) (l : list A) (cap : Z) :
  firstn (Z.to_nat (Z.max 1 cap)) l = [] <-> l = [].
Proof.
  destruct (Z.to_nat (Z.max 1 cap)) eqn:E; [lia|].
  destruct l; simpl; split; congruence.
Qed.

Lemma select_clip_paths_nil (manifest : Manifest) (max_clips : option Z) :
  _select_clip_paths resolve path_exists manifest max_clips = []
  <-> clips_from_shots resolve path_exists (shots manifest) = [] /\
      existing_raw_clips resolve path_exists (clips manifest) = [].
Proof.
  unfold _select_clip_paths.
  set (c1 := clips_from_shots resolve path_exists (shots manifest)).
  set (c2 := existing_raw_clips resolve path_exists (clips manifest)).
  assert (H : match c1 with [] => c2 | _ :: _ => c1 end = []
              <-> c1 = [] /\ c2 = []).
  { destruct c1; [tauto|]. split; [discriminate | intros [H _]; discriminate]. }
  destruct max_clips as [cap|]; [rewrite capped_nil|]; exact H.
Qed.

(** C7, amended: the no-usable-clips error is raised exactly when no shot of
    the manifest has a usable take and, in addition, no entry of the
    manifest's [clips] list is an existing file; in every other case, in
    particular as soon as one shot has a usable take, the assembly goes on
    with a non-empty clip list. *)
Theorem fails_without_any_clip (manifest : Manifest) (max_clips : option Z) :
  (select_or_fail resolve path_exists manifest max_clips
     = Raised "No successful clips found in manifest."
   <-> (forall shot, In shot (shots manifest) ->
          has_usable_take resolve path_exists shot = false) /\
       (forall value, In value (clips manifest) ->
          path_exists (resolve value) = false)) /\
  ((exists shot, In shot (shots manifest) /\
                 has_usable_take resolve path_exists shot = true) ->
   exists clip_paths,
     select_or_fail resolve path_exists manifest max_clips = Ok clip_paths /\
     clip_paths <> []) /\
  (forall msg, select_or_fail resolve path_exists manifest max_clips = Raised msg ->
     msg = "No successful clips found in manifest."%string).
Proof.
  pose proof (select_clip_paths_nil manifest max_clips) as Hnil.
  rewrite clips_from_shots_nil, existing_raw_clips_nil in Hnil.
  unfold select_or_fail.
  destruct (_select_clip_paths resolve path_exists manifest max_clips)
    as [|c r] eqn:E.
  - split; [|split].
    + split; [intros _; apply Hnil; reflexivity | reflexivity].
    + intros (shot & Hin & Hus).
      destruct Hnil as [Hnil _]. destruct (Hnil eq_refl) as [Hno _].
      rewrite (Hno shot Hin) in Hus. discriminate.
    + intros msg H. congruence.
  - split; [|split].
    + split; [discriminate|]. intro H. apply Hnil in H. discriminate.
    + intros _. exists (c :: r). split; [reflexivity | discriminate].
    + intros msg H. discriminate.
Qed.

End ClipSelection.

(** C7, counterexample: a manifest without shots whose [clips] list names an
    existing file. No shot has a usable take, yet no error is raised. *)
Lemma raw_clips_avoid_the_error :
  ~ fails_exactly_without_usable_take same_path every_file
      clips_only_manifest None.
Proof.
  unfold fails_exactly_without_usable_take. intros [_ H].
  assert (Hno : forall shot, In shot (shots clips_only_manifest) ->
                  has_usable_take same_path every_file shot = false)
    by (intros shot []).
  specialize (H Hno). vm_compute in H. discriminate.
Qed.

Lemma fails_without_any_clip_witness :
  (exists shot, In shot (shots one_shot_manifest) /\
                has_usable_take same_path every_file shot = true) /\
  exists clip_paths,
    select_or_fail same_path every_file one_shot_manifest (Some 0%Z)
      = Ok clip_paths /\
    clip_paths <> [].
Proof.
  assert (H : exists shot, In shot (shots one_shot_manifest) /\
                has_usable_take same_path every_file shot = true).
  { exists {| shot_id := "shot_001"; takes := three_takes |}.
    split; [left; reflexivity | reflexivity]. }
  split; [exact H|].
  exact (proj1 (proj2 (fails_without_any_clip same_path every_file
                         one_shot_manifest (Some 0%Z))) H).
Defined.


End AssembleFacts.

(** ** The planner sweep ([_build_shots]) *)

Module PlanFacts.

Import Num NumFacts Plan SnapFacts.
Local Open Scope Q_scope.

(** *** The beat interval is positive *)

Lemma beat_interval_pos (beats : list Q) (fallback_bpm : Q) :
  0 < _beat_interval beats fallback_bpm.
Proof.
  unfold _beat_interval.
  assert (Hfb : 0 < 60 / Qmax 40 (Qmin 220
                   (if Qeq_bool fallback_bpm 0 then 120 else fallback_bpm))).
  { apply Qlt_shift_div_l; qminmax; lra. }
  destruct (2 <=? List.length beats)%nat; [|exact Hfb].
  destruct (positive_only (intervals beats)) as [|v r] eqn:E; [exact Hfb|].
  apply median_pos; [discriminate|].
  intros x Hx. rewrite <- E in Hx. apply (positive_only_pos _ _ Hx).
Qed.

(** *** One step of the sweep *)

Lemma beats_per_shot_cases (k : ShotKind) :
  beats_per_shot k = 4 \/ beats_per_shot k = 6 \/ beats_per_shot k = 8.
Proof. destruct k; simpl; auto. Qed.

Lemma last_default (l : list Q) (d d' : Q) : l <> [] -> last l d = last l d'.
Proof.
  induction l as [|a l IH]; [congruence|]. intros _.
  destruct l as [|b l]; [reflexivity|].
  change (last (b :: l) d = last (b :: l) d'). apply IH. discriminate.
Qed.

(** The forward snap either reaches the target or falls back to the last
    beat. *)
Lemma snap_forward_cases (target : Q) (beats : list Q) :
  beats <> [] ->
  target <= _snap_forward target beats \/
  _snap_forward target beats = last beats 0.
Proof.
  intro Hne. unfold _snap_forward.
  destruct beats as [|a l]; [congruence|].
  destruct (first_at_or_after target (a :: l)) as [r|] eqn:E.
  - left. destruct (first_at_or_after_Some _ _ _ E) as (_ & _ & _ & H & _).
    exact H.
  - right. apply last_default. discriminate.
Qed.

Lemma shot_end_unfold (D m M b : Q) (beats : list Q) (c : Q) (k : ShotKind) :
  shot_end D m M b beats c k =
  shot_end_from D m M b
    (snapped beats (c + Qmax m (Qmin M (beats_per_shot k * b)))) c k.
Proof. unfold shot_end, shot_end_from, snapped. destruct beats; reflexivity. Qed.

Ltac shot_end_cases :=
  unfold shot_end_from; cbv zeta;
  repeat match goal with
  | |- context [if Qlt_bool ?x ?y then _ else _] =>
      let E := fresh "E" in destruct (Qlt_bool x y) eqn:E
  | |- context [if Qle_bool ?x ?y then _ else _] =>
      let E := fresh "E" in destruct (Qle_bool x y) eqn:E
  end;
  qbool.

Lemma shot_end_from_le (D m M b sn c : Q) (k : ShotKind) :
  shot_end_from D m M b sn c k <= D.
Proof. shot_end_cases; qminmax; lra. Qed.

Lemma shot_end_from_gt (D m M b sn c : Q) (k : ShotKind) :
  0 < b -> c < D -> c < shot_end_from D m M b sn c k.
Proof. intros Hb Hc. shot_end_cases; qminmax; lra. Qed.

Lemma shot_end_from_upper (D m M b sn c : Q) (k : ShotKind) :
  m <= M -> 0 <= M -> 0 < b -> c < D ->
  shot_end_from D m M b sn c k - c <= M + b.
Proof. intros Hm HM Hb Hc. shot_end_cases; qminmax; lra. Qed.

Lemma shot_end_from_lower (D m M b sn c : Q) (k : ShotKind) :
  m <= M -> 0 < b -> c < D ->
  c + m <= shot_end_from D m M b sn c k \/ shot_end_from D m M b sn c k == D.
Proof.
  intros Hm Hb Hc.
  shot_end_cases; qminmax; first [left; lra | right; lra].
Qed.

Lemma min_step_facts (m M b : Q) :
  0 < b ->
  0 < min_step m M b /\ min_step m M b <= 1 # 10 /\ min_step m M b <= b /\
  (M <= 0 \/ min_step m M b <= M) /\ (m <= 0 \/ min_step m M b <= m).
Proof.
  intro Hb. unfold min_step, positive_or_tenth.
  destruct (Qlt_bool 0 M) eqn:EM; destruct (Qlt_bool 0 m) eqn:Em; qbool;
    qminmax; repeat split; try lra;
    first [left; lra | right; lra].
Qed.

(** A step advances by at least [d], or it lands on a snapped end that lies
    after the cursor and before the target. *)
Lemma shot_end_from_progress (D m M b sn c d : Q) (k : ShotKind) :
  0 < d -> d <= 1 # 10 -> d <= b ->
  (M <= 0 \/ d <= M) -> (m <= 0 \/ d <= m) ->
  c < D - (1 # 10) ->
  d <= shot_end_from D m M b sn c k - c \/
  (shot_end_from D m M b sn c k == sn /\ c < sn /\
   sn < c + Qmax m (Qmin M (beats_per_shot k * b))).
Proof.
  intros Hd Hd1 Hdb HM Hm Hc.
  destruct (Qlt_le_dec sn (c + Qmax m (Qmin M (beats_per_shot k * b))))
    as [Hsn | Hsn];
    destruct (beats_per_shot_cases k) as [Hk | [Hk | Hk]]; rewrite Hk in *;
    destruct HM as [HM | HM]; destruct Hm as [Hm | Hm];
    shot_end_cases; qminmax;
    first [left; lra | right; split; [lra | split; lra]].
Qed.

Section Sweep.

Context {R : RandomSource}.

Variables (D b : Q) (beats : list Q) (sections : list SectionRec) (args : Args).
Hypothesis Hb : 0 < b.

Let m := min_shot_seconds args.
Let M := max_shot_seconds args.
Let d := min_step m M b.

(** A step advances by at least [min_step], or it moves the cursor from
    before the last beat onto the last beat. *)
Lemma shot_end_progress (c : Q) (k : ShotKind) :
  c < D - (1 # 10) ->
  let e := shot_end D m M b beats c k in
  c < e /\ e <= D /\
  (d <= e - c /\ (before_last_beat beats e <= before_last_beat beats c)%nat \/
   before_last_beat beats c = 1%nat /\ before_last_beat beats e = 0%nat).
Proof.
  intros Hc e. unfold e. rewrite shot_end_unfold.
  set (target := c + Qmax m (Qmin M (beats_per_shot k * b))).
  set (sn := snapped beats target).
  pose proof (shot_end_from_gt D m M b sn c k Hb) as Hgt.
  pose proof (shot_end_from_le D m M b sn c k) as Hle.
  destruct (min_step_facts m M b Hb) as (H0 & H1 & H2 & H3 & H4).
  fold d in H0, H1, H2, H3, H4.
  pose proof (shot_end_from_progress D m M b sn c d k H0 H1 H2 H3 H4 Hc) as Hp.
  fold target in Hp.
  set (e' := shot_end_from D m M b sn c k) in *.
  assert (Hce : c < e') by (apply Hgt; lra).
  split; [exact Hce|]. split; [exact Hle|].
  assert (Hmono : (before_last_beat beats e' <= before_last_beat beats c)%nat).
  { unfold before_last_beat. destruct beats as [|a l]; [lia|].
    destruct (Qlt_bool e' (last (a :: l) 0)) eqn:E1;
      destruct (Qlt_bool c (last (a :: l) 0)) eqn:E2; qbool; try lia.
    exfalso. lra. }
  destruct Hp as [Hp | (Heq & Hlt & Hst)]; [left; split; assumption|].
  destruct beats as [|a l] eqn:Ebeats.
  - exfalso. unfold sn, snapped in Hst. lra.
  - assert (Hne : a :: l <> []) by discriminate.
    destruct (snap_forward_cases target (a :: l) Hne) as [Hge | Hlast].
    + exfalso. unfold sn, snapped in Hst. lra.
    + right. unfold before_last_beat.
      assert (Hsn : sn = last (a :: l) 0) by exact Hlast.
      rewrite <- Hsn.
      assert (E1 : Qlt_bool c sn = true) by (apply Qlt_bool_iff; exact Hlt).
      assert (E2 : Qlt_bool e' sn = false) by (apply Qlt_bool_false; lra).
      rewrite E1, E2. split; reflexivity.
Qed.

(** The sweep ends within any budget above the remaining distance counted
    in steps of [min_step], plus one for the step onto the last beat. *)
Lemma build_loop_terminates (fuel : nat) :
  forall (n : nat) (c : Q) (idx : nat) (g : rng),
    D - c <= inject_Z (Z.of_nat n) * d ->
    (n + before_last_beat beats c < fuel)%nat ->
    exists shots, build_loop fuel D b beats sections args c idx g = Ok shots.
Proof.
  induction fuel as [|fuel IH]; intros n c idx g Hdist Hfuel; [lia|].
  simpl.
  destruct (Qlt_bool c (D - (1 # 10))) eqn:Ec; [|eexists; reflexivity].
  qbool.
  set (sec := _find_section_at c sections).
  set (lbl := match sec_label sec with Some l => l | None => "section"%string end).
  set (en := match sec_energy sec with Some e => e | None => "medium"%string end).
  set (k := _shot_type lbl en idx).
  destruct (_build_prompt g (theme args) (style_preset args) lbl (brand args))
    as [prompt g'].
  destruct (shot_end_progress c k Ec) as (Hce & HeD & Hp).
  fold m M in Hp, Hce, HeD |- *.
  set (e := shot_end D m M b beats c k) in *.
  destruct (min_step_facts m M b Hb) as (H0 & _).
  fold d in H0.
  assert (Hn : (1 <= n)%nat).
  { destruct n as [|n]; [|lia]. simpl in Hdist. exfalso.
    assert (inject_Z 0 * d == 0) by (unfold inject_Z; lra). lra. }
  assert (Hex : exists n', D - e <= inject_Z (Z.of_nat n') * d /\
                           (n' + before_last_beat beats e < fuel)%nat).
  { destruct Hp as [[Hstep Hflag] | [Hf1 Hf0]].
    - exists (n - 1)%nat. split; [|lia].
      replace (Z.of_nat (n - 1)) with (Z.of_nat n - 1)%Z by lia.
      unfold Zminus. rewrite inject_Z_plus.
      change (inject_Z (-1)%Z) with (-(1)).
      setoid_replace ((inject_Z (Z.of_nat n) + - (1)) * d)
        with (inject_Z (Z.of_nat n) * d - d) by ring.
      set (P := inject_Z (Z.of_nat n) * d) in *. clearbody P e d. lra.
    - exists n. split; [lra | lia]. }
  destruct Hex as (n' & Hd' & Hf').
  destruct (IH n' e (S idx) g' Hd' Hf') as (rest & Hrest).
  rewrite Hrest. eexists; reflexivity.
Qed.

Lemma build_loop_sweep (fuel : nat) :
  forall (c : Q) (idx : nat) (g : rng) (shots : list Shot),
    build_loop fuel D b beats sections args c idx g = Ok shots ->
    exists ce, sweep_of (loop_step D m M b beats) c shots ce /\ D - (1 # 10) <= ce.
Proof.
  induction fuel as [|fuel IH]; intros c idx g shots H; [discriminate|].
  simpl in H.
  destruct (Qlt_bool c (D - (1 # 10))) eqn:Ec.
  - destruct (_build_prompt g (theme args) (style_preset args) _ (brand args))
      as [prompt g'].
    match type of H with
    | match build_loop _ _ _ _ _ _ ?e ?i ?g2 with _ => _ end = _ =>
        destruct (build_loop fuel D b beats sections args e i g2) as [rest| |] eqn:E;
        try discriminate;
        destruct (IH e i g2 rest E) as (ce & Hsw & Hce)
    end.
    injection H as <-. exists ce. split; [|exact Hce].
    apply Qlt_bool_iff in Ec.
    eapply sweep_shot; [ | | | | exact Hsw]; try reflexivity.
    split; [exact Ec|]. eexists. reflexivity.
  - injection H as <-. apply Qlt_bool_false in Ec.
    exists c. split; [constructor | exact Ec].
Qed.

Lemma loop_step_bounds (c e : Q) :
  loop_step D m M b beats c e -> c < e /\ e <= D.
Proof.
  intros (Hc & k & ->).
  destruct (shot_end_progress c k Hc) as (H1 & H2 & _). split; assumption.
Qed.

Lemma sweep_end_le (c : Q) (shots : list Shot) (ce : Q) :
  sweep_of (loop_step D m M b beats) c shots ce -> c <= D -> c <= ce /\ ce <= D.
Proof.
  induction 1 as [c | c e s rest ce Hst _ _ _ _ IH]; intro Hc; [lra|].
  destruct (loop_step_bounds _ _ Hst) as [H1 H2]. specialize (IH H2). lra.
Qed.

End Sweep.

Lemma sweep_linked (step : Q -> Q -> Prop) (c : Q) (shots : list Shot) (ce : Q) :
  sweep_of step c shots ce -> linked (round4 c) shots (round4 ce).
Proof.
  induction 1 as [c | c e s rest ce _ Hs He _ _ IH]; [constructor|].
  constructor; [exact Hs | rewrite He; exact IH].
Qed.

Lemma merge_tail_linked (min_shot : Q) (shots : list Shot) :
  forall a z, linked a shots z -> linked a (merge_tail min_shot shots) z.
Proof.
  induction shots as [|s1 l IH]; intros a z H; [exact H|].
  destruct l as [|s2 l]; [exact H|].
  destruct l as [|s3 l].
  - simpl. destruct (Qlt_bool (duration_sec s2) min_shot); [|exact H].
    inversion H as [|? ? ? ? Hs1 H2]; subst.
    inversion H2 as [|? ? ? ? Hs2 H3]; subst.
    inversion H3; subst.
    constructor; [reflexivity | simpl; constructor].
  - inversion H as [|? ? ? ? Hs1 H2]; subst.
    change (merge_tail min_shot (s1 :: s2 :: s3 :: l))
      with (s1 :: merge_tail min_shot (s2 :: s3 :: l)).
    constructor; [reflexivity|]. apply IH. exact H2.
Qed.

Lemma merge_tail_nil (min_shot : Q) (shots : list Shot) :
  merge_tail min_shot shots = [] <-> shots = [].
Proof.
  destruct shots as [|s1 [|s2 [|s3 l]]]; simpl; try tauto;
    try destruct (Qlt_bool _ _); split; discriminate.
Qed.

Lemma linked_head (a z : Q) (shots : list Shot) (s : Shot) :
  linked a shots z -> hd_error shots = Some s -> start_sec s = a.
Proof.
  intros H Hh. inversion H; subst; simpl in Hh; [discriminate|].
  injection Hh as <-. reflexivity.
Qed.

Lemma linked_adjacent (shots : list Shot) :
  forall a z i s t,
    linked a shots z ->
    nth_error shots i = Some s -> nth_error shots (S i) = Some t ->
    end_sec s = start_sec t.
Proof.
  induction shots as [|x l IH]; intros a z i s t H Hs Ht.
  - destruct i; discriminate.
  - inversion H as [|? ? ? ? Hx Hl]; subst.
    destruct i as [|i].
    + simpl in Hs, Ht. injection Hs as <-.
      destruct l as [|y l]; [discriminate|]. simpl in Ht. injection Ht as <-.
      inversion Hl; subst. symmetry. assumption.
    + simpl in Hs. change (nth_error l (S i) = Some t) in Ht.
      exact (IH _ _ _ _ _ Hl Hs Ht).
Qed.

Lemma linked_last (shots : list Shot) :
  forall a z s, linked a shots z -> last_shot shots = Some s -> end_sec s = z.
Proof.
  unfold last_shot.
  induction shots as [|x l IH]; intros a z s H Hs; [discriminate|].
  inversion H as [|? ? ? ? Hx Hl]; subst.
  destruct l as [|y l].
  - simpl in Hs. injection Hs as <-. inversion Hl; subst. reflexivity.
  - apply (IH _ _ _ Hl).
    simpl in Hs |- *. rewrite Nat.sub_0_r in *. exact Hs.
Qed.

(** *** The whole planner *)

Section Planner.

Context {R : RandomSource}.

(** A larger budget does not change the result of the loop. *)
Lemma build_loop_more_fuel (D b : Q) (beats : list Q)
    (sections : list SectionRec) (args : Args) (fuel : nat) :
  forall (fuel' : nat) (c : Q) (idx : nat) (g : rng) (shots : list Shot),
    (fuel <= fuel')%nat ->
    build_loop fuel D b beats sections args c idx g = Ok shots ->
    build_loop fuel' D b beats sections args c idx g = Ok shots.
Proof.
  induction fuel as [|fuel IH]; intros fuel' c idx g shots Hle H; [discriminate|].
  destruct fuel' as [|fuel']; [lia|].
  simpl in H |- *.
  destruct (Qlt_bool c (D - (1 # 10))); [|exact H].
  destruct (_build_prompt g (theme args) (style_preset args) _ (brand args))
    as [prompt g'].
  match type of H with
  | match build_loop _ _ _ _ _ _ ?e ?i ?g2 with _ => _ end = _ =>
      destruct (build_loop fuel D b beats sections args e i g2) as [rest| |] eqn:E;
      try discriminate;
      rewrite (IH fuel' e i g2 rest ltac:(lia) E)
  end.
  exact H.
Qed.

(** The loop ends within the budget [analysis_fuel]. *)
Lemma sweep_runs (a : Analysis) (args : Args) :
  0 < analysis_duration a ->
  exists raw, sweep_fuel (analysis_fuel a args) a args = Ok raw.
Proof.
  intro HD. unfold sweep_fuel, analysis_fuel, plan_fuel.
  pose proof (beat_interval_pos (analysis_beats a) (analysis_bpm a)) as Hb.
  fold (analysis_beat_sec a) in Hb.
  set (D := analysis_duration a) in *.
  set (b := analysis_beat_sec a) in *.
  set (d := min_step (min_shot_seconds args) (max_shot_seconds args) b).
  destruct (min_step_facts (min_shot_seconds args) (max_shot_seconds args) b Hb)
    as (Hd & _).
  fold d in Hd.
  apply (build_loop_terminates D b (analysis_beats a) (sections a) args Hb _
           (Z.to_nat (Qceiling (D / d)))).
  - fold d.
    assert (Hc : D / d <= inject_Z (Qceiling (D / d))) by apply Qle_ceiling.
    assert (Hz : inject_Z (Qceiling (D / d))
                 <= inject_Z (Z.of_nat (Z.to_nat (Qceiling (D / d))))).
    { rewrite <- Zle_Qle. lia. }
    assert (Hdiv : D == (D / d) * d) by (field; lra).
    set (q := D / d) in *.
    set (N := inject_Z (Z.of_nat (Z.to_nat (Qceiling q)))) in *.
    assert (Hmul : q * d <= N * d).
    { apply Qmult_le_compat_r; lra. }
    lra.
  - assert (Hf : (before_last_beat (analysis_beats a) 0 <= 1)%nat).
    { unfold before_last_beat. destruct (analysis_beats a); [lia|].
      destruct (Qlt_bool _ _); lia. }
    lia.
Qed.

(** [_build_shots] returns a shot list for every positive duration: the
    tail merge of the shots of the loop. *)
Lemma build_shots_runs (a : Analysis) (args : Args) :
  0 < analysis_duration a ->
  exists raw,
    sweep_fuel (analysis_fuel a args) a args = Ok raw /\
    _build_shots a args = Ok (merge_tail (min_shot_seconds args) raw).
Proof.
  intro HD. destruct (sweep_runs a args HD) as (raw & Hraw).
  exists raw. split; [exact Hraw|].
  unfold _build_shots, _build_shots_fuel.
  assert (E : Qle_bool (analysis_duration a) 0 = false)
    by (apply Qle_bool_false; exact HD).
  rewrite E, Hraw. reflexivity.
Qed.

(** The result does not depend on the budget, once it suffices. *)
Lemma build_shots_fuel_irrelevant (a : Analysis) (args : Args)
    (fuel : nat) (shots : list Shot) :
  _build_shots_fuel fuel a args = Ok shots ->
  (fuel <= analysis_fuel a args)%nat \/ (analysis_fuel a args <= fuel)%nat ->
  _build_shots a args = Ok shots.
Proof.
  unfold _build_shots, _build_shots_fuel.
  destruct (Qle_bool (analysis_duration a) 0) eqn:ED; [discriminate|].
  apply Qle_bool_false in ED.
  destruct (sweep_runs a args ED) as (raw & Hraw).
  intros H Hcmp. rewrite Hraw.
  destruct (sweep_fuel fuel a args) as [raw'| |] eqn:E; try discriminate.
  injection H as <-.
  unfold sweep_fuel in *.
  destruct Hcmp as [Hle | Hle].
  - rewrite (build_loop_more_fuel _ _ _ _ _ _ _ _ _ _ _ Hle E) in Hraw.
    injection Hraw as <-. reflexivity.
  - rewrite (build_loop_more_fuel _ _ _ _ _ _ _ _ _ _ _ Hle Hraw) in E.
    injection E as <-. reflexivity.
Qed.

(** The shots of the loop form a sweep from 0 to a cursor within a tenth of
    a second of the duration. *)
Lemma sweep_shape (a : Analysis) (args : Args) (raw : list Shot) :
  0 < analysis_duration a ->
  sweep_fuel (analysis_fuel a args) a args = Ok raw ->
  exists ce,
    sweep_of (loop_step (analysis_duration a) (min_shot_seconds args)
                        (max_shot_seconds args) (analysis_beat_sec a)
                        (analysis_beats a)) 0 raw ce /\
    analysis_duration a - (1 # 10) <= ce /\ 0 <= ce /\ ce <= analysis_duration a.
Proof.
  intros HD Hraw. unfold sweep_fuel in Hraw.
  pose proof (beat_interval_pos (analysis_beats a) (analysis_bpm a)) as Hb.
  fold (analysis_beat_sec a) in Hb.
  destruct (build_loop_sweep _ _ _ _ _ _ _ _ _ _ Hraw) as (ce & Hsw & Hce).
  exists ce. split; [exact Hsw|]. split; [exact Hce|].
  eapply sweep_end_le; [exact Hb | exact Hsw | lra].
Qed.

(** C1, amended: for every analysis with a positive duration D and every
    parameter set the planner returns a shot list; the list is empty exactly
    when D is at most 0.1 seconds; otherwise the first shot starts at 0,
    every shot ends exactly where the next one starts, and the last shot
    ends between D - 0.1 and D, up to the rounding of the recorded value to
    four decimals (0.00005). *)
Theorem plan_contiguous_up_to_last_tenth (a : Analysis) (args : Args) :
  0 < analysis_duration a ->
  exists shots,
    _build_shots a args = Ok shots /\
    (shots = [] <-> analysis_duration a <= 1 # 10) /\
    (forall s, hd_error shots = Some s -> start_sec s == 0) /\
    (forall i s t,
       nth_error shots i = Some s -> nth_error shots (S i) = Some t ->
       end_sec s = start_sec t) /\
    (forall s, last_shot shots = Some s ->
       analysis_duration a - (1 # 10) - (1 # 20000) <= end_sec s /\
       end_sec s <= analysis_duration a + (1 # 20000)).
Proof.
  intro HD.
  destruct (build_shots_runs a args HD) as (raw & Hraw & Hrun).
  destruct (sweep_shape a args raw HD Hraw) as (ce & Hsw & Hce & Hce0 & HceD).
  exists (merge_tail (min_shot_seconds args) raw).
  split; [exact Hrun|].
  pose proof (merge_tail_linked (min_shot_seconds args) raw _ _
                (sweep_linked _ _ _ _ Hsw)) as Hlk.
  split; [|split; [|split]].
  - rewrite merge_tail_nil. split.
    + intros ->. inversion Hsw; subst. lra.
    + intro Hshort. destruct raw as [|s rest]; [reflexivity|].
      inversion Hsw as [|? ? ? ? ? [Hc _]]; subst. lra.
  - intros s Hs. rewrite (linked_head _ _ _ _ Hlk Hs). reflexivity.
  - intros i s t Hs Ht. exact (linked_adjacent _ _ _ _ _ _ Hlk Hs Ht).
  - intros s Hs. rewrite (linked_last _ _ _ _ Hlk Hs).
    pose proof (round4_err ce). lra.
Qed.

Lemma takes_for_kind_same_parameters (k : ShotKind) (p1 p2 : Args) :
  same_parameters p1 p2 -> _takes_for_kind k p1 = _takes_for_kind k p2.
Proof.
  intros (_ & _ & _ & _ & _ & Hh & Hs & Hf & _).
  destruct k; simpl; congruence.
Qed.

(** The loop reads the arguments only through the creative parameters. *)
Lemma build_loop_same_parameters (D b : Q) (beats : list Q)
    (sections : list SectionRec) (p1 p2 : Args) :
  same_parameters p1 p2 ->
  forall (fuel : nat) (c : Q) (idx : nat) (g : rng),
    build_loop fuel D b beats sections p1 c idx g
    = build_loop fuel D b beats sections p2 c idx g.
Proof.
  intros Hp fuel.
  pose proof Hp as (Ht & Hbr & Hst & Hm & HM & _).
  induction fuel as [|fuel IH]; intros c idx g; [reflexivity|].
  simpl. rewrite Ht, Hbr, Hst, Hm, HM.
  destruct (Qlt_bool c (D - (1 # 10))); [|reflexivity].
  destruct (_build_prompt g (theme p2) (style_preset p2) _ (brand p2))
    as [prompt g'].
  rewrite IH, (takes_for_kind_same_parameters _ p1 p2 Hp). reflexivity.
Qed.

(** C3: the shot list is a function of the analysis content, the creative
    parameters and the seed: two runs on analyses that agree on the keys the
    planner reads, with arguments that agree on the creative parameters and
    the seed, give the same outcome, and for a positive duration that
    outcome is one and the same shot list, equal in every field. This holds
    for every generator behind the [random.Random] interface. *)
Theorem plan_deterministic (a1 a2 : Analysis) (p1 p2 : Args) :
  same_content a1 a2 -> same_parameters p1 p2 ->
  _build_shots a1 p1 = _build_shots a2 p2 /\
  (0 < analysis_duration a1 ->
   exists shots, _build_shots a1 p1 = Ok shots /\ _build_shots a2 p2 = Ok shots).
Proof.
  intros Ha Hp.
  assert (Heq : _build_shots a1 p1 = _build_shots a2 p2).
  { unfold _build_shots, _build_shots_fuel, sweep_fuel, analysis_fuel,
      analysis_beat_sec, analysis_beats, analysis_bpm, analysis_duration.
    rewrite (build_loop_same_parameters _ _ _ _ p1 p2 Hp).
    destruct Ha as (Hd & Hbeats & Hbpm & Hsec).
    destruct Hp as (_ & _ & _ & Hm & HM & _ & _ & _ & Hseed).
    rewrite Hd, Hbeats, Hbpm, Hsec, Hm, HM, Hseed. reflexivity. }
  split; [exact Heq|].
  intro HD. destruct (build_shots_runs a1 p1 HD) as (raw & _ & Hrun).
  eexists. split; [exact Hrun|]. rewrite <- Heq. exact Hrun.
Qed.

(** *** Shot durations *)

Lemma loop_step_facts (D m M b : Q) (beats : list Q) (c e : Q) :
  0 < b -> m <= M -> 0 <= M ->
  loop_step D m M b beats c e ->
  c < e /\ e <= D /\ e - c <= M + b /\ (c + m <= e \/ e == D).
Proof.
  intros Hb Hm HM (Hc & k & ->). rewrite shot_end_unfold.
  assert (HcD : c < D) by lra.
  split; [apply shot_end_from_gt; assumption|].
  split; [apply shot_end_from_le|].
  split; [apply shot_end_from_upper; assumption|].
  apply shot_end_from_lower; assumption.
Qed.

Lemma sweep_app (step : Q -> Q -> Prop) (l1 l2 : list Shot) :
  forall c ce,
    sweep_of step c (l1 ++ l2) ce ->
    exists cm, sweep_of step c l1 cm /\ sweep_of step cm l2 ce.
Proof.
  induction l1 as [|s l1 IH]; intros c ce H.
  - exists c. split; [constructor | exact H].
  - inversion H as [|? e ? ? ? Hst Hs He Hd Hrest]; subst.
    destruct (IH _ _ Hrest) as (cm & H1 & H2).
    exists cm. split; [|exact H2].
    econstructor; eassumption.
Qed.

Lemma merge_tail_spec (m : Q) (raw : list Shot) :
  (tail_merged m raw = false /\ merge_tail m raw = raw) \/
  (exists init prev tail,
     raw = init ++ [prev; tail] /\
     duration_sec tail < m /\
     tail_merged m raw = true /\
     merge_tail m raw = init ++ [merge_into prev tail]).
Proof.
  induction raw as [|s1 l IH]; [left; split; reflexivity|].
  destruct l as [|s2 l]; [left; split; reflexivity|].
  destruct l as [|s3 l].
  - simpl. destruct (Qlt_bool (duration_sec s2) m) eqn:E.
    + right. exists [], s1, s2. apply Qlt_bool_iff in E. auto.
    + left. auto.
  - change (tail_merged m (s1 :: s2 :: s3 :: l))
      with (tail_merged m (s2 :: s3 :: l)).
    change (merge_tail m (s1 :: s2 :: s3 :: l))
      with (s1 :: merge_tail m (s2 :: s3 :: l)).
    destruct IH as [[Hf Hm] | (init & prev & tail & Hraw & Hd & Ht & Hm)].
    + left. split; [exact Hf | rewrite Hm; reflexivity].
    + right. exists (s1 :: init), prev, tail.
      split; [simpl; rewrite <- Hraw; reflexivity|].
      split; [exact Hd|]. split; [exact Ht|].
      rewrite Hm. reflexivity.
Qed.

Lemma tail_merged_last (m : Q) (l : list Shot) (x s : Shot) :
  tail_merged m (x :: l ++ [s]) = Qlt_bool (duration_sec s) m.
Proof.
  revert x. induction l as [|y l IH]; intro x; [reflexivity|].
  destruct l as [|z l]; [reflexivity|].
  change (tail_merged m (x :: (y :: z :: l) ++ [s]))
    with (tail_merged m (y :: (z :: l) ++ [s])).
  apply IH.
Qed.

Lemma last_shot_app (l : list Shot) (s : Shot) : last_shot (l ++ [s]) = Some s.
Proof.
  unfold last_shot. rewrite length_app. simpl.
  replace (List.length l + 1 - 1)%nat with (List.length l) by lia.
  rewrite nth_error_app2 by lia. rewrite Nat.sub_diag. reflexivity.
Qed.

Section Durations.

Variables (D m M b : Q) (beats : list Q).
Hypothesis Hb : 0 < b.
Hypothesis Hm : m <= M.
Hypothesis HM : 0 <= M.

(** Every shot of the loop is at most the maximum plus one beat long. *)
Lemma sweep_upper (raw : list Shot) :
  forall c ce s,
    sweep_of (loop_step D m M b beats) c raw ce -> In s raw ->
    duration_sec s <= M + b + (1 # 20000).
Proof.
  induction raw as [|x l IH]; intros c ce s H Hin; [destruct Hin|].
  inversion H as [|? e ? ? ? Hst Hs He Hd Hrest]; subst.
  destruct Hin as [<- | Hin]; [|exact (IH _ _ _ Hrest Hin)].
  destruct (loop_step_facts _ _ _ _ _ _ _ Hb Hm HM Hst) as (_ & _ & Hup & _).
  rewrite Hd. pose proof (round4_err (e - c)). lra.
Qed.

(** A shot of the loop that is followed by another one starts at a cursor
    [c] and ends at a cursor [e] with [c + m <= e]; the next shot starts at
    [e]. *)
Lemma sweep_inner (l1 l2 : list Shot) (s s' : Shot) :
  forall c0 ce,
    sweep_of (loop_step D m M b beats) c0 (l1 ++ s :: s' :: l2) ce ->
    exists c e e',
      start_sec s = round4 c /\ end_sec s = round4 e /\
      duration_sec s = round4 (e - c) /\
      c + m <= e /\ e - c <= M + b /\
      end_sec s' = round4 e' /\ duration_sec s' = round4 (e' - e) /\
      e < e' /\ sweep_of (loop_step D m M b beats) e' l2 ce.
Proof.
  intros c0 ce H. destruct (sweep_app _ _ _ _ _ H) as (c & _ & H2).
  inversion H2 as [|? e ? ? ? Hst Hs He Hd Hrest]; subst.
  inversion Hrest as [|? e' ? ? ? Hst' Hs' He' Hd' Hrest']; subst.
  destruct (loop_step_facts _ _ _ _ _ _ _ Hb Hm HM Hst) as (_ & _ & Hup & Hlo).
  destruct (loop_step_facts _ _ _ _ _ _ _ Hb Hm HM Hst') as (Hlt & _ & _ & _).
  destruct Hst' as (Hc' & _).
  exists c, e, e'. repeat split; try assumption.
  destruct Hlo as [Hlo | Hlo]; [exact Hlo | lra].
Qed.

Lemma sweep_inner_lower (l1 l2 : list Shot) (s s' : Shot) (c0 ce : Q) :
  sweep_of (loop_step D m M b beats) c0 (l1 ++ s :: s' :: l2) ce ->
  m - (1 # 20000) <= duration_sec s.
Proof.
  intro H. destruct (sweep_inner _ _ _ _ _ _ H)
    as (c & e & e' & _ & _ & Hd & Hlo & _).
  rewrite Hd. pose proof (round4_err (e - c)). lra.
Qed.

(** The shot produced by the tail merge. *)
Lemma sweep_merged (init : list Shot) (prev tail : Shot) (c0 ce : Q) :
  sweep_of (loop_step D m M b beats) c0 (init ++ [prev; tail]) ce ->
  duration_sec tail < m ->
  m - (3 # 20000) <= duration_sec (merge_into prev tail) /\
  duration_sec (merge_into prev tail) < M + b + m + (1 # 5000).
Proof.
  intros H Htail. destruct (sweep_inner _ _ _ _ _ _ H)
    as (c & e & e' & Hs & He & Hd & Hlo & Hup & He' & Hd' & Hlt & _).
  simpl. rewrite He', Hs. rewrite Hd' in Htail.
  pose proof (round4_err (round4 e' - round4 c)).
  pose proof (round4_err e'). pose proof (round4_err c).
  pose proof (round4_err (e' - e)).
  split; lra.
Qed.

(** The bounds on the final list. *)
Lemma final_durations (raw : list Shot) (c0 ce : Q) :
  sweep_of (loop_step D m M b beats) c0 raw ce ->
  (forall s, In s (merge_tail m raw) ->
     m - (3 # 20000) <= duration_sec s \/ raw = [s]) /\
  (forall s, In s (merge_tail m raw) ->
     duration_sec s <= M + b + (1 # 20000) \/
     (tail_merged m raw = true /\ last_shot (merge_tail m raw) = Some s /\
      duration_sec s < M + b + m + (1 # 5000))).
Proof.
  intro H.
  destruct (merge_tail_spec m raw)
    as [[Hf Hmt] | (init & prev & tail & Hraw & Hd & Ht & Hmt)].
  - rewrite Hmt. split.
    + intros s Hin. destruct (in_split _ _ Hin) as (l1 & l2 & Hsplit).
      destruct l2 as [|s' l2].
      * destruct l1 as [|x l1]; [right; exact Hsplit|].
        left. rewrite Hsplit in Hf.
        change ((x :: l1) ++ [s]) with (x :: l1 ++ [s]) in Hf.
        rewrite tail_merged_last in Hf. apply Qlt_bool_false in Hf. lra.
      * left. rewrite Hsplit in H.
        pose proof (sweep_inner_lower _ _ _ _ _ _ H). lra.
    + intros s Hin. left. exact (sweep_upper _ _ _ _ H Hin).
  - rewrite Hmt. rewrite Hraw in H.
    destruct (sweep_merged _ _ _ _ _ H Hd) as [Hlo Hup].
    split.
    + intros s Hin. left. apply in_app_or in Hin.
      destruct Hin as [Hin | [<- | []]]; [|exact Hlo].
      destruct (in_split _ _ Hin) as (l1 & l2 & ->).
      rewrite <- app_assoc in H. simpl in H.
      destruct l2 as [|s' l2]; simpl in H;
        pose proof (sweep_inner_lower _ _ _ _ _ _ H); lra.
    + intros s Hin. apply in_app_or in Hin.
      destruct Hin as [Hin | [<- | []]].
      * left. apply (sweep_upper _ _ _ _ H). apply in_or_app. now left.
      * right. split; [exact Ht|]. split; [apply last_shot_app | exact Hup].
Qed.

End Durations.

(** C4, amended: provided the minimum shot length is at most the maximum
    and the maximum is not negative, every shot of the final list lasts at
    least the minimum, except when the plan consists of the single shot the
    loop produced, which can be shorter because it is cut at the end of the
    track; and every shot lasts at most the maximum plus one beat interval,
    except the shot that results from the tail merge, which stays below the
    maximum plus one beat interval plus the minimum. The recorded durations
    are rounded to four decimals, so each bound holds up to 0.0002. *)
Theorem shot_durations_bounded (a : Analysis) (args : Args) :
  0 < analysis_duration a ->
  min_shot_seconds args <= max_shot_seconds args ->
  0 <= max_shot_seconds args ->
  exists raw,
    sweep_fuel (analysis_fuel a args) a args = Ok raw /\
    _build_shots a args = Ok (merge_tail (min_shot_seconds args) raw) /\
    (forall s, In s (merge_tail (min_shot_seconds args) raw) ->
       min_shot_seconds args - (3 # 20000) <= duration_sec s \/ raw = [s]) /\
    (forall s, In s (merge_tail (min_shot_seconds args) raw) ->
       duration_sec s
         <= max_shot_seconds args + analysis_beat_sec a + (1 # 20000) \/
       (tail_merged (min_shot_seconds args) raw = true /\
        last_shot (merge_tail (min_shot_seconds args) raw) = Some s /\
        duration_sec s
          < max_shot_seconds args + analysis_beat_sec a
            + min_shot_seconds args + (1 # 5000))).
Proof.
  intros HD Hm HM.
  destruct (build_shots_runs a args HD) as (raw & Hraw & Hrun).
  destruct (sweep_shape a args raw HD Hraw) as (ce & Hsw & _).
  exists raw. split; [exact Hraw|]. split; [exact Hrun|].
  pose proof (beat_interval_pos (analysis_beats a) (analysis_bpm a)) as Hb.
  fold (analysis_beat_sec a) in Hb.
  exact (final_durations _ _ _ _ _ Hb Hm HM _ _ _ Hsw).
Qed.

End Planner.

Import Examples.

(** C1, counterexample: a track of 8.0625 seconds without beats or sections,
    planned with the default arguments. The shots are 0-2, 2-5 and 5-8; the
    loop stops there since 8 is within 0.1 of the duration, and the last shot
    ends 0.0625 seconds before the end of the track. *)
Lemma plan_stops_short_of_duration :
  exists shots,
    _build_shots (plain_analysis (129 # 16)) default_args = Ok shots /\
    ~ contiguous_to_duration (129 # 16) shots.
Proof.
  eexists. split; [vm_compute; reflexivity|].
  intros (_ & _ & H).
  specialize (H _ eq_refl). vm_compute in H. apply H. reflexivity.
Qed.

Lemma plan_contiguous_up_to_last_tenth_witness :
  exists shots,
    _build_shots (plain_analysis (129 # 16)) default_args = Ok shots /\
    (shots = [] <-> analysis_duration (plain_analysis (129 # 16)) <= 1 # 10) /\
    (forall s, hd_error shots = Some s -> start_sec s == 0) /\
    (forall i s t,
       nth_error shots i = Some s -> nth_error shots (S i) = Some t ->
       end_sec s = start_sec t) /\
    (forall s, last_shot shots = Some s ->
       analysis_duration (plain_analysis (129 # 16)) - (1 # 10) - (1 # 20000)
         <= end_sec s /\
       end_sec s <= analysis_duration (plain_analysis (129 # 16)) + (1 # 20000)).
Proof.
  apply (plan_contiguous_up_to_last_tenth (plain_analysis (129 # 16)) default_args).
  reflexivity.
Defined.

Lemma plan_deterministic_witness :
  _build_shots (plain_analysis 10) default_args
    = _build_shots (annotated_analysis 10) args_with_output /\
  (0 < analysis_duration (plain_analysis 10) ->
   exists shots,
     _build_shots (plain_analysis 10) default_args = Ok shots /\
     _build_shots (annotated_analysis 10) args_with_output = Ok shots).
Proof.
  apply (plan_deterministic (plain_analysis 10) (annotated_analysis 10)
           default_args args_with_output).
  - repeat split.
  - repeat split.
Defined.

(** C4, counterexample. The beat interval is 0.5 seconds throughout. With
    the default arguments (minimum 2, maximum 4), a track of 1 second gives
    the single shot 0-1, shorter than the minimum although no tail merge took
    place; and a track of 6.9 seconds gives the shots 0-2, 2-5 and 5-6.9, the
    last of which is merged into the second, which then lasts 4.9 seconds,
    more than the maximum plus one beat interval. With minimum 4 and maximum
    2, a track of 10 seconds starts with the shot 0-2, shorter than the
    minimum and not the result of the merge. With minimum -2 and maximum -1,
    a track of 2 seconds starts with the shot 0-0.5, longer than the maximum
    plus one beat interval. *)
Lemma durations_escape_bounds :
  (exists raw final,
     sweep_fuel (analysis_fuel (plain_analysis 1) default_args)
                (plain_analysis 1) default_args = Ok raw /\
     _build_shots (plain_analysis 1) default_args = Ok final /\
     ~ durations_within_bounds 2 4 (analysis_beat_sec (plain_analysis 1))
         raw final) /\
  (exists raw final,
     sweep_fuel (analysis_fuel (plain_analysis (69 # 10)) default_args)
                (plain_analysis (69 # 10)) default_args = Ok raw /\
     _build_shots (plain_analysis (69 # 10)) default_args = Ok final /\
     ~ durations_within_bounds 2 4 (analysis_beat_sec (plain_analysis (69 # 10)))
         raw final) /\
  (exists raw final,
     sweep_fuel (analysis_fuel (plain_analysis 10) inverted_args)
                (plain_analysis 10) inverted_args = Ok raw /\
     _build_shots (plain_analysis 10) inverted_args = Ok final /\
     ~ durations_within_bounds 4 2 (analysis_beat_sec (plain_analysis 10))
         raw final) /\
  (exists raw final,
     sweep_fuel (analysis_fuel (plain_analysis 2) negative_args)
                (plain_analysis 2) negative_args = Ok raw /\
     _build_shots (plain_analysis 2) negative_args = Ok final /\
     ~ durations_within_bounds (-2) (-1) (analysis_beat_sec (plain_analysis 2))
         raw final).
Proof.
  split; [|split; [|split]].
  - eexists. eexists. split; [vm_compute; reflexivity|].
    split; [vm_compute; reflexivity|].
    intros [H _]. specialize (H _ (or_introl eq_refl)).
    destruct H as [Ht _]; [reflexivity|].
    vm_compute in Ht. discriminate.
  - eexists. eexists. split; [vm_compute; reflexivity|].
    split; [vm_compute; reflexivity|].
    intros [_ H]. specialize (H _ (or_intror (or_introl eq_refl))).
    vm_compute in H. apply H. reflexivity.
  - eexists. eexists. split; [vm_compute; reflexivity|].
    split; [vm_compute; reflexivity|].
    intros [H _]. specialize (H _ (or_introl eq_refl)).
    destruct H as [_ Hl]; [reflexivity|].
    vm_compute in Hl. discriminate.
  - eexists. eexists. split; [vm_compute; reflexivity|].
    split; [vm_compute; reflexivity|].
    intros [_ H]. specialize (H _ (or_introl eq_refl)).
    vm_compute in H. apply H. reflexivity.
Qed.

Lemma shot_durations_bounded_witness :
  exists raw,
    sweep_fuel (analysis_fuel (plain_analysis (69 # 10)) default_args)
               (plain_analysis (69 # 10)) default_args = Ok raw /\
    _build_shots (plain_analysis (69 # 10)) default_args
      = Ok (merge_tail (min_shot_seconds default_args) raw) /\
    (forall s, In s (merge_tail (min_shot_seconds default_args) raw) ->
       min_shot_seconds default_args - (3 # 20000) <= duration_sec s \/ raw = [s]) /\
    (forall s, In s (merge_tail (min_shot_seconds default_args) raw) ->
       duration_sec s
         <= max_shot_seconds default_args
            + analysis_beat_sec (plain_analysis (69 # 10)) + (1 # 20000) \/
       (tail_merged (min_shot_seconds default_args) raw = true /\
        last_shot (merge_tail (min_shot_seconds default_args) raw) = Some s /\
        duration_sec s
          < max_shot_seconds default_args
            + analysis_beat_sec (plain_analysis (69 # 10))
            + min_shot_seconds default_args + (1 # 5000))).
Proof.
  apply (shot_durations_bounded (plain_analysis (69 # 10)) default_args).
  - reflexivity.
  - discriminate.
  - discriminate.
Defined.

End PlanFacts.

(** * Further properties of the scripts *)

(** ** More on rounding *)

Module RoundFacts.

Import Num NumFacts.
Local Open Scope Q_scope.

Lemma Qlt_bool_comp (x x' y y' : Q) :
  x == x' -> y == y' -> Qlt_bool x y = Qlt_bool x' y'.
Proof.
  intros Hx Hy. unfold Qlt_bool. rewrite (Qleb_comp _ _ Hy _ _ Hx). reflexivity.
Qed.

Lemma round_half_even_comp (x y : Q) :
  x == y -> round_half_even x = round_half_even y.
Proof.
  intro H. unfold round_half_even.
  rewrite (Qfloor_comp _ _ H).
  assert (Hr : x - inject_Z (Qfloor y) == y - inject_Z (Qfloor y))
    by (rewrite H; reflexivity).
  rewrite (Qlt_bool_comp _ _ _ _ Hr (Qeq_refl (1 # 2))).
  rewrite (Qlt_bool_comp _ _ _ _ (Qeq_refl (1 # 2)) Hr).
  reflexivity.
Qed.

Lemma round_half_even_int (y : Q) (z : Z) :
  y == inject_Z z -> round_half_even y = z.
Proof.
  intro H. rewrite (round_half_even_comp _ _ H). unfold round_half_even.
  rewrite Qfloor_Z.
  assert (E : Qlt_bool (inject_Z z - inject_Z z) (1 # 2) = true)
    by (apply Qlt_bool_iff; lra).
  rewrite E. reflexivity.
Qed.

Lemma round_half_even_cases (y : Q) :
  round_half_even y = Qfloor y \/ round_half_even y = (Qfloor y + 1)%Z.
Proof.
  unfold round_half_even.
  destruct (Qlt_bool _ _); [auto|].
  destruct (Qlt_bool _ _); [auto|].
  destruct (Z.even _); auto.
Qed.

Lemma round_half_even_mono (x y : Q) :
  x <= y -> (round_half_even x <= round_half_even y)%Z.
Proof.
  intro H.
  pose proof (Qfloor_resp_le _ _ H) as Hf.
  destruct (Z.eq_dec (Qfloor x) (Qfloor y)) as [E | E].
  - unfold round_half_even. rewrite E. cbv zeta.
    set (rx := x - inject_Z (Qfloor y)).
    set (ry := y - inject_Z (Qfloor y)).
    assert (Hr : rx <= ry) by (unfold rx, ry; lra).
    destruct (Qlt_bool rx (1 # 2)) eqn:E1; destruct (Qlt_bool (1 # 2) rx) eqn:E2;
      destruct (Qlt_bool ry (1 # 2)) eqn:E3; destruct (Qlt_bool (1 # 2) ry) eqn:E4;
      qbool; try (exfalso; lra); destruct (Z.even (Qfloor y)); lia.
  - destruct (round_half_even_cases x) as [-> | ->];
      destruct (round_half_even_cases y) as [-> | ->]; lia.
Qed.

Lemma Qmake_le (a b : Z) (p : positive) : (a <= b)%Z -> a # p <= b # p.
Proof. intro H. unfold Qle. simpl. nia. Qed.

Lemma round4_comp (x y : Q) : x == y -> round4 x = round4 y.
Proof.
  intro H. unfold round4.
  rewrite (round_half_even_comp (x * 10000) (y * 10000)); [reflexivity|].
  rewrite H. reflexivity.
Qed.

Lemma round4_mono (x y : Q) : x <= y -> round4 x <= round4 y.
Proof.
  intro H. unfold round4. apply Qmake_le, round_half_even_mono. lra.
Qed.

Lemma round3_mono (x y : Q) : x <= y -> round3 x <= round3 y.
Proof.
  intro H. unfold round3. apply Qmake_le, round_half_even_mono. lra.
Qed.

Lemma round4_nonneg (x : Q) : 0 <= x -> 0 <= round4 x.
Proof.
  intro H. apply round4_mono in H.
  assert (E : round4 0 == 0) by reflexivity. lra.
Qed.

(** A value of the grid of multiples of 1/10000 is its own rounding. *)
Lemma round4_grid (z : Z) : round4 (z # 10000) = z # 10000.
Proof.
  unfold round4. rewrite (round_half_even_int ((z # 10000) * 10000) z);
    [reflexivity|].
  unfold Qeq, Qmult, inject_Z. simpl. lia.
Qed.

Lemma round4_idempotent (x : Q) : round4 (round4 x) = round4 x.
Proof. unfold round4 at 2 3. apply round4_grid. Qed.

End RoundFacts.

(** ** The analyzer: beat grids and tempo *)

Module AnalyzeGridFacts.

Import Num NumFacts RoundFacts Analyze.
Local Open Scope Q_scope.

Lemma clip_round_filter (values : list Q) (duration : Q) :
  _clip_round values duration =
  map round4 (filter (fun v => Qle_bool 0 v && Qle_bool v duration) values).
Proof.
  induction values as [|v l IH]; [reflexivity|]. simpl.
  unfold Qlt_bool at 1 2.
  destruct (Qle_bool 0 v); simpl; [|exact IH].
  destruct (Qle_bool v duration); simpl; [|exact IH].
  rewrite IH. reflexivity.
Qed.

Lemma clip_round_In (values : list Q) (duration b : Q) :
  In b (_clip_round values duration) <->
  exists v, In v values /\ 0 <= v /\ v <= duration /\ b = round4 v.
Proof.
  rewrite clip_round_filter, in_map_iff. split.
  - intros (v & <- & Hv). apply filter_In in Hv. destruct Hv as [Hin Hb].
    apply andb_true_iff in Hb. destruct Hb as [H0 H1]. qbool.
    exists v. auto.
  - intros (v & Hin & H0 & H1 & ->). exists v. split; [reflexivity|].
    apply filter_In. split; [exact Hin|].
    apply andb_true_iff. split; apply Qle_bool_iff; assumption.
Qed.

Lemma clip_round_bounds (values : list Q) (duration : Q) :
  _clip_round values duration =
    map round4 (filter (fun v => Qle_bool 0 v && Qle_bool v duration) values) /\
  (List.length (_clip_round values duration) <= List.length values)%nat /\
  (forall b, In b (_clip_round values duration) ->
     0 <= b /\ b <= round4 duration /\ b <= duration + (1 # 20000) /\
     round4 b = b).
Proof.
  split; [apply clip_round_filter|]. split.
  - rewrite clip_round_filter, length_map. apply filter_length_le.
  - intros b Hb. apply clip_round_In in Hb.
    destruct Hb as (v & _ & H0 & H1 & ->).
    split; [apply round4_nonneg, H0|].
    split; [apply round4_mono, H1|].
    split; [pose proof (round4_err v); lra | apply round4_idempotent].
Qed.

(** X1. The values kept by [_clip_round] are, in their order, the roundings of
    the values of the input that lie between 0 and the duration; each of
    them lies between 0 and the rounded duration, which can exceed the
    duration itself by up to 0.00005. *)
Theorem clip_round_keeps_rounded_in_range (values : list Q) (duration : Q) :
  _clip_round values duration =
    map round4 (filter (fun v => Qle_bool 0 v && Qle_bool v duration) values) /\
  (List.length (_clip_round values duration) <= List.length values)%nat /\
  (forall b, In b (_clip_round values duration) ->
     0 <= b /\ b <= round4 duration /\ b <= duration + (1 # 20000) /\
     round4 b = b).
Proof. exact (clip_round_bounds values duration). Qed.

Lemma clip_round_keeps_rounded_in_range_witness :
  _clip_round [-(1); 1 # 3; 7] 5 =
    map round4 (filter (fun v => Qle_bool 0 v && Qle_bool v 5) [-(1); 1 # 3; 7]) /\
  le (List.length (_clip_round [-(1); 1 # 3; 7] 5))
     (List.length [-(1); 1 # 3; 7]) /\
  (forall b, In b (_clip_round [-(1); 1 # 3; 7] 5) ->
     0 <= b /\ b <= round4 5 /\ b <= 5 + (1 # 20000) /\ round4 b = b).
Proof. exact (clip_round_keeps_rounded_in_range [-(1); 1 # 3; 7] 5). Defined.

Lemma half_grid (i : nat) :
  round4 (inject_Z (Z.of_nat i) * (60 / 120)) == inject_Z (Z.of_nat i) / 2.
Proof.
  unfold round4.
  rewrite (round_half_even_int _ (5000 * Z.of_nat i)).
  - rewrite (Qmake_Qdiv (5000 * Z.of_nat i) 10000), inject_Z_mult.
    change (inject_Z (Z.pos 10000)) with 10000.
    change (inject_Z 5000) with 5000. field.
  - rewrite inject_Z_mult. change (inject_Z 5000) with 5000. field.
Qed.

Lemma fallback_beats_grid (duration_seconds : Q) :
  0 <= duration_seconds ->
  let count := Nat.max 1 (Z.to_nat (Qfloor (duration_seconds / (60 / 120)))) in
  fst (_fallback_beats duration_seconds) = 120 /\
  List.length (snd (_fallback_beats duration_seconds)) = count /\
  snd (_fallback_beats duration_seconds) <> [] /\
  (forall i, (i < count)%nat ->
     nth i (snd (_fallback_beats duration_seconds)) 0
     == inject_Z (Z.of_nat i) / 2).
Proof.
  intros HD count. unfold _fallback_beats. cbv zeta. fold count. simpl fst. simpl snd.
  set (grid := map (fun i => inject_Z (Z.of_nat i) * (60 / 120)) (seq 0 count)).
  assert (Hall : forall v, In v grid -> 0 <= v /\ v <= duration_seconds).
  { intros v Hv. unfold grid in Hv. apply in_map_iff in Hv.
    destruct Hv as (i & <- & Hi). apply in_seq in Hi.
    assert (Hi0 : 0 <= inject_Z (Z.of_nat i)).
    { change 0 with (inject_Z 0). rewrite <- Zle_Qle. lia. }
    assert (Hh : 60 / 120 == 1 # 2) by reflexivity.
    rewrite Hh.
    split; [lra|].
    pose proof (Qfloor_le (duration_seconds / (60 / 120))) as Hfl.
    assert (Hdiv : duration_seconds / (60 / 120) == duration_seconds * 2)
      by (field).
    destruct (Z_lt_le_dec (Qfloor (duration_seconds / (60 / 120))) 1) as [Hs | Hs].
    - assert (Hc : count = 1%nat) by (unfold count; lia).
      assert (i = 0%nat) by lia. subst i. change (inject_Z (Z.of_nat 0)) with 0. lra.
    - assert (Hc : Z.of_nat count = Qfloor (duration_seconds / (60 / 120)))
        by (unfold count; lia).
      assert (Hi1 : inject_Z (Z.of_nat i) + 1
                    <= inject_Z (Qfloor (duration_seconds / (60 / 120)))).
      { change 1 with (inject_Z 1). rewrite <- inject_Z_plus, <- Zle_Qle. lia. }
      lra. }
  assert (Hkeep : _clip_round grid duration_seconds = map round4 grid).
  { rewrite clip_round_filter. f_equal.
    clear -Hall. induction grid as [|v l IH]; [reflexivity|]. simpl.
    destruct (Hall v (or_introl eq_refl)) as [H0 H1].
    apply Qle_bool_iff in H0, H1. rewrite H0, H1. simpl. f_equal.
    apply IH. intros w Hw. apply Hall. now right. }
  rewrite Hkeep. unfold grid. rewrite map_map.
  split; [reflexivity|]. split; [rewrite length_map, length_seq; reflexivity|].
  split.
  - assert (Hc : (1 <= count)%nat) by (unfold count; lia).
    destruct count; [lia | discriminate].
  - intros i Hi.
    rewrite (nth_indep _ 0 (round4 (inject_Z (Z.of_nat 0) * (60 / 120))))
      by (rewrite length_map, length_seq; exact Hi).
    rewrite (map_nth (fun i => round4 (inject_Z (Z.of_nat i) * (60 / 120)))).
    rewrite seq_nth by exact Hi. simpl (0 + i)%nat. apply half_grid.
Qed.

(** X2. For a duration that is not negative the fallback grid is not clipped:
    it is reported at 120 BPM, it has [max(1, floor(duration / 0.5))]
    beats, and the beat of index [i] is at [i / 2] seconds, so the grid
    starts at 0 and is evenly spaced by half a second. *)
Theorem fallback_beats_even_grid (duration_seconds : Q) :
  0 <= duration_seconds ->
  let count := Nat.max 1 (Z.to_nat (Qfloor (duration_seconds / (60 / 120)))) in
  fst (_fallback_beats duration_seconds) = 120 /\
  List.length (snd (_fallback_beats duration_seconds)) = count /\
  snd (_fallback_beats duration_seconds) <> [] /\
  (forall i, (i < count)%nat ->
     nth i (snd (_fallback_beats duration_seconds)) 0
     == inject_Z (Z.of_nat i) / 2).
Proof. exact (fallback_beats_grid duration_seconds). Qed.

Lemma fallback_beats_even_grid_witness :
  let count := Nat.max 1 (Z.to_nat (Qfloor (30 / (60 / 120)))) in
  fst (_fallback_beats 30) = 120 /\
  List.length (snd (_fallback_beats 30)) = count /\
  snd (_fallback_beats 30) <> [] /\
  (forall i, (i < count)%nat ->
     nth i (snd (_fallback_beats 30)) 0 == inject_Z (Z.of_nat i) / 2).
Proof. apply (fallback_beats_even_grid 30). discriminate. Defined.

Lemma infer_bpm_cases (beats : list Q) (fallback_bpm : Q) :
  (_infer_bpm_from_beats beats fallback_bpm = fallback_bpm \/
   40 <= _infer_bpm_from_beats beats fallback_bpm <= 220) /\
  ((List.length beats < 3)%nat ->
   _infer_bpm_from_beats beats fallback_bpm = fallback_bpm).
Proof.
  unfold _infer_bpm_from_beats. split.
  - destruct (List.length beats <? 3)%nat; [now left|].
    destruct (positive_only (intervals beats)) as [|v r]; [now left|].
    destruct (Qle_bool _ 0); [now left|].
    destruct (Qlt_bool (60 / median (v :: r)) 40) eqn:E1; [now left|].
    destruct (Qlt_bool 220 (60 / median (v :: r))) eqn:E2; [now left|].
    right. qbool. simpl. split; assumption.
  - intro H. apply Nat.ltb_lt in H. rewrite H. reflexivity.
Qed.

(** X3. [_infer_bpm_from_beats] returns the fallback or a value between 40 and
    220; with fewer than three beats it returns the fallback. *)
Theorem infer_bpm_fallback_or_plausible (beats : list Q) (fallback_bpm : Q) :
  (_infer_bpm_from_beats beats fallback_bpm = fallback_bpm \/
   40 <= _infer_bpm_from_beats beats fallback_bpm <= 220) /\
  ((List.length beats < 3)%nat ->
   _infer_bpm_from_beats beats fallback_bpm = fallback_bpm).
Proof. exact (infer_bpm_cases beats fallback_bpm). Qed.

Lemma infer_bpm_fallback_or_plausible_witness :
  _infer_bpm_from_beats [0; 1 # 2] 97 = 97.
Proof.
  apply (proj2 (infer_bpm_fallback_or_plausible [0; 1 # 2] 97)).
  simpl. lia.
Defined.

Lemma every_fourth_incl_aux (n : nat) :
  forall (l : list Q) (x : Q),
    (List.length l <= n)%nat -> In x (every_fourth l) -> In x l.
Proof.
  induction n as [|n IH]; intros l x Hlen Hx.
  - destruct l; [destruct Hx | simpl in Hlen; lia].
  - destruct l as [|a [|b [|c [|d r]]]]; simpl in Hx.
    + destruct Hx.
    + exact Hx.
    + destruct Hx as [<- | []]. now left.
    + destruct Hx as [<- | []]. now left.
    + destruct Hx as [<- | Hx]; [now left|].
      do 4 right. apply IH; [simpl in Hlen; lia | exact Hx].
Qed.

Lemma every_fourth_incl (l : list Q) (x : Q) : In x (every_fourth l) -> In x l.
Proof. apply (every_fourth_incl_aux (List.length l)). lia. Qed.

(** X4. Whatever the detector returns, for a duration that is not negative the
    reported beat list is not empty, every beat lies between 0 and the
    rounded duration, every downbeat is one of the beats, and the reported
    BPM is at least 1. *)
Theorem librosa_report_is_usable (tempo : Q) (beat_times : list Q)
    (duration_seconds : Q) :
  0 <= duration_seconds ->
  let report := fst (_try_librosa_analysis tempo beat_times duration_seconds) in
  beats report <> [] /\
  (forall b, In b (beats report) -> 0 <= b /\ b <= round4 duration_seconds) /\
  (forall b, In b (downbeats report) -> In b (beats report)) /\
  1 <= bpm report.
Proof.
  intros HD report. unfold report, _try_librosa_analysis.
  set (beats0 := _clip_round beat_times duration_seconds).
  destruct (fallback_beats_grid duration_seconds HD) as (Hf1 & _ & Hf3 & _).
  assert (Hround1 : round3 1 == 1) by reflexivity.
  destruct (List.length beats0 <? 4)%nat eqn:E.
  - destruct (_fallback_beats duration_seconds) as [fb fbeats] eqn:Efb.
    simpl in Hf1, Hf3 |- *. subst fb.
    assert (Hin : forall b, In b fbeats ->
                    0 <= b /\ b <= round4 duration_seconds /\ round4 b = b).
    { intros b Hb.
      assert (Hfb : fbeats = snd (_fallback_beats duration_seconds))
        by (rewrite Efb; reflexivity).
      rewrite Hfb in Hb. unfold _fallback_beats in Hb. simpl in Hb.
      destruct (clip_round_bounds
                  (map (fun i => inject_Z (Z.of_nat i) * (60 / 120))
                     (seq 0 (Nat.max 1
                        (Z.to_nat (Qfloor (duration_seconds / (60 / 120)))))))
                  duration_seconds) as (_ & _ & H).
      destruct (H b Hb) as (H0 & H1 & _ & H3). auto. }
    split; [exact Hf3|]. split; [|split].
    + intros b Hb. destruct (Hin b Hb) as (H0 & H1 & _). auto.
    + intros b Hb. apply clip_round_In in Hb.
      destruct Hb as (v & Hv & _ & _ & ->).
      apply every_fourth_incl in Hv.
      destruct (Hin v Hv) as (_ & _ & ->). exact Hv.
    + assert (H : round3 1 <= round3 120) by (apply round3_mono; lra). lra.
  - simpl. apply Nat.ltb_ge in E.
    destruct (clip_round_bounds beat_times duration_seconds)
      as (_ & _ & Hin). fold beats0 in Hin.
    split; [destruct beats0; [simpl in E; lia | discriminate]|].
    split; [|split].
    + intros b Hb. destruct (Hin b Hb) as (H0 & H1 & _). auto.
    + intros b Hb. apply clip_round_In in Hb.
      destruct Hb as (v & Hv & _ & _ & ->).
      apply every_fourth_incl in Hv.
      destruct (Hin v Hv) as (_ & _ & _ & ->). exact Hv.
    + destruct (infer_bpm_cases beats0 (Qmax 1 tempo))
        as [[-> | [Hlo _]] _].
      * assert (H : round3 1 <= round3 (Qmax 1 tempo))
          by (apply round3_mono, Q.le_max_l). lra.
      * assert (H : round3 1 <= round3 (_infer_bpm_from_beats beats0 (Qmax 1 tempo)))
          by (apply round3_mono; lra). lra.
Qed.

Lemma librosa_report_is_usable_witness :
  let report := fst (_try_librosa_analysis 300 [0; 1 # 10] 3) in
  beats report <> [] /\
  (forall b, In b (beats report) -> 0 <= b /\ b <= round4 3) /\
  (forall b, In b (downbeats report) -> In b (beats report)) /\
  1 <= bpm report.
Proof. apply (librosa_report_is_usable 300 [0; 1 # 10] 3). discriminate. Defined.

End AnalyzeGridFacts.

(** ** The analyzer: nearest beat and sections *)

Module AnalyzeSectionsFacts.

Import Num NumFacts RoundFacts Plan AnalyzeSections.
Local Open Scope Q_scope.

Lemma nearest_from_spec (target : Q) (rest : list Q) :
  forall best,
  exists pre post,
    best :: rest = pre ++ nearest_from target best rest :: post /\
    (forall b, In b pre ->
       Qabs (nearest_from target best rest - target) < Qabs (b - target)) /\
    (forall b, In b post ->
       Qabs (nearest_from target best rest - target) <= Qabs (b - target)).
Proof.
  induction rest as [|x rest IH]; intro best; cbn [nearest_from].
  - exists [], []. split; [reflexivity|]. split; intros b [].
  - destruct (Qlt_bool (Qabs (x - target)) (Qabs (best - target))) eqn:E;
      cbv iota; qbool.
    + destruct (IH x) as (pre & post & Heq & Hpre & Hpost).
      set (r := nearest_from target x rest) in *.
      exists (best :: pre), post. split; [simpl; rewrite Heq; reflexivity|].
      split; [|exact Hpost].
      assert (Hrx : Qabs (r - target) <= Qabs (x - target)).
      { destruct pre as [|p pre].
        - simpl in Heq. injection Heq as Hx _. rewrite <- Hx. lra.
        - simpl in Heq. injection Heq as Hx _. subst p.
          apply Qlt_le_weak, Hpre. now left. }
      intros b [<- | Hb]; [lra | apply Hpre, Hb].
    + destruct (IH best) as (pre & post & Heq & Hpre & Hpost).
      set (r := nearest_from target best rest) in *.
      destruct pre as [|p pre].
      * simpl in Heq. injection Heq as Hr Hrest.
        exists [], (x :: rest). split; [simpl; rewrite <- Hr; reflexivity|].
        split; [intros b []|].
        intros b [<- | Hb]; [rewrite <- Hr; exact E|].
        apply Hpost. rewrite <- Hrest. exact Hb.
      * simpl in Heq. injection Heq as Hp Hrest. subst p.
        exists (best :: x :: pre), post.
        split; [simpl; rewrite Hrest; reflexivity|].
        split; [|exact Hpost].
        assert (Hrb : Qabs (r - target) < Qabs (best - target))
          by (apply Hpre; now left).
        intros b [<- | [<- | Hb]]; [exact Hrb | lra |].
        apply Hpre. now right.
Qed.

(** X5. [_snap_to_nearest_beat] returns the target on an empty grid; otherwise
    it returns the first beat among those nearest to the target: every beat
    before it is strictly farther, every beat after it is at least as far. *)
Theorem snap_to_nearest_is_first_nearest (target : Q) (beats : list Q) :
  (beats = [] -> _snap_to_nearest_beat target beats = target) /\
  (beats <> [] ->
   exists pre post,
     beats = pre ++ _snap_to_nearest_beat target beats :: post /\
     (forall b, In b pre ->
        Qabs (_snap_to_nearest_beat target beats - target) < Qabs (b - target)) /\
     (forall b, In b post ->
        Qabs (_snap_to_nearest_beat target beats - target) <= Qabs (b - target))).
Proof.
  split; [intros ->; reflexivity|].
  intro Hne. destruct beats as [|b rest]; [congruence|].
  apply nearest_from_spec.
Qed.

Lemma snap_to_nearest_is_first_nearest_witness :
  exists pre post,
    [1; 2; 3] = pre ++ _snap_to_nearest_beat (5 # 2) [1; 2; 3] :: post /\
    (forall b, In b pre ->
       Qabs (_snap_to_nearest_beat (5 # 2) [1; 2; 3] - (5 # 2))
       < Qabs (b - (5 # 2))) /\
    (forall b, In b post ->
       Qabs (_snap_to_nearest_beat (5 # 2) [1; 2; 3] - (5 # 2))
       <= Qabs (b - (5 # 2))).
Proof.
  apply (proj2 (snap_to_nearest_is_first_nearest (5 # 2) [1; 2; 3])).
  discriminate.
Defined.

(** *** The cleaned boundaries *)

Lemma clean_from_spaced (min_span : Q) (bs : list Q) :
  forall last_kept, spaced min_span last_kept (clean_from min_span last_kept bs).
Proof.
  induction bs as [|b r IH]; intro last_kept; simpl; [exact I|].
  destruct (Qlt_bool (b - last_kept) min_span) eqn:E; [apply IH|].
  qbool. simpl. split; [lra | apply IH].
Qed.

Lemma clean_from_In (min_span : Q) (bs : list Q) :
  forall last_kept x, In x (clean_from min_span last_kept bs) -> In x bs.
Proof.
  induction bs as [|b r IH]; intros last_kept x Hx; simpl in *; [exact Hx|].
  destruct (Qlt_bool (b - last_kept) min_span).
  - right. exact (IH _ _ Hx).
  - destruct Hx as [<- | Hx]; [now left | right; exact (IH _ _ Hx)].
Qed.

Lemma spaced_weaken (g g' a : Q) (l : list Q) :
  g' <= g -> spaced g a l -> spaced g' a l.
Proof.
  intro Hg. revert a. induction l as [|b r IH]; intros a H; [exact I|].
  destruct H as [H1 H2]. split; [lra | apply IH, H2].
Qed.

Lemma spaced_raise_last (g a : Q) (l : list Q) (x y : Q) :
  spaced g a (l ++ [x]) -> x <= y -> spaced g a (l ++ [y]).
Proof.
  revert a. induction l as [|b r IH]; intros a H Hxy; simpl in *.
  - destruct H as [H _]. split; [lra | exact I].
  - destruct H as [H1 H2]. split; [exact H1 | exact (IH _ H2 Hxy)].
Qed.

Lemma layout_boundaries_le (D : Q) (beats : list Q) (layout : list (string * Q)) :
  forall cursor x, In x (layout_boundaries D beats cursor layout) -> x <= D.
Proof.
  induction layout as [|[lbl ratio] rest IH]; intros cursor x Hx; [destruct Hx|].
  simpl in Hx. destruct Hx as [<- | Hx]; [apply Q.le_min_l | exact (IH _ _ Hx)].
Qed.

(** The cleaned boundaries start with 0 and end with the duration; either
    they are just these two, or consecutive ones are at least 2 apart. *)
Lemma cleaned_boundaries_shape (D ms : Q) (beats : list Q)
    (layout : list (string * Q)) :
  0 < D ->
  exists k,
    cleaned_boundaries D ms (boundaries D beats layout) = 0 :: k /\
    k <> [] /\ last k 0 == D /\ (k = [D] \/ spaced 2 0 k).
Proof.
  intro HD. unfold cleaned_boundaries, boundaries.
  set (bs := layout_boundaries D beats 0 layout ++ [D]).
  set (g := Qmax 2 ms).
  assert (Hg : 2 <= g) by apply Q.le_max_l.
  assert (Hbs : forall x, In x bs -> x <= D).
  { intros x Hx. unfold bs in Hx. apply in_app_or in Hx.
    destruct Hx as [Hx | [<- | []]]; [|lra].
    exact (layout_boundaries_le _ _ _ _ _ Hx). }
  pose proof (clean_from_spaced g bs 0) as Hsp.
  pose proof (clean_from_In g bs 0) as Hin.
  set (k0 := clean_from g 0 bs) in *.
  destruct (exists_last (l := 0 :: k0) ltac:(discriminate)) as (init & l0 & Hsplit).
  assert (Hlast : last (0 :: k0) 0 = l0)
    by (rewrite Hsplit; apply last_last).
  assert (Hrem : removelast (0 :: k0) = init)
    by (rewrite Hsplit; apply removelast_last).
  rewrite Hlast, Hrem.
  destruct init as [|i0 init].
  - (* [cleaned0] is [0] alone *)
    simpl in Hsplit. injection Hsplit as <- Hk0.
    assert (E : Qlt_bool 0 D = true) by (apply Qlt_bool_iff; exact HD).
    rewrite E. simpl.
    assert (E0 : Qeq_bool D 0 = false).
    { destruct (Qeq_bool D 0) eqn:E0; [|reflexivity].
      apply Qeq_bool_iff in E0. lra. }
    rewrite E0. exists [D]. split; [reflexivity|]. split; [discriminate|].
    split; [reflexivity | now left].
  - simpl in Hsplit. injection Hsplit as <- Hk0.
    assert (Hl0 : l0 <= D).
    { apply Hbs, Hin. rewrite Hk0. apply in_or_app. right. now left. }
    rewrite Hk0 in Hsp.
    destruct (Qlt_bool l0 D) eqn:E; qbool.
    + simpl. exists (init ++ [D]). split; [reflexivity|].
      split; [destruct init; discriminate|].
      split; [rewrite last_last; reflexivity|]. right.
      apply (spaced_weaken g); [exact Hg|].
      apply (spaced_raise_last _ _ _ l0); [exact Hsp | lra].
    + simpl. exists k0. split; [reflexivity|].
      split; [rewrite Hk0; destruct init; discriminate|].
      split; [rewrite Hk0, last_last; lra|]. right.
      rewrite Hk0. apply (spaced_weaken g); assumption.
Qed.

(** *** Sections from boundaries *)

Lemma sections_loop_spaced (labels : list string) (n : nat) (l : list Q) :
  forall idx a b,
    spaced 2 a (b :: l) ->
    sec_linked (round4 a) (sections_loop labels n idx (a :: b :: l))
               (round4 (last (b :: l) 0)) /\
    (forall s, In s (sections_loop labels n idx (a :: b :: l)) ->
       float_or_zero (sec_start_sec s) < float_or_zero (sec_end_sec s)).
Proof.
  induction l as [|c l IH]; intros idx a b [Hab Hrest].
  - assert (E : Qle_bool (round4 b) (round4 a) = false).
    { apply Qle_bool_false.
      pose proof (round4_err a). pose proof (round4_err b). lra. }
    simpl. rewrite E. split.
    + apply (sec_linked_one
               {| sec_label := Some (section_label labels n idx);
                  sec_energy := Some (energy_by_label (section_label labels n idx));
                  sec_start_sec := Some (round4 a);
                  sec_end_sec := Some (round4 b) |}).
    + intros s [<- | []]. simpl. apply Qle_bool_false, E.
  - assert (E : Qle_bool (round4 b) (round4 a) = false).
    { apply Qle_bool_false.
      pose proof (round4_err a). pose proof (round4_err b). lra. }
    destruct (IH (S idx) b c Hrest) as [Hl Hpos].
    change (sections_loop labels n idx (a :: b :: c :: l))
      with (if Qle_bool (round4 b) (round4 a)
            then sections_loop labels n (S idx) (b :: c :: l)
            else {| sec_label := Some (section_label labels n idx);
                    sec_energy := Some (energy_by_label (section_label labels n idx));
                    sec_start_sec := Some (round4 a);
                    sec_end_sec := Some (round4 b) |}
                   :: sections_loop labels n (S idx) (b :: c :: l)).
    rewrite E. split.
    + apply (sec_linked_cons
               {| sec_label := Some (section_label labels n idx);
                  sec_energy := Some (energy_by_label (section_label labels n idx));
                  sec_start_sec := Some (round4 a);
                  sec_end_sec := Some (round4 b) |}).
      exact Hl.
    + intros s [<- | Hs]; [simpl; apply Qle_bool_false, E | apply Hpos, Hs].
Qed.

Lemma sec_linked_nonempty (a z : Q) (l : list SectionRec) :
  sec_linked a l z -> l <> [].
Proof. intro H. inversion H; discriminate. Qed.

Lemma build_sections_linked (duration_seconds : Q) (beats : list Q)
    (min_section_seconds : Q) :
  0 < duration_seconds ->
  exists a,
    a == 0 /\
    sec_linked a (_build_sections duration_seconds beats min_section_seconds)
               (round4 duration_seconds) /\
    (0 < round4 duration_seconds ->
     forall s, In s (_build_sections duration_seconds beats min_section_seconds) ->
       float_or_zero (sec_start_sec s) < float_or_zero (sec_end_sec s)).
Proof.
  intro HD. unfold _build_sections.
  destruct (cleaned_boundaries_shape duration_seconds min_section_seconds beats
              (layout_for duration_seconds) HD) as (k & -> & Hne & Hlast & Hk).
  set (labels := map fst (layout_for duration_seconds)).
  set (fallback :=
         {| sec_label := Some "section"%string;
            sec_energy := Some "medium"%string;
            sec_start_sec := Some 0;
            sec_end_sec := Some (round4 duration_seconds) |}).
  destruct Hk as [-> | Hsp].
  - (* the two boundaries 0 and the duration *)
    simpl.
    destruct (Qle_bool (round4 duration_seconds) (round4 0)) eqn:E.
    + exists 0. split; [reflexivity|]. split.
      * apply (sec_linked_one fallback).
      * intros Hpos. apply Qle_bool_iff in E.
        assert (E0 : round4 0 == 0) by reflexivity. lra.
    + exists (round4 0). split; [reflexivity|]. split.
      * apply (sec_linked_one
                 {| sec_label := Some (section_label labels 2 0);
                    sec_energy := Some (energy_by_label (section_label labels 2 0));
                    sec_start_sec := Some (round4 0);
                    sec_end_sec := Some (round4 duration_seconds) |}).
      * intros _ s [<- | []]. simpl. apply Qle_bool_false, E.
  - destruct k as [|b l]; [congruence|].
    destruct (sections_loop_spaced labels (List.length (0 :: b :: l)) l 0 0 b Hsp)
      as [Hl Hpos].
    rewrite (round4_comp _ _ Hlast) in Hl.
    pose proof (sec_linked_nonempty _ _ _ Hl) as Hnil.
    destruct (sections_loop labels (List.length (0 :: b :: l)) 0 (0 :: b :: l))
      as [|s0 rest] eqn:Es; [congruence|].
    exists (round4 0). split; [reflexivity|]. split; [exact Hl|].
    intros _. exact Hpos.
Qed.

(** X6. For a positive duration, any beats and any minimum section length, the
    sections of [_build_sections] cover the track without gap or overlap:
    the list is not empty, the first section starts at 0, every section
    starts where the previous one ends, and the last one ends at the
    duration rounded to four decimals. Every section ends after its start,
    unless the duration rounds to 0. *)
Theorem build_sections_cover (duration_seconds : Q) (beats : list Q)
    (min_section_seconds : Q) :
  0 < duration_seconds ->
  exists a,
    a == 0 /\
    sec_linked a (_build_sections duration_seconds beats min_section_seconds)
               (round4 duration_seconds) /\
    (0 < round4 duration_seconds ->
     forall s, In s (_build_sections duration_seconds beats min_section_seconds) ->
       float_or_zero (sec_start_sec s) < float_or_zero (sec_end_sec s)).
Proof. exact (build_sections_linked duration_seconds beats min_section_seconds). Qed.

Lemma build_sections_cover_witness :
  exists a,
    a == 0 /\
    sec_linked a (_build_sections 30 [0; 5; 10; 15; 20; 25] 8) (round4 30) /\
    (0 < round4 30 ->
     forall s, In s (_build_sections 30 [0; 5; 10; 15; 20; 25] 8) ->
       float_or_zero (sec_start_sec s) < float_or_zero (sec_end_sec s)).
Proof.
  apply (build_sections_cover 30 [0; 5; 10; 15; 20; 25] 8). reflexivity.
Defined.

(** *** Section lookup on the analyzer's sections *)

Lemma sec_linked_encloses (l : list SectionRec) :
  forall a z t,
    sec_linked a l z -> a <= t -> t < z ->
    exists s,
      enclosing_section t l = Some s /\ In s l /\
      float_or_zero (sec_start_sec s) <= t /\ t < float_or_zero (sec_end_sec s).
Proof.
  induction l as [|s l IH]; intros a z t H Ha Hz; [inversion H|].
  inversion H as [s' | s' rest z' Hrest]; subst.
  - exists s. simpl.
    assert (E1 : Qle_bool (float_or_zero (sec_start_sec s)) t = true)
      by (apply Qle_bool_iff; exact Ha).
    assert (E2 : Qlt_bool t (float_or_zero (sec_end_sec s)) = true)
      by (apply Qlt_bool_iff; exact Hz).
    rewrite E1, E2. simpl. auto.
  - simpl.
    assert (E1 : Qle_bool (float_or_zero (sec_start_sec s)) t = true)
      by (apply Qle_bool_iff; exact Ha).
    rewrite E1. simpl.
    destruct (Qlt_bool t (float_or_zero (sec_end_sec s))) eqn:E2.
    + exists s. qbool. auto.
    + qbool. destruct (IH _ _ t Hrest E2 Hz) as (s1 & Hs1 & Hin & Hb).
      exists s1. auto.
Qed.

Lemma sec_linked_lt (l : list SectionRec) :
  forall a z,
    sec_linked a l z ->
    (forall s, In s l ->
       float_or_zero (sec_start_sec s) < float_or_zero (sec_end_sec s)) ->
    a < z.
Proof.
  induction l as [|s l IH]; intros a z H Hpos; [inversion H|].
  inversion H as [s' | s' rest z' Hrest]; subst.
  - apply Hpos. now left.
  - assert (H1 : float_or_zero (sec_start_sec s) < float_or_zero (sec_end_sec s))
      by (apply Hpos; now left).
    assert (H2 : float_or_zero (sec_end_sec s) < z).
    { apply (IH _ _ Hrest). intros s1 Hs1. apply Hpos. now right. }
    lra.
Qed.

Lemma sec_linked_beyond (l : list SectionRec) :
  forall a z t,
    sec_linked a l z ->
    (forall s, In s l ->
       float_or_zero (sec_start_sec s) < float_or_zero (sec_end_sec s)) ->
    z <= t -> enclosing_section t l = None.
Proof.
  induction l as [|s l IH]; intros a z t H Hpos Hz; [reflexivity|].
  simpl. inversion H as [s' | s' rest z' Hrest]; subst.
  - assert (E : Qlt_bool t (float_or_zero (sec_end_sec s)) = false)
      by (apply Qlt_bool_false; exact Hz).
    rewrite E, andb_false_r. reflexivity.
  - assert (Hposr : forall s1, In s1 l ->
              float_or_zero (sec_start_sec s1) < float_or_zero (sec_end_sec s1))
      by (intros s1 Hs1; apply Hpos; now right).
    pose proof (sec_linked_lt _ _ _ Hrest Hposr) as Hlt.
    assert (E : Qlt_bool t (float_or_zero (sec_end_sec s)) = false)
      by (apply Qlt_bool_false; lra).
    rewrite E, andb_false_r. exact (IH _ _ _ Hrest Hposr Hz).
Qed.

(** X7. On the sections built by the analyzer for a positive duration, the
    planner's [_find_section_at] finds, for every time from 0 up to the
    rounded duration, a section of the list that contains that time; this
    covers every cursor of the planner's sweep, which stays more than 0.1
    seconds before the duration. For later times, and a duration that does
    not round to 0, no section contains the time and the last section is
    returned. *)
Theorem find_section_in_built_sections (duration_seconds : Q) (beats : list Q)
    (min_section_seconds t : Q) :
  0 < duration_seconds -> 0 <= t ->
  let sections := _build_sections duration_seconds beats min_section_seconds in
  (t < round4 duration_seconds ->
   In (_find_section_at t sections) sections /\
   float_or_zero (sec_start_sec (_find_section_at t sections)) <= t /\
   t < float_or_zero (sec_end_sec (_find_section_at t sections))) /\
  (t < duration_seconds - (1 # 10) -> t < round4 duration_seconds) /\
  (0 < round4 duration_seconds -> round4 duration_seconds <= t ->
   _find_section_at t sections = last sections (default_section t)).
Proof.
  intros HD Ht sections.
  destruct (build_sections_linked duration_seconds beats min_section_seconds HD)
    as (a & Ha & Hl & Hpos). fold sections in Hl, Hpos.
  split; [|split].
  - intro Hlt.
    destruct (sec_linked_encloses _ _ _ t Hl ltac:(lra) Hlt)
      as (s & Hs & Hin & Hb).
    unfold _find_section_at. rewrite Hs. auto.
  - intro Hlt. pose proof (round4_err duration_seconds). lra.
  - intros Hr Hge. unfold _find_section_at.
    rewrite (sec_linked_beyond _ _ _ t Hl (Hpos Hr) Hge). reflexivity.
Qed.

Lemma find_section_in_built_sections_witness :
  let sections := _build_sections 30 [0; 5; 10; 15; 20; 25] 8 in
  (12 < round4 30 ->
   In (_find_section_at 12 sections) sections /\
   float_or_zero (sec_start_sec (_find_section_at 12 sections)) <= 12 /\
   12 < float_or_zero (sec_end_sec (_find_section_at 12 sections))) /\
  (12 < 30 - (1 # 10) -> 12 < round4 30) /\
  (0 < round4 30 -> round4 30 <= 12 ->
   _find_section_at 12 sections = last sections (default_section 12)).
Proof.
  apply (find_section_in_built_sections 30 [0; 5; 10; 15; 20; 25] 8 12).
  - reflexivity.
  - discriminate.
Defined.

End AnalyzeSectionsFacts.

(** ** The planner: the fields of the shots and the summary *)

Module PlanReportFacts.

Import Num NumFacts RoundFacts Plan PlanReport.
Local Open Scope Q_scope.

Section Fields.

Context {R : RandomSource}.

Lemma build_loop_fields (D b : Q) (beats : list Q) (sections : list SectionRec)
    (args : Args) (fuel : nat) :
  forall (c : Q) (idx : nat) (g : rng) (shots : list Shot),
    build_loop fuel D b beats sections args c idx g = Ok shots ->
    Forall (shot_fields_ok args) shots /\
    (forall i s, nth_error shots i = Some s ->
       id s = ("shot_" ++ Text.pad3 (idx + i))%string) /\
    (idx = 1%nat -> forall s, hd_error shots = Some s ->
       priority s = "hero"%string) /\
    (List.length shots < fuel)%nat.
Proof.
  induction fuel as [|fuel IH]; intros c idx g shots H; [discriminate|].
  simpl in H.
  destruct (Qlt_bool c (D - (1 # 10))).
  - destruct (_build_prompt g (theme args) (style_preset args) _ (brand args))
      as [prompt g'].
    match type of H with
    | match build_loop _ _ _ _ _ _ ?e ?i ?g2 with _ => _ end = _ =>
        destruct (build_loop fuel D b beats sections args e i g2) as [rest| |] eqn:E;
        try discriminate;
        destruct (IH e i g2 rest E) as (Hf & Hid & _ & Hlen)
    end.
    injection H as <-. split; [|split; [|split]].
    + constructor; [|exact Hf]. eexists. simpl. repeat split.
    + intros i s Hs. destruct i as [|i]; simpl in Hs.
      * injection Hs as <-. simpl. rewrite Nat.add_0_r. reflexivity.
      * rewrite (Hid i s Hs). f_equal. f_equal. lia.
    + intros -> s Hs. simpl in Hs. injection Hs as <-. reflexivity.
    + simpl. lia.
  - injection H as <-. split; [constructor|]. split; [|split].
    + intros i s Hs. destruct i; discriminate.
    + intros _ s Hs. discriminate.
    + simpl. lia.
Qed.

End Fields.

Lemma merge_into_fields (args : Args) (prev tail : Shot) :
  shot_fields_ok args prev -> shot_fields_ok args (merge_into prev tail).
Proof. intros (k & H). exists k. exact H. Qed.

Lemma merge_tail_cases (m : Q) (raw : list Shot) :
  merge_tail m raw = raw \/
  exists init prev tail,
    raw = init ++ [prev; tail] /\ duration_sec tail < m /\
    merge_tail m raw = init ++ [merge_into prev tail].
Proof.
  destruct (PlanFacts.merge_tail_spec m raw)
    as [[_ H] | (init & prev & tail & H1 & H2 & _ & H3)]; [now left|].
  right. exists init, prev, tail. auto.
Qed.

Lemma merge_tail_length (m : Q) (raw : list Shot) :
  (List.length (merge_tail m raw) <= List.length raw)%nat.
Proof.
  destruct (merge_tail_cases m raw) as [-> | (init & prev & tail & -> & _ & ->)];
    [lia|]. rewrite !length_app. simpl. lia.
Qed.

Lemma merge_tail_fields (args : Args) (m : Q) (raw : list Shot) :
  Forall (shot_fields_ok args) raw ->
  Forall (shot_fields_ok args) (merge_tail m raw).
Proof.
  intro H.
  destruct (merge_tail_cases m raw) as [-> | (init & prev & tail & -> & _ & ->)];
    [exact H|].
  apply Forall_app in H. destruct H as [Hi Hpt].
  apply Forall_app. split; [exact Hi|].
  constructor; [|constructor]. apply merge_into_fields.
  inversion Hpt; assumption.
Qed.

Lemma merge_tail_ids (m : Q) (raw : list Shot) (f : nat -> string) :
  (forall i s, nth_error raw i = Some s -> id s = f i) ->
  forall i s, nth_error (merge_tail m raw) i = Some s -> id s = f i.
Proof.
  intros H.
  destruct (merge_tail_cases m raw) as [-> | (init & prev & tail & Hraw & _ & ->)];
    [exact H|].
  intros i s Hs.
  destruct (Nat.lt_ge_cases i (List.length init)) as [Hi | Hi].
  - rewrite nth_error_app1 in Hs by exact Hi.
    apply H. rewrite Hraw, nth_error_app1 by exact Hi. exact Hs.
  - rewrite nth_error_app2 in Hs by exact Hi.
    destruct (i - List.length init)%nat as [|j] eqn:Ej.
    + simpl in Hs. injection Hs as <-. simpl.
      apply H. rewrite Hraw, nth_error_app2 by exact Hi. rewrite Ej. reflexivity.
    + destruct j; discriminate.
Qed.

Lemma merge_tail_head_priority (m : Q) (raw : list Shot) (p : string) :
  (forall s, hd_error raw = Some s -> priority s = p) ->
  forall s, hd_error (merge_tail m raw) = Some s -> priority s = p.
Proof.
  intro H.
  destruct (merge_tail_cases m raw) as [-> | (init & prev & tail & Hraw & _ & ->)];
    [exact H|].
  intros s Hs. destruct init as [|x init]; simpl in Hs; injection Hs as <-.
  - simpl. apply H. rewrite Hraw. reflexivity.
  - apply H. rewrite Hraw. reflexivity.
Qed.

Lemma count_priority_sum (args : Args) (shots : list Shot) :
  Forall (shot_fields_ok args) shots ->
  (count_priority "hero" shots + count_priority "standard" shots
   + count_priority "filler" shots = List.length shots)%nat.
Proof.
  unfold count_priority.
  induction 1 as [|s l (k & Hp & _) _ IH]; [reflexivity|].
  simpl. rewrite Hp. destruct k; simpl; lia.
Qed.

Section Planner.

Context {R : RandomSource}.

Lemma final_fields (a : Analysis) (args : Args) :
  0 < analysis_duration a ->
  exists raw,
    _build_shots a args = Ok (merge_tail (min_shot_seconds args) raw) /\
    Forall (shot_fields_ok args) (merge_tail (min_shot_seconds args) raw) /\
    (forall i s,
       nth_error (merge_tail (min_shot_seconds args) raw) i = Some s ->
       id s = ("shot_" ++ Text.pad3 (1 + i))%string) /\
    (forall s, hd_error (merge_tail (min_shot_seconds args) raw) = Some s ->
       priority s = "hero"%string).
Proof.
  intro HD.
  destruct (PlanFacts.build_shots_runs a args HD) as (raw & Hraw & Hrun).
  exists raw. split; [exact Hrun|].
  unfold sweep_fuel in Hraw.
  destruct (build_loop_fields _ _ _ _ _ _ _ _ _ _ Hraw) as (Hf & Hid & Hh & _).
  split; [apply merge_tail_fields, Hf|].
  split; [apply merge_tail_ids, Hid|].
  apply merge_tail_head_priority, Hh. reflexivity.
Qed.

(** X8. Every shot of a plan has at least one take, whatever the values of
    [--takes-hero], [--takes-standard] and [--takes-filler]; its priority is
    hero, standard or filler and its take count is the flag of that priority
    raised to at least 1; its quality hint is [quality], its transition is
    [cut], its negative prompt is the fixed one and its visual goal is the
    descriptor of its section. *)
Theorem planned_shots_have_takes (a : Analysis) (args : Args) :
  0 < analysis_duration a ->
  exists shots,
    _build_shots a args = Ok shots /\
    forall s, In s shots ->
      (1 <= takes s)%Z /\
      (priority s = "hero"%string /\ takes s = Z.max 1 (takes_hero args) \/
       priority s = "standard"%string /\ takes s = Z.max 1 (takes_standard args) \/
       priority s = "filler"%string /\ takes s = Z.max 1 (takes_filler args)) /\
      quality_hint s = "quality"%string /\
      transition_after s = "cut"%string /\
      negative_prompt s = _negative_prompt /\
      visual_goal s = _section_descriptor (section s).
Proof.
  intro HD. destruct (final_fields a args HD) as (raw & Hrun & Hf & _).
  eexists. split; [exact Hrun|].
  intros s Hs. rewrite Forall_forall in Hf.
  destruct (Hf s Hs) as (k & Hp & Ht & Hq & Htr & Hn & Hv).
  split; [rewrite Ht; destruct k; simpl; lia|].
  split; [|auto].
  rewrite Hp, Ht. destruct k; simpl; auto.
Qed.

(** X9. The shots of a plan are numbered in order from 1: the shot of index
    [i] has the id [shot_] followed by [i + 1] written with at least three
    digits, also after a tail merge; and the first shot is a hero shot. *)
Theorem planned_shots_numbered (a : Analysis) (args : Args) :
  0 < analysis_duration a ->
  exists shots,
    _build_shots a args = Ok shots /\
    (forall i s, nth_error shots i = Some s ->
       id s = ("shot_" ++ Text.pad3 (1 + i))%string) /\
    (forall s, hd_error shots = Some s -> priority s = "hero"%string).
Proof.
  intro HD. destruct (final_fields a args HD) as (raw & Hrun & _ & Hid & Hh).
  eexists. split; [exact Hrun|]. split; assumption.
Qed.

(** X10. In the summary of the plan file the counts of hero, standard and filler
    shots add up to the total number of shots. *)
Theorem summary_counts_add_up (a : Analysis) (args : Args) :
  0 < analysis_duration a ->
  exists shots,
    _build_shots a args = Ok shots /\
    (hero_shots (summary shots) + standard_shots (summary shots)
     + filler_shots (summary shots) = total_shots (summary shots))%nat.
Proof.
  intro HD. destruct (final_fields a args HD) as (raw & Hrun & Hf & _).
  eexists. split; [exact Hrun|].
  simpl. exact (count_priority_sum args _ Hf).
Qed.

(** X11. For an analysis whose duration is missing, null or a finite number
    (the durations of the model are rationals; the infinity that a JSON
    number such as 1e400 is read as is not among them): the planner raises
    exactly when the duration is missing, null, zero or negative, always
    with the same message; for every finite duration above 0 and every
    argument set it returns a shot list, the loop coming to an end. *)
Theorem planner_fails_only_without_duration (a : Analysis) (args : Args) :
  (duration_seconds a = None ->
   _build_shots a args = Raised "Analysis file missing valid duration_seconds") /\
  (forall value, duration_seconds a = Some value -> value <= 0 ->
   _build_shots a args = Raised "Analysis file missing valid duration_seconds") /\
  (forall value, duration_seconds a = Some value -> 0 < value ->
   exists shots, _build_shots a args = Ok shots) /\
  ((exists msg, _build_shots a args = Raised msg) <->
   duration_seconds a = None \/
   exists value, duration_seconds a = Some value /\ value <= 0) /\
  _build_shots a args <> OutOfFuel.
Proof.
  assert (Hraw : analysis_duration a <= 0 <->
                 duration_seconds a = None \/
                 exists value, duration_seconds a = Some value /\ value <= 0).
  { unfold analysis_duration, float_or_zero.
    destruct (duration_seconds a) as [v|]; split.
    - intro H. right. exists v. auto.
    - intros [H | (v' & H & Hv)]; [discriminate|]. injection H as ->. exact Hv.
    - intros _. now left.
    - intros _. lra. }
  enough (Hold :
    (analysis_duration a <= 0 ->
     _build_shots a args = Raised "Analysis file missing valid duration_seconds") /\
    (0 < analysis_duration a -> exists shots, _build_shots a args = Ok shots) /\
    ((exists msg, _build_shots a args = Raised msg) <-> analysis_duration a <= 0) /\
    _build_shots a args <> OutOfFuel).
  { destruct Hold as (H1 & H2 & H3 & H4).
    split; [intro Hn; apply H1, Hraw; now left|].
    split; [intros v Hv Hle; apply H1, Hraw; right; exists v; auto|].
    split; [intros v Hv Hpos; apply H2;
            unfold analysis_duration, float_or_zero; rewrite Hv; exact Hpos|].
    split; [rewrite H3; exact Hraw | exact H4]. }
  assert (Hpos : 0 < analysis_duration a ->
            exists shots, _build_shots a args = Ok shots).
  { intro Hp. destruct (PlanFacts.build_shots_runs a args Hp) as (raw & _ & Hrun).
    eexists. exact Hrun. }
  assert (Hneg : analysis_duration a <= 0 ->
            _build_shots a args
            = Raised "Analysis file missing valid duration_seconds").
  { intro H. unfold _build_shots, _build_shots_fuel.
    apply Qle_bool_iff in H. rewrite H. reflexivity. }
  split; [exact Hneg|]. split; [exact Hpos|]. split.
  - split.
    + intros (msg & Hmsg).
      destruct (Qlt_le_dec 0 (analysis_duration a)) as [Hp | Hle]; [|exact Hle].
      destruct (Hpos Hp) as (shots & Hrun).
      rewrite Hrun in Hmsg. discriminate.
    + intro H. eexists. apply Hneg, H.
  - destruct (Qlt_le_dec 0 (analysis_duration a)) as [Hp | Hle].
    + destruct (Hpos Hp) as (shots & Hrun).
      rewrite Hrun. discriminate.
    + rewrite (Hneg Hle). discriminate.
Qed.

End Planner.

(** *** Times and number of shots *)

Section Times.

Variables (D : Q) (step : Q -> Q -> Prop).
Hypothesis Hstep : forall c e, step c e -> c < e /\ e <= D.

Lemma sweep_In (raw : list Shot) :
  forall c0 ce s,
    sweep_of step c0 raw ce -> In s raw ->
    exists c e,
      c0 <= c /\ c < e /\ e <= D /\
      start_sec s = round4 c /\ end_sec s = round4 e /\
      duration_sec s = round4 (e - c).
Proof.
  induction raw as [|x l IH]; intros c0 ce s H Hin; [destruct Hin|].
  inversion H as [|? e ? ? ? Hst Hs He Hd Hrest]; subst.
  destruct (Hstep _ _ Hst) as [H1 H2].
  destruct Hin as [<- | Hin].
  - exists c0, e. repeat split; auto; lra.
  - destruct (IH _ _ _ Hrest Hin) as (c & e1 & Hc & Hr).
    exists c, e1. split; [lra | exact Hr].
Qed.

Lemma sweep_last_two (init : list Shot) (prev tail : Shot) :
  forall c0 ce,
    sweep_of step c0 (init ++ [prev; tail]) ce ->
    exists c e',
      c0 <= c /\ c < e' /\ e' <= D /\
      start_sec prev = round4 c /\ end_sec tail = round4 e'.
Proof.
  induction init as [|x l IH]; intros c0 ce H.
  - simpl in H.
    inversion H as [|? e ? ? ? Hst Hs He Hd Hrest]; subst.
    inversion Hrest as [|? e' ? ? ? Hst' Hs' He' Hd' Hrest']; subst.
    destruct (Hstep _ _ Hst) as [H1 H2].
    destruct (Hstep _ _ Hst') as [H3 H4].
    exists c0, e'. repeat split; auto; lra.
  - simpl in H.
    inversion H as [|? e ? ? ? Hst Hs He Hd Hrest]; subst.
    destruct (Hstep _ _ Hst) as [H1 H2].
    destruct (IH _ _ Hrest) as (c & e' & Hc & Hr).
    exists c, e'. split; [lra | exact Hr].
Qed.

Lemma final_times (m : Q) (raw : list Shot) (ce : Q) :
  sweep_of step 0 raw ce ->
  forall s, In s (merge_tail m raw) ->
    0 <= start_sec s /\ start_sec s <= end_sec s /\ end_sec s <= round4 D /\
    0 <= duration_sec s /\
    - (3 # 20000) <= duration_sec s - (end_sec s - start_sec s) /\
    duration_sec s - (end_sec s - start_sec s) <= 3 # 20000.
Proof.
  intros H s Hs.
  assert (Hraw : forall x, In x raw ->
            0 <= start_sec x /\ start_sec x <= end_sec x /\
            end_sec x <= round4 D /\ 0 <= duration_sec x /\
            - (3 # 20000) <= duration_sec x - (end_sec x - start_sec x) /\
            duration_sec x - (end_sec x - start_sec x) <= 3 # 20000).
  { intros x Hx. destruct (sweep_In _ _ _ _ H Hx)
      as (c & e & Hc & Hce & He & -> & -> & ->).
    pose proof (round4_err c). pose proof (round4_err e).
    pose proof (round4_err (e - c)).
    split; [apply round4_nonneg, Hc|].
    split; [apply round4_mono; lra|].
    split; [apply round4_mono, He|].
    split; [apply round4_nonneg; lra|].
    split; lra. }
  destruct (merge_tail_cases m raw)
    as [E | (init & prev & tail & E & _ & E')].
  - rewrite E in Hs. apply Hraw, Hs.
  - rewrite E' in Hs. apply in_app_or in Hs.
    destruct Hs as [Hs | [<- | []]].
    + apply Hraw. rewrite E. apply in_or_app. now left.
    + rewrite E in H.
      destruct (sweep_last_two _ _ _ _ _ H) as (c & e' & Hc & Hce & He & Hs1 & He1).
      simpl. rewrite Hs1, He1.
      pose proof (round4_err (round4 e' - round4 c)).
      assert (Hm : round4 c <= round4 e') by (apply round4_mono; lra).
      split; [apply round4_nonneg, Hc|].
      split; [exact Hm|].
      split; [apply round4_mono, He|].
      split; [apply round4_nonneg; lra|].
      split; lra.
Qed.

End Times.

Section Count.

Variables (D m M b : Q) (beats : list Q).
Hypothesis Hb : 0 < b.
Hypothesis Hm : m <= M.
Hypothesis HM : 0 <= M.

Lemma sweep_count (raw : list Shot) :
  forall c ce,
    sweep_of (loop_step D m M b beats) c raw ce ->
    c <= ce /\
    match raw with
    | [] => True
    | _ :: rest => inject_Z (Z.of_nat (List.length rest)) * m <= ce - c
    end.
Proof.
  induction raw as [|s rest IH]; intros c ce H.
  - inversion H; subst. split; [lra | exact I].
  - inversion H as [|? e ? ? ? Hst Hs He Hd Hrest]; subst.
    destruct (PlanFacts.loop_step_facts _ _ _ _ _ _ _ Hb Hm HM Hst)
      as (Hce & HeD & _ & Hlo).
    destruct (IH _ _ Hrest) as [Hle Hcnt].
    split; [lra|].
    destruct rest as [|s' rest'].
    + simpl. change (inject_Z 0) with 0. lra.
    + inversion Hrest as [|? e' ? ? ? Hst' _ _ _ _]; subst.
      destruct Hst' as [He' _].
      assert (Hstep : c + m <= e) by (destruct Hlo as [Hlo | Hlo]; lra).
      replace (Z.of_nat (List.length (s' :: rest')))
        with (Z.of_nat (List.length rest') + 1)%Z by (simpl; lia).
      rewrite inject_Z_plus. change (inject_Z 1) with 1.
      setoid_replace ((inject_Z (Z.of_nat (List.length rest')) + 1) * m)
        with (inject_Z (Z.of_nat (List.length rest')) * m + m) by ring.
      set (P := inject_Z (Z.of_nat (List.length rest')) * m) in *.
      clearbody P. lra.
Qed.

End Count.

Section PlannerTimes.

Context {R : RandomSource}.

(** X12. In every plan each shot starts at or after 0, ends at or after its
    start and at or before the rounded duration, and its recorded duration
    is not negative and equals its end minus its start up to the rounding of
    the three values (at most 0.00015). *)
Theorem planned_times_consistent (a : Analysis) (args : Args) :
  0 < analysis_duration a ->
  exists shots,
    _build_shots a args = Ok shots /\
    forall s, In s shots ->
      0 <= start_sec s /\ start_sec s <= end_sec s /\
      end_sec s <= round4 (analysis_duration a) /\
      0 <= duration_sec s /\
      - (3 # 20000) <= duration_sec s - (end_sec s - start_sec s) /\
      duration_sec s - (end_sec s - start_sec s) <= 3 # 20000.
Proof.
  intro HD.
  destruct (PlanFacts.build_shots_runs a args HD) as (raw & Hraw & Hrun).
  destruct (PlanFacts.sweep_shape a args raw HD Hraw) as (ce & Hsw & _).
  eexists. split; [exact Hrun|].
  pose proof (PlanFacts.beat_interval_pos (analysis_beats a) (analysis_bpm a)) as Hb.
  fold (analysis_beat_sec a) in Hb.
  apply (final_times (analysis_duration a) _
           (PlanFacts.loop_step_bounds _ _ _ _ Hb) _ _ _ Hsw).
Qed.

(** X13. With a minimum shot length that is not negative and at most the
    maximum, a plan never has more than [duration / min_shot_seconds + 1]
    shots: the number of shots minus one, times the minimum, is at most the
    duration. *)
Theorem planned_shot_count_bounded (a : Analysis) (args : Args) :
  0 < analysis_duration a ->
  0 <= min_shot_seconds args ->
  min_shot_seconds args <= max_shot_seconds args ->
  exists shots,
    _build_shots a args = Ok shots /\
    inject_Z (Z.of_nat (List.length shots) - 1) * min_shot_seconds args
    <= analysis_duration a.
Proof.
  intros HD Hm0 Hm.
  destruct (PlanFacts.build_shots_runs a args HD) as (raw & Hraw & Hrun).
  destruct (PlanFacts.sweep_shape a args raw HD Hraw) as (ce & Hsw & _ & _ & HceD).
  eexists. split; [exact Hrun|].
  pose proof (PlanFacts.beat_interval_pos (analysis_beats a) (analysis_bpm a)) as Hb.
  fold (analysis_beat_sec a) in Hb.
  destruct (sweep_count _ _ _ _ _ Hb Hm ltac:(lra) _ _ _ Hsw) as [_ Hcnt].
  pose proof (merge_tail_length (min_shot_seconds args) raw) as Hlen.
  set (m := min_shot_seconds args) in *.
  set (n := List.length (merge_tail m raw)) in *.
  destruct raw as [|s rest].
  - assert (n = 0%nat) by (unfold n; reflexivity).
    replace (Z.of_nat n - 1)%Z with (-1)%Z by lia.
    change (inject_Z (-1)%Z) with (-(1)). lra.
  - assert (Hn : inject_Z (Z.of_nat n - 1)
                 <= inject_Z (Z.of_nat (List.length rest))).
    { rewrite <- Zle_Qle. simpl in Hlen. lia. }
    assert (Hmul : inject_Z (Z.of_nat n - 1) * m
                   <= inject_Z (Z.of_nat (List.length rest)) * m)
      by (apply Qmult_le_compat_r; assumption).
    lra.
Qed.

End PlannerTimes.

Import Examples.

Lemma planned_shots_have_takes_witness :
  exists shots,
    _build_shots (plain_analysis 10) default_args = Ok shots /\
    forall s, In s shots ->
      (1 <= takes s)%Z /\
      (priority s = "hero"%string /\
         takes s = Z.max 1 (takes_hero default_args) \/
       priority s = "standard"%string /\
         takes s = Z.max 1 (takes_standard default_args) \/
       priority s = "filler"%string /\
         takes s = Z.max 1 (takes_filler default_args)) /\
      quality_hint s = "quality"%string /\
      transition_after s = "cut"%string /\
      negative_prompt s = _negative_prompt /\
      visual_goal s = _section_descriptor (section s).
Proof.
  apply (planned_shots_have_takes (plain_analysis 10) default_args). reflexivity.
Defined.

Lemma planned_shots_numbered_witness :
  exists shots,
    _build_shots (plain_analysis 10) default_args = Ok shots /\
    (forall i s, nth_error shots i = Some s ->
       id s = ("shot_" ++ Text.pad3 (1 + i))%string) /\
    (forall s, hd_error shots = Some s -> priority s = "hero"%string).
Proof.
  apply (planned_shots_numbered (plain_analysis 10) default_args). reflexivity.
Defined.

Lemma summary_counts_add_up_witness :
  exists shots,
    _build_shots (plain_analysis 10) default_args = Ok shots /\
    (hero_shots (summary shots) + standard_shots (summary shots)
     + filler_shots (summary shots) = total_shots (summary shots))%nat.
Proof.
  apply (summary_counts_add_up (plain_analysis 10) default_args). reflexivity.
Defined.

Lemma planner_fails_only_without_duration_witness :
  (duration_seconds (plain_analysis (-3)) = Some (-3) /\ -3 <= 0) /\
  _build_shots (plain_analysis (-3)) default_args
  = Raised "Analysis file missing valid duration_seconds".
Proof.
  assert (H1 : duration_seconds (plain_analysis (-3)) = Some (-3))
    by reflexivity.
  assert (H2 : -3 <= 0) by discriminate.
  split; [split; [exact H1 | exact H2]|].
  exact (proj1 (proj2 (planner_fails_only_without_duration (plain_analysis (-3))
                         default_args)) (-3) H1 H2).
Defined.

Lemma planned_times_consistent_witness :
  exists shots,
    _build_shots (plain_analysis 10) default_args = Ok shots /\
    forall s, In s shots ->
      0 <= start_sec s /\ start_sec s <= end_sec s /\
      end_sec s <= round4 (analysis_duration (plain_analysis 10)) /\
      0 <= duration_sec s /\
      - (3 # 20000) <= duration_sec s - (end_sec s - start_sec s) /\
      duration_sec s - (end_sec s - start_sec s) <= 3 # 20000.
Proof.
  apply (planned_times_consistent (plain_analysis 10) default_args). reflexivity.
Defined.

Lemma planned_shot_count_bounded_witness :
  exists shots,
    _build_shots (plain_analysis 10) default_args = Ok shots /\
    inject_Z (Z.of_nat (List.length shots) - 1) * min_shot_seconds default_args
    <= analysis_duration (plain_analysis 10).
Proof.
  apply (planned_shot_count_bounded (plain_analysis 10) default_args).
  - reflexivity.
  - discriminate.
  - discriminate.
Defined.

End PlanReportFacts.

(** ** The generator: scores, quality, tails and preview frames *)

Module GenerateHelperFacts.

Import Num NumFacts RoundFacts GenerateRun.
Local Open Scope Q_scope.

Lemma size_mb_le (st_size z : Z) (t : Q) :
  t * (1024 * 1024) == inject_Z z ->
  Qle_bool (inject_Z st_size / (1024 * 1024)) t = (st_size <=? z)%Z.
Proof.
  intro Ht. apply eq_true_iff_eq. rewrite Qle_bool_iff, Z.leb_le, Zle_Qle.
  rewrite <- Ht. split; intro H.
  - assert (Hm : inject_Z st_size / (1024 * 1024) * (1024 * 1024)
                 <= t * (1024 * 1024))
      by (apply Qmult_le_compat_r; [exact H | discriminate]).
    assert (He : inject_Z st_size / (1024 * 1024) * (1024 * 1024)
                 == inject_Z st_size) by field.
    lra.
  - apply Qle_shift_div_r; [reflexivity | exact H].
Qed.

Lemma quality_score_by_size (st_size : Z) :
  _quality_score_from_file (Some st_size) =
  Some (if (st_size <=? 524288)%Z then 15 # 100
        else if (st_size <=? 2097152)%Z then 35 # 100
        else if (st_size <=? 6291456)%Z then 6 # 10
        else 8 # 10).
Proof.
  unfold _quality_score_from_file.
  rewrite (size_mb_le st_size 524288 (1 # 2)) by reflexivity.
  rewrite (size_mb_le st_size 2097152 2) by reflexivity.
  rewrite (size_mb_le st_size 6291456 6) by reflexivity.
  reflexivity.
Qed.

(** X14. The score of a take is absent exactly when there is no video file;
    otherwise it is 0.15 up to 0.5 MiB, 0.35 up to 2 MiB, 0.6 up to 6 MiB and
    0.8 above, the bounds included in the lower tier; a larger file never
    scores less. *)
Theorem quality_score_tiers_monotone :
  _quality_score_from_file None = None /\
  (forall st_size,
     exists q,
       _quality_score_from_file (Some st_size) = Some q /\
       ((st_size <= 524288)%Z /\ q = 15 # 100 \/
        (524288 < st_size <= 2097152)%Z /\ q = 35 # 100 \/
        (2097152 < st_size <= 6291456)%Z /\ q = 6 # 10 \/
        (6291456 < st_size)%Z /\ q = 8 # 10)) /\
  (forall s1 s2 q1 q2,
     (s1 <= s2)%Z ->
     _quality_score_from_file (Some s1) = Some q1 ->
     _quality_score_from_file (Some s2) = Some q2 ->
     q1 <= q2).
Proof.
  split; [reflexivity|]. split.
  - intro st_size. rewrite quality_score_by_size. eexists. split; [reflexivity|].
    destruct (Z.leb_spec st_size 524288); [left; split; [lia | reflexivity]|].
    destruct (Z.leb_spec st_size 2097152);
      [right; left; split; [lia | reflexivity]|].
    destruct (Z.leb_spec st_size 6291456);
      [right; right; left; split; [lia | reflexivity]|].
    right; right; right. split; [lia | reflexivity].
  - intros s1 s2 q1 q2 Hle H1 H2.
    rewrite quality_score_by_size in H1, H2.
    injection H1 as <-. injection H2 as <-.
    destruct (Z.leb_spec s1 524288); destruct (Z.leb_spec s2 524288);
      destruct (Z.leb_spec s1 2097152); destruct (Z.leb_spec s2 2097152);
      destruct (Z.leb_spec s1 6291456); destruct (Z.leb_spec s2 6291456);
      try lia; unfold Qle; simpl; lia.
Qed.

Lemma quality_score_tiers_monotone_witness :
  _quality_score_from_file (Some 524288%Z) = Some (15 # 100) /\
  _quality_score_from_file (Some 524289%Z) = Some (35 # 100) /\
  15 # 100 <= 35 # 100.
Proof.
  assert (H1 : _quality_score_from_file (Some 524288%Z) = Some (15 # 100))
    by reflexivity.
  assert (H2 : _quality_score_from_file (Some 524289%Z) = Some (35 # 100))
    by reflexivity.
  split; [exact H1|]. split; [exact H2|].
  apply (proj2 (proj2 quality_score_tiers_monotone) 524288%Z 524289%Z
           (15 # 100) (35 # 100)); [lia | exact H1 | exact H2].
Defined.

Lemma quality_choice_cases (q : string) :
  is_quality_choice q = true ->
  q = "draft"%string \/ q = "balanced"%string \/ q = "quality"%string.
Proof.
  unfold is_quality_choice. intro H.
  apply orb_true_iff in H. destruct H as [H | H].
  - apply orb_true_iff in H. destruct H as [H | H]; apply String.eqb_eq in H; auto.
  - apply String.eqb_eq in H. auto.
Qed.

(** X15. When the fallback is one of [draft], [balanced], [quality], so is the
    quality chosen for a shot: it is the hint of the shot, stripped and
    lower-cased, when that is one of the three, and the fallback otherwise,
    in particular when the shot has no hint. *)
Theorem quality_from_shot_is_choice (quality_hint : option string)
    (fallback : string) :
  is_quality_choice fallback = true ->
  is_quality_choice (_quality_from_shot quality_hint fallback) = true /\
  (forall h, quality_hint = Some h ->
     is_quality_choice (Text.lower (Text.strip h)) = true ->
     _quality_from_shot quality_hint fallback = Text.lower (Text.strip h)) /\
  (forall h, quality_hint = Some h ->
     is_quality_choice (Text.lower (Text.strip h)) = false ->
     _quality_from_shot quality_hint fallback = fallback) /\
  (quality_hint = None -> _quality_from_shot quality_hint fallback = fallback).
Proof.
  intro Hf. unfold _quality_from_shot. split; [|split; [|split]].
  - destruct (is_quality_choice (Text.lower (Text.strip _))) eqn:E; assumption.
  - intros h -> Hh. rewrite Hh. reflexivity.
  - intros h -> Hh. rewrite Hh. reflexivity.
  - intros ->.
    destruct (quality_choice_cases _ Hf) as [-> | [-> | ->]]; reflexivity.
Qed.

Lemma quality_from_shot_is_choice_witness :
  is_quality_choice (_quality_from_shot (Some "  Quality "%string) "balanced"%string) = true /\
  (forall h, Some "  Quality "%string = Some h ->
     is_quality_choice (Text.lower (Text.strip h)) = true ->
     _quality_from_shot (Some "  Quality "%string) "balanced"%string
     = Text.lower (Text.strip h)) /\
  (forall h, Some "  Quality "%string = Some h ->
     is_quality_choice (Text.lower (Text.strip h)) = false ->
     _quality_from_shot (Some "  Quality "%string) "balanced"%string = "balanced"%string) /\
  (Some "  Quality "%string = None ->
   _quality_from_shot (Some "  Quality "%string) "balanced"%string = "balanced"%string).
Proof.
  apply (quality_from_shot_is_choice (Some "  Quality "%string) "balanced"%string).
  reflexivity.
Defined.

Lemma drop_suffix (n : nat) :
  forall text,
    exists pre,
      text = (pre ++ drop n text)%string /\
      String.length (drop n text) = (String.length text - n)%nat.
Proof.
  induction n as [|n IH]; intro text.
  - exists EmptyString. simpl. split; [reflexivity | lia].
  - destruct text as [|c rest].
    + exists EmptyString. split; reflexivity.
    + destruct (IH rest) as (pre & Heq & Hlen).
      exists (String c pre). simpl. split; [f_equal; exact Heq | exact Hlen].
Qed.

(** X16. [_short_tail] always returns a suffix of the text. For a limit of at
    least 1 the result has [min(len(text), max_chars)] characters. For a
    limit of 0 the whole text is returned, not the empty string. *)
Theorem short_tail_is_suffix (text : string) (max_chars : nat) :
  (exists pre, text = (pre ++ _short_tail text max_chars)%string) /\
  ((1 <= max_chars)%nat ->
   String.length (_short_tail text max_chars)
   = Nat.min (String.length text) max_chars) /\
  (max_chars = 0%nat -> _short_tail text max_chars = text).
Proof.
  unfold _short_tail.
  destruct (Nat.leb_spec (String.length text) max_chars) as [Hle | Hgt].
  - split; [exists EmptyString; reflexivity|]. split; [lia | reflexivity].
  - destruct (Nat.eqb_spec max_chars 0) as [-> | Hne].
    + split; [exists EmptyString; reflexivity|]. split; [lia | reflexivity].
    + destruct (drop_suffix (String.length text - max_chars) text)
        as (pre & Heq & Hlen).
      split; [exists pre; exact Heq|]. split; [|lia].
      intros _. rewrite Hlen. lia.
Qed.

Lemma short_tail_is_suffix_witness :
  String.length (_short_tail "compose failed: out of memory"%string 6)
  = Nat.min (String.length "compose failed: out of memory"%string) 6.
Proof.
  apply (proj1 (proj2 (short_tail_is_suffix "compose failed: out of memory"%string 6))).
  lia.
Defined.

(** *** Preview frames *)

Lemma dedup_In (l : list Z) :
  forall seen x, In x (dedup seen l) <-> In x l /\ ~ In x seen.
Proof.
  induction l as [|a l IH]; intros seen x; simpl; [tauto|].
  destruct (existsb (Z.eqb a) seen) eqn:E.
  - rewrite IH. apply existsb_exists in E. destruct E as (y & Hy & Hay).
    apply Z.eqb_eq in Hay. subst y. split.
    + intros [H1 H2]. auto.
    + intros [[<- | H1] H2]; [contradiction | auto].
  - assert (Ha : ~ In a seen).
    { intro Hin. assert (existsb (Z.eqb a) seen = true).
      { apply existsb_exists. exists a. split; [exact Hin | apply Z.eqb_refl]. }
      congruence. }
    simpl. rewrite IH. simpl. split.
    + intros [<- | [H1 H2]]; [auto|]. split; [auto|]. intro H3. apply H2. now right.
    + intros [[<- | H1] H2]; [now left|].
      destruct (Z.eq_dec a x) as [<- | Hne]; [now left|].
      right. split; [exact H1|]. intros [H3 | H3]; [congruence | contradiction].
Qed.

Lemma dedup_NoDup (l : list Z) : forall seen, NoDup (dedup seen l).
Proof.
  induction l as [|a l IH]; intro seen; simpl; [constructor|].
  destruct (existsb (Z.eqb a) seen); [apply IH|].
  constructor; [|apply IH].
  rewrite dedup_In. intros [_ H]. apply H. now left.
Qed.

Lemma still_position_range (frame_count still_count idx : Z) :
  (1 <= frame_count)%Z ->
  (0 <= still_position frame_count still_count idx <= frame_count - 1)%Z.
Proof. intro H. unfold still_position. lia. Qed.

Lemma still_position_first (frame_count still_count : Z) :
  (1 <= frame_count)%Z -> still_position frame_count still_count 0 = 0%Z.
Proof.
  intro H. unfold still_position.
  rewrite (round_half_even_int _ 0); [lia|].
  change (inject_Z (0 * (frame_count - 1))) with 0.
  unfold Qdiv. ring.
Qed.

Lemma still_position_last (frame_count still_count : Z) :
  (1 <= frame_count)%Z -> (2 <= still_count)%Z ->
  still_position frame_count still_count (still_count - 1) = (frame_count - 1)%Z.
Proof.
  intros Hf Hs. unfold still_position.
  rewrite (round_half_even_int _ (frame_count - 1)); [lia|].
  replace (Z.max 1 (still_count - 1)) with (still_count - 1)%Z by lia.
  rewrite inject_Z_mult. field.
  intro H0. unfold Qeq in H0. simpl in H0. lia.
Qed.

(** X17. For a clip of at least two frames the preview frames form a list
    without repetition that starts with frame 0 and only names frames of the
    clip (from 0 to [frame_count - 1]); when at least two stills are asked
    for, the last frame of the clip is among them. This holds for every
    number of stills, zero and negative ones counting as one. *)
Theorem preview_frames_within_clip (frame_count stills : Z) :
  (2 <= frame_count)%Z ->
  NoDup (preview_indexes frame_count stills) /\
  hd_error (preview_indexes frame_count stills) = Some 0%Z /\
  (forall v, In v (preview_indexes frame_count stills) ->
     (0 <= v <= frame_count - 1)%Z) /\
  ((2 <= stills)%Z -> In (frame_count - 1)%Z (preview_indexes frame_count stills)).
Proof.
  intro Hf. unfold preview_indexes. cbv zeta.
  set (sc := Z.max 1 stills).
  split; [apply dedup_NoDup|]. split; [|split].
  - destruct (Z.to_nat sc) as [|n] eqn:E; [unfold sc in E; lia|].
    simpl. rewrite still_position_first by lia. reflexivity.
  - intros v Hv. apply dedup_In in Hv. destruct Hv as [Hv _].
    apply in_map_iff in Hv. destruct Hv as (i & <- & _).
    apply still_position_range. lia.
  - intro Hs. apply dedup_In. split; [|intros []].
    apply in_map_iff. exists (Z.to_nat (sc - 1)). split.
    + rewrite Z2Nat.id by (unfold sc; lia).
      apply still_position_last; unfold sc; lia.
    + apply in_seq. unfold sc. lia.
Qed.

Lemma preview_frames_within_clip_witness :
  NoDup (preview_indexes 48 3) /\
  hd_error (preview_indexes 48 3) = Some 0%Z /\
  (forall v, In v (preview_indexes 48 3) -> (0 <= v <= 48 - 1)%Z) /\
  ((2 <= 3)%Z -> In (48 - 1)%Z (preview_indexes 48 3)).
Proof. apply (preview_frames_within_clip 48 3). lia. Defined.

End GenerateHelperFacts.

(** ** The generator: the take loop and its counters *)

Module GenerateRunFacts.

Import Num Generate GenerateRun.

Lemma count_status_cons (name : string) (t : Assemble.Take)
    (l : list Assemble.Take) :
  count_status name (t :: l) = (Nat.b2n (is_status name t) + count_status name l)%nat.
Proof. unfold count_status. simpl. destruct (is_status name t); reflexivity. Qed.

Lemma count_status_app (name : string) (l1 l2 : list Assemble.Take) :
  count_status name (l1 ++ l2) = (count_status name l1 + count_status name l2)%nat.
Proof. unfold count_status. rewrite filter_app, length_app. reflexivity. Qed.

Lemma count_status_le (name : string) (l : list Assemble.Take) :
  (count_status name l <= List.length l)%nat.
Proof. apply filter_length_le. Qed.

Lemma run_take_spec (e d : bool) (sid : string) (i : nat) (env : TakeEnv)
    (cnt : Counters) :
  let r := run_take e d sid i env cnt in
  total_takes (snd r) = S (total_takes cnt) /\
  successful_takes (snd r)
    = (successful_takes cnt + Nat.b2n (is_status "success" (fst r)))%nat /\
  (e = true ->
   failed_takes (snd r)
     = (failed_takes cnt + Nat.b2n (negb (is_status "success" (fst r))))%nat) /\
  (e = false ->
   failed_takes (snd r)
     = (failed_takes cnt + Nat.b2n (is_status "error" (fst r)))%nat /\
   is_status "success" (fst r) = false) /\
  take_ok e d (fst r) /\
  Assemble.take_id (fst r) = (sid ++ "_take" ++ pad2 i)%string.
Proof.
  unfold run_take, take_ok, is_status.
  destruct (compose_ok env); simpl;
    [destruct e; simpl;
     [destruct (String.eqb (run_status env) "success") eqn:Es; simpl;
      [apply String.eqb_eq in Es; destruct d; simpl; rewrite Es; simpl;
       [|destruct (found_video env) as [[f sz]|]; simpl]
      |rewrite Es; simpl]
     |]
    |];
    repeat split; intros; try lia; try congruence; try discriminate;
    try (left; reflexivity); try (right; reflexivity).
Qed.

Section WithEnv.

Variables (e d : bool) (env_of : nat -> nat -> TakeEnv).

Lemma run_takes_spec (sid : string) (pos : nat) (indexes : list nat) :
  forall cnt,
    let r := run_takes e d env_of sid pos indexes cnt in
    List.length (fst r) = List.length indexes /\
    map Assemble.take_id (fst r)
      = map (fun i => (sid ++ "_take" ++ pad2 i)%string) indexes /\
    total_takes (snd r) = (total_takes cnt + List.length (fst r))%nat /\
    successful_takes (snd r)
      = (successful_takes cnt + count_status "success" (fst r))%nat /\
    (e = true ->
     failed_takes (snd r)
       = (failed_takes cnt
          + (List.length (fst r) - count_status "success" (fst r)))%nat) /\
    (e = false ->
     failed_takes (snd r) = (failed_takes cnt + count_status "error" (fst r))%nat /\
     count_status "success" (fst r) = 0%nat) /\
    Forall (take_ok e d) (fst r).
Proof.
  induction indexes as [|i rest IH]; intro cnt.
  - simpl. unfold count_status. simpl.
    repeat split; intros; try lia; try reflexivity; constructor.
  - cbn [run_takes].
    pose proof (run_take_spec e d sid i (env_of pos i) cnt) as Ht.
    destruct (run_take e d sid i (env_of pos i) cnt) as [t c1].
    specialize (IH c1).
    destruct (run_takes e d env_of sid pos rest c1) as [ts c2].
    cbv zeta in Ht, IH. simpl fst in *. simpl snd in *.
    destruct Ht as (T1 & T2 & T3 & T4 & T5 & T6).
    destruct IH as (I1 & I2 & I3 & I4 & I5 & I6 & I7).
    pose proof (count_status_le "success" ts) as Hle.
    rewrite !count_status_cons.
    split; [simpl; lia|]. split; [simpl; rewrite T6, I2; reflexivity|].
    split; [simpl; lia|]. split; [lia|]. split; [|split].
    + intro He. specialize (T3 He). specialize (I5 He).
      destruct (is_status "success" t); cbn [Nat.b2n negb List.length] in *; lia.
    + intro He. destruct (T4 He) as [T7 T8]. destruct (I6 He) as [I8 I9].
      rewrite T8. cbn [Nat.b2n]. split; lia.
    + constructor; assumption.
Qed.

Lemma run_shots_spec (cap : option Z) (shots : list PlanShot) :
  forall pos cnt,
    let r := run_shots e d env_of cap shots pos cnt in
    Forall2 (fun shot report =>
               List.length (Assemble.takes report)
               = Z.to_nat (_takes_for_shot shot cap) /\
               map Assemble.take_id (Assemble.takes report)
               = map (fun i =>
                        (Assemble.shot_id report ++ "_take" ++ pad2 i)%string)
                     (seq 1 (Z.to_nat (_takes_for_shot shot cap))))
            shots (fst r) /\
    total_takes (snd r) = (total_takes cnt + List.length (all_takes (fst r)))%nat /\
    successful_takes (snd r)
      = (successful_takes cnt + count_status "success" (all_takes (fst r)))%nat /\
    (e = true ->
     failed_takes (snd r)
       = (failed_takes cnt
          + (List.length (all_takes (fst r))
             - count_status "success" (all_takes (fst r))))%nat) /\
    (e = false ->
     failed_takes (snd r)
       = (failed_takes cnt + count_status "error" (all_takes (fst r)))%nat /\
     count_status "success" (all_takes (fst r)) = 0%nat) /\
    Forall (take_ok e d) (all_takes (fst r)).
Proof.
  induction shots as [|shot rest IH]; intros pos cnt.
  - simpl. unfold count_status. simpl.
    repeat split; intros; try lia; try reflexivity; constructor.
  - cbn [run_shots].
    set (sid := match shot_id shot with
                | Some i => i
                | None => ("shot_" ++ Text.pad3 (pos + 1))%string
                end).
    pose proof (run_takes_spec sid pos
                  (take_indexes (_takes_for_shot shot cap)) cnt) as Ht.
    destruct (run_takes e d env_of sid pos
                (take_indexes (_takes_for_shot shot cap)) cnt) as [ts c1].
    specialize (IH (S pos) c1).
    destruct (run_shots e d env_of cap rest (S pos) c1) as [rs c2].
    cbv zeta in Ht, IH. simpl fst in *. simpl snd in *.
    destruct Ht as (T1 & T2 & T3 & T4 & T5 & T6 & T7).
    destruct IH as (I1 & I2 & I3 & I4 & I5 & I6).
    unfold all_takes in *. cbn [flat_map Assemble.takes].
    rewrite length_app, count_status_app.
    pose proof (count_status_le "success" ts).
    pose proof (count_status_le "success" (flat_map Assemble.takes rs)).
    split; [|split; [|split; [|split; [|split]]]].
    + constructor; [|exact I1]. simpl. unfold take_indexes in T1, T2.
      rewrite length_seq in T1. split; assumption.
    + lia.
    + lia.
    + intro He. specialize (T5 He). specialize (I4 He). lia.
    + intro He. destruct (T6 He) as [T8 T9]. destruct (I5 He) as [I7 I8].
      rewrite count_status_app. split; lia.
    + apply Forall_app. split; assumption.
Qed.

(** The report of a shot carries the id of the shot when the plan gives
    one. *)
Lemma run_shots_ids (cap : option Z) (shots : list PlanShot) :
  forall pos cnt,
    Forall2 (fun shot report =>
               forall name, shot_id shot = Some name ->
                 Assemble.shot_id report = name)
            shots (fst (run_shots e d env_of cap shots pos cnt)).
Proof.
  induction shots as [|shot rest IH]; intros pos cnt; [constructor|].
  cbn [run_shots].
  destruct (run_takes e d env_of _ pos _ cnt) as [ts c1].
  specialize (IH (S pos) c1).
  destruct (run_shots e d env_of cap rest (S pos) c1) as [rs c2].
  cbn [fst] in IH |- *. constructor; [|exact IH].
  intros name Hname. cbn [Assemble.shot_id]. rewrite Hname. reflexivity.
Qed.

Lemma attempts_recorded (shots : list PlanShot)
    (max_shots max_takes_per_shot : option Z) :
  shots <> [] ->
  exists m,
    generate e d env_of shots max_shots max_takes_per_shot = Ok m /\
    Forall2 (fun shot report =>
               List.length (Assemble.takes report)
               = Z.to_nat (_takes_for_shot shot max_takes_per_shot) /\
               map Assemble.take_id (Assemble.takes report)
               = map (fun i =>
                        (Assemble.shot_id report ++ "_take" ++ pad2 i)%string)
                     (seq 1 (Z.to_nat (_takes_for_shot shot max_takes_per_shot))))
            (capped_shots shots max_shots) (shot_reports m) /\
    total_takes (summary m) = List.length (all_takes (shot_reports m)) /\
    (1 <= total_takes (summary m))%nat.
Proof.
  intro Hne. unfold generate.
  destruct shots as [|s0 rest]; [congruence|].
  pose proof (run_shots_spec max_takes_per_shot
                (capped_shots (s0 :: rest) max_shots) 0 no_takes) as H.
  destruct (run_shots e d env_of max_takes_per_shot
              (capped_shots (s0 :: rest) max_shots) 0 no_takes) as [rs c].
  cbv zeta in H. simpl fst in H. simpl snd in H.
  destruct H as (H1 & H2 & _).
  eexists. split; [reflexivity|]. simpl.
  split; [exact H1|]. split; [exact H2|].
  rewrite H2. simpl.
  pose proof (GenerateFacts.capped_shots_nonempty (s0 :: rest) max_shots Hne) as Hc.
  destruct (capped_shots (s0 :: rest) max_shots) as [|c0 cr]; [congruence|].
  inversion H1 as [|? r0 ? rr [Hlen _] _]; subst.
  unfold all_takes. simpl. rewrite length_app.
  pose proof (GenerateFacts.takes_for_shot_pos c0 max_takes_per_shot). lia.
Qed.

(** X18. For a plan with at least one shot the generator writes a manifest with
    one shot report per processed shot, in order, the processed shots being
    the first [max(1, max_shots)] of the plan; the report of a shot holds
    one take record for every attempt, that is
    [min(planned, max(1, max_takes_per_shot))] records, where [planned] is
    the count [n] of the [takes] key of the shot raised to at least 1, and 1
    when the key is absent or null; their ids are the shot id followed by
    [_take01], [_take02] and so on, whatever the outcome of each attempt;
    and [total_takes] is the number of take records, at least 1. *)
Theorem every_attempt_is_recorded (shots : list PlanShot)
    (max_shots max_takes_per_shot : option Z) :
  shots <> [] ->
  exists m,
    generate e d env_of shots max_shots max_takes_per_shot = Ok m /\
    Forall2 (fun shot report =>
               let planned :=
                 match planned_takes shot with
                 | Some n => Z.max 1 n
                 | None => 1%Z
                 end in
               let count :=
                 match max_takes_per_shot with
                 | Some cap => Z.min planned (Z.max 1 cap)
                 | None => planned
                 end in
               List.length (Assemble.takes report) = Z.to_nat count /\
               map Assemble.take_id (Assemble.takes report)
               = map (fun i =>
                        (Assemble.shot_id report ++ "_take" ++ pad2 i)%string)
                     (seq 1 (Z.to_nat count)) /\
               (forall name, shot_id shot = Some name ->
                  Assemble.shot_id report = name))
            (match max_shots with
             | Some cap => firstn (Z.to_nat (Z.max 1 cap)) shots
             | None => shots
             end)
            (shot_reports m) /\
    total_takes (summary m) = List.length (all_takes (shot_reports m)) /\
    (1 <= total_takes (summary m))%nat.
Proof.
  intro Hne.
  destruct (attempts_recorded shots max_shots max_takes_per_shot Hne)
    as (m & Hm & Hf & Htot & Hpos).
  exists m. split; [exact Hm|]. split; [|split; [exact Htot | exact Hpos]].
  assert (Hids : Forall2 (fun shot report =>
                   forall name, shot_id shot = Some name ->
                     Assemble.shot_id report = name)
                   (capped_shots shots max_shots) (shot_reports m)).
  { revert Hm. unfold generate. destruct shots as [|s0 rest]; [congruence|].
    pose proof (run_shots_ids max_takes_per_shot
                  (capped_shots (s0 :: rest) max_shots) 0 no_takes) as H.
    destruct (run_shots e d env_of max_takes_per_shot
                (capped_shots (s0 :: rest) max_shots) 0 no_takes) as [rs c].
    intro Hm. injection Hm as <-. exact H. }
  change (match max_shots with
          | Some cap => firstn (Z.to_nat (Z.max 1 cap)) shots
          | None => shots
          end) with (capped_shots shots max_shots).
  revert Hf Hids. generalize (capped_shots shots max_shots) (shot_reports m).
  intros l1 l2 Hf. induction Hf as [|shot report l1 l2 [H1 H2] _ IH];
    intro Hids; [constructor|].
  inversion Hids as [|? ? ? ? Hid Hrest]; subst.
  constructor; [|exact (IH Hrest)].
  cbv zeta. rewrite <- (GenerateFacts.takes_for_shot_raw shot max_takes_per_shot).
  split; [exact H1|]. split; [exact H2 | exact Hid].
Qed.

(** X19. The counters of the manifest agree with its take records:
    [successful_takes] is the number of records of status [success]; when
    generation is executed every other record counts as failed, so the two
    counters add up to [total_takes]; without execution no take is
    successful and [failed_takes] counts the records of status [error], the
    others being [planned]. The manifest status is [error], and the exit
    code 1, exactly when generation is executed and no take succeeded. *)
Theorem manifest_counters_agree (shots : list PlanShot)
    (max_shots max_takes_per_shot : option Z) :
  shots <> [] ->
  exists m,
    generate e d env_of shots max_shots max_takes_per_shot = Ok m /\
    successful_takes (summary m)
      = count_status "success" (all_takes (shot_reports m)) /\
    (e = true ->
     (successful_takes (summary m) + failed_takes (summary m)
      = total_takes (summary m))%nat) /\
    (e = false ->
     successful_takes (summary m) = 0%nat /\
     failed_takes (summary m) = count_status "error" (all_takes (shot_reports m)) /\
     forall t, In t (all_takes (shot_reports m)) ->
       is_status "error" t = true \/ is_status "planned" t = true) /\
    (status m = "error"%string <->
     e = true /\ count_status "success" (all_takes (shot_reports m)) = 0%nat) /\
    (exit_code m = 0%Z <->
     e = false \/ (1 <= count_status "success" (all_takes (shot_reports m)))%nat).
Proof.
  intro Hne.
  destruct (attempts_recorded shots max_shots max_takes_per_shot Hne)
    as (m0 & Hm0 & _ & _ & Htot).
  revert Hm0 Htot. unfold generate.
  destruct shots as [|s0 rest]; [congruence|].
  pose proof (run_shots_spec max_takes_per_shot
                (capped_shots (s0 :: rest) max_shots) 0 no_takes) as H.
  destruct (run_shots e d env_of max_takes_per_shot
              (capped_shots (s0 :: rest) max_shots) 0 no_takes) as [rs c].
  cbv zeta in H. simpl fst in H. simpl snd in H.
  destruct H as (_ & H2 & H3 & H4 & H5 & H6).
  simpl in H2, H3, H4, H5.
  intros Hm0 Htot. injection Hm0 as <-. simpl in Htot.
  pose proof (count_status_le "success" (all_takes rs)) as Hle.
  eexists. split; [reflexivity|]. simpl.
  split; [exact H3|]. split; [|split; [|split]].
  - intro He. rewrite (H4 He). lia.
  - intro He. destruct (H5 He) as [H7 H8].
    split; [lia|]. split; [exact H7|].
    intros t Ht. rewrite Forall_forall in H6.
    destruct (H6 t Ht) as (_ & _ & H9 & _). exact (H9 He).
  - assert (Hpos : (0 <? total_takes c)%nat = true) by (apply Nat.ltb_lt; lia).
    rewrite Hpos, andb_true_r.
    destruct e; simpl; destruct (Nat.eqb_spec (successful_takes c) 0);
      simpl; split; intros; intuition (try congruence; try lia).
  - assert (Hpos : (0 <? total_takes c)%nat = true) by (apply Nat.ltb_lt; lia).
    unfold exit_code. simpl. rewrite Hpos, andb_true_r.
    destruct e; simpl; destruct (Nat.eqb_spec (successful_takes c) 0);
      simpl; split; intros; intuition (try congruence; try lia).
Qed.

(** X20. A take record of the manifest names a video file only when generation
    was executed, not as a dry run, and the run reported success; it carries
    a quality score exactly when it names a video file. Hence, without
    execution or in a dry run, no take of the manifest is usable by the
    assembly, for any state of the file system, and the assembly of such a
    manifest raises its error. *)
Theorem only_rendered_takes_are_usable (shots : list PlanShot)
    (max_shots max_takes_per_shot : option Z)
    (resolve : string -> string) (path_exists : string -> bool) :
  shots <> [] ->
  exists m,
    generate e d env_of shots max_shots max_takes_per_shot = Ok m /\
    (forall t, In t (all_takes (shot_reports m)) ->
       (Assemble.video_file t <> None ->
        Assemble.status t = Some "success"%string /\ e = true /\ d = false) /\
       (Assemble.quality_score t = None <-> Assemble.video_file t = None) /\
       (Assemble.usable resolve path_exists t = true -> e = true /\ d = false)) /\
    (e = false \/ d = true ->
     forall max_clips,
       Assemble.select_or_fail resolve path_exists
         {| Assemble.shots := shot_reports m; Assemble.clips := [] |} max_clips
       = Raised "No successful clips found in manifest.").
Proof.
  intro Hne.
  destruct (attempts_recorded shots max_shots max_takes_per_shot Hne)
    as (m0 & Hm0 & _).
  revert Hm0. unfold generate.
  destruct shots as [|s0 rest]; [congruence|].
  pose proof (run_shots_spec max_takes_per_shot
                (capped_shots (s0 :: rest) max_shots) 0 no_takes) as H.
  destruct (run_shots e d env_of max_takes_per_shot
              (capped_shots (s0 :: rest) max_shots) 0 no_takes) as [rs c].
  cbv zeta in H. simpl fst in H. simpl snd in H.
  destruct H as (_ & _ & _ & _ & _ & H6).
  intros _. eexists. split; [reflexivity|]. simpl.
  rewrite Forall_forall in H6.
  assert (Hus : forall t, In t (all_takes rs) ->
            Assemble.usable resolve path_exists t = true -> e = true /\ d = false).
  { intros t Ht Hu. destruct (H6 t Ht) as (H7 & _).
    unfold Assemble.usable in Hu.
    destruct (negb _); [discriminate|].
    destruct (Assemble.video_file t) as [f|] eqn:Ef; [|discriminate].
    destruct (H7 ltac:(discriminate)) as (_ & He & Hd). auto. }
  split.
  - intros t Ht. destruct (H6 t Ht) as (H7 & H8 & _).
    split; [exact H7|]. split; [exact H8 | exact (Hus t Ht)].
  - intros Hed max_clips.
    unfold Assemble.select_or_fail.
    assert (Hnil : Assemble._select_clip_paths resolve path_exists
                     {| Assemble.shots := rs; Assemble.clips := [] |} max_clips
                   = []).
    2: { rewrite Hnil. reflexivity. }
    apply AssembleFacts.select_clip_paths_nil. split; [|reflexivity].
    apply AssembleFacts.clips_from_shots_nil. simpl.
    intros shot Hshot. unfold Assemble.has_usable_take.
    destruct (existsb _ _) eqn:E; [|reflexivity].
    apply existsb_exists in E. destruct E as (t & Ht & Hu).
    assert (Hin : In t (all_takes rs)).
    { unfold all_takes. apply in_flat_map. exists shot. auto. }
    destruct (Hus t Hin Hu) as [He Hd].
    destruct Hed; congruence.
Qed.

End WithEnv.

Import RunExamples.

Lemma every_attempt_is_recorded_witness :
  exists m,
    generate true false flaky_env two_shot_plan (Some 0%Z) (Some 2%Z) = Ok m /\
    Forall2 (fun shot report =>
               let planned :=
                 match planned_takes shot with
                 | Some n => Z.max 1 n
                 | None => 1%Z
                 end in
               let count := Z.min planned (Z.max 1 2) in
               List.length (Assemble.takes report) = Z.to_nat count /\
               map Assemble.take_id (Assemble.takes report)
               = map (fun i =>
                        (Assemble.shot_id report ++ "_take" ++ pad2 i)%string)
                     (seq 1 (Z.to_nat count)) /\
               (forall name, shot_id shot = Some name ->
                  Assemble.shot_id report = name))
            (firstn (Z.to_nat (Z.max 1 0)) two_shot_plan) (shot_reports m) /\
    total_takes (summary m) = List.length (all_takes (shot_reports m)) /\
    (1 <= total_takes (summary m))%nat.
Proof.
  apply (every_attempt_is_recorded true false flaky_env two_shot_plan
           (Some 0%Z) (Some 2%Z)).
  discriminate.
Defined.

Lemma manifest_counters_agree_witness :
  exists m,
    generate true false flaky_env two_shot_plan None None = Ok m /\
    successful_takes (summary m)
      = count_status "success" (all_takes (shot_reports m)) /\
    (true = true ->
     (successful_takes (summary m) + failed_takes (summary m)
      = total_takes (summary m))%nat) /\
    (true = false ->
     successful_takes (summary m) = 0%nat /\
     failed_takes (summary m) = count_status "error" (all_takes (shot_reports m)) /\
     forall t, In t (all_takes (shot_reports m)) ->
       is_status "error" t = true \/ is_status "planned" t = true) /\
    (status m = "error"%string <->
     true = true /\ count_status "success" (all_takes (shot_reports m)) = 0%nat) /\
    (exit_code m = 0%Z <->
     true = false \/
     (1 <= count_status "success" (all_takes (shot_reports m)))%nat).
Proof.
  apply (manifest_counters_agree true false flaky_env two_shot_plan None None).
  discriminate.
Defined.

Lemma only_rendered_takes_are_usable_witness :
  exists m,
    generate true true flaky_env two_shot_plan None None = Ok m /\
    (forall t, In t (all_takes (shot_reports m)) ->
       (Assemble.video_file t <> None ->
        Assemble.status t = Some "success"%string /\ true = true /\ true = false) /\
       (Assemble.quality_score t = None <-> Assemble.video_file t = None) /\
       (Assemble.usable Examples.same_path Examples.every_file t = true ->
        true = true /\ true = false)) /\
    (true = false \/ true = true ->
     forall max_clips,
       Assemble.select_or_fail Examples.same_path Examples.every_file
         {| Assemble.shots := shot_reports m; Assemble.clips := [] |} max_clips
       = Raised "No successful clips found in manifest.").
Proof.
  apply (only_rendered_takes_are_usable true true flaky_env two_shot_plan
           None None Examples.same_path Examples.every_file).
  discriminate.
Defined.

End GenerateRunFacts.

(** ** The assembly: which clips are selected *)

Module AssembleSelectFacts.

Import Num Assemble.

Section WithFiles.

Variable resolve : string -> string.
Variable path_exists : string -> bool.

Lemma best_take_usable (takes : list Take) (b : Take) :
  _best_take resolve path_exists takes = Some b ->
  In b takes /\ usable resolve path_exists b = true.
Proof.
  intro H.
  destruct (AssembleFacts.best_take_Some resolve path_exists takes b H)
    as (pre & post & Hsplit & _).
  assert (Hin : In b (filter (usable resolve path_exists) takes)).
  { rewrite Hsplit. apply in_or_app. right. now left. }
  apply filter_In in Hin. exact Hin.
Qed.

Lemma usable_file_exists (t : Take) :
  usable resolve path_exists t = true ->
  exists f, video_file t = Some f /\ f <> EmptyString /\
            path_exists (resolve f) = true.
Proof.
  unfold usable. destruct (negb _); [discriminate|].
  destruct (video_file t) as [f|]; [|discriminate].
  destruct (String.eqb_spec f EmptyString) as [-> | Hne]; [discriminate|].
  intro H. exists f. auto.
Qed.

Lemma clips_from_shots_exist (l : list ShotReport) (p : string) :
  In p (clips_from_shots resolve path_exists l) -> path_exists p = true.
Proof.
  induction l as [|s l IH]; simpl; [intros []|].
  destruct (_best_take resolve path_exists (takes s)) as [b|] eqn:E; [|exact IH].
  intros [<- | Hp]; [|exact (IH Hp)].
  destruct (best_take_usable _ _ E) as [_ Hu].
  destruct (usable_file_exists _ Hu) as (f & -> & _ & Hex). exact Hex.
Qed.

Lemma existing_raw_clips_exist (l : list string) (p : string) :
  In p (existing_raw_clips resolve path_exists l) -> path_exists p = true.
Proof.
  induction l as [|v l IH]; simpl; [intros []|].
  destruct (path_exists (resolve v)) eqn:E; [|exact IH].
  intros [<- | Hp]; [exact E | exact (IH Hp)].
Qed.

Lemma clips_from_shots_length (l : list ShotReport) :
  List.length (clips_from_shots resolve path_exists l)
  = List.length (filter (has_usable_take resolve path_exists) l).
Proof.
  induction l as [|s l IH]; simpl; [reflexivity|].
  destruct (_best_take resolve path_exists (takes s)) as [b|] eqn:E.
  - assert (Hu : has_usable_take resolve path_exists s = true).
    { destruct (has_usable_take resolve path_exists s) eqn:Hu; [reflexivity|].
      apply (AssembleFacts.has_usable_take_false resolve path_exists) in Hu.
      congruence. }
    rewrite Hu. simpl. congruence.
  - apply (AssembleFacts.has_usable_take_false resolve path_exists) in E.
    rewrite E. exact IH.
Qed.

(** X21. Every clip handed to the normalization step exists on disk: a clip
    selected from a shot is the resolved video file of a take that is
    successful and whose file exists, and a clip taken from the [clips] list
    of the manifest is kept only when it exists. *)
Theorem selected_clips_exist (manifest : Manifest) (max_clips : option Z)
    (p : string) :
  In p (_select_clip_paths resolve path_exists manifest max_clips) ->
  path_exists p = true.
Proof.
  unfold _select_clip_paths. intro H.
  assert (Hin : In p (match clips_from_shots resolve path_exists (shots manifest) with
                      | [] => existing_raw_clips resolve path_exists (clips manifest)
                      | _ :: _ => clips_from_shots resolve path_exists (shots manifest)
                      end)).
  { destruct max_clips as [cap|]; [|exact H].
    rewrite <- (firstn_skipn (Z.to_nat (Z.max 1 cap))).
    apply in_or_app. now left. }
  destruct (clips_from_shots resolve path_exists (shots manifest)) as [|c r] eqn:E.
  - exact (existing_raw_clips_exist _ _ Hin).
  - apply (clips_from_shots_exist (shots manifest)). rewrite E. exact Hin.
Qed.

(** X22. The clip list holds one clip for each shot that has a usable take, in
    shot order, and the [clips] list of the manifest is consulted only when
    no shot has a usable take. A cap keeps the first [max(1, max_clips)]
    clips of that list, so a cap of zero or below still keeps one clip. *)
Theorem clips_follow_shots_then_cap (manifest : Manifest) :
  let uncapped := _select_clip_paths resolve path_exists manifest None in
  ((exists shot, In shot (shots manifest) /\
                 has_usable_take resolve path_exists shot = true) ->
   uncapped = clips_from_shots resolve path_exists (shots manifest) /\
   List.length uncapped
   = List.length (filter (has_usable_take resolve path_exists) (shots manifest))) /\
  ((forall shot, In shot (shots manifest) ->
                 has_usable_take resolve path_exists shot = false) ->
   uncapped = existing_raw_clips resolve path_exists (clips manifest)) /\
  (forall cap,
     _select_clip_paths resolve path_exists manifest (Some cap)
     = firstn (Z.to_nat (Z.max 1 cap)) uncapped /\
     List.length (_select_clip_paths resolve path_exists manifest (Some cap))
     = Nat.min (Z.to_nat (Z.max 1 cap)) (List.length uncapped) /\
     (uncapped <> [] ->
      _select_clip_paths resolve path_exists manifest (Some cap) <> [])).
Proof.
  intro uncapped. unfold uncapped, _select_clip_paths.
  pose proof (AssembleFacts.clips_from_shots_nil resolve path_exists
                (shots manifest)) as Hnil.
  split; [|split].
  - intros (shot & Hin & Hu).
    destruct (clips_from_shots resolve path_exists (shots manifest))
      as [|c r] eqn:E.
    + destruct Hnil as [Hnil _]. rewrite (Hnil eq_refl shot Hin) in Hu.
      discriminate.
    + split; [reflexivity|]. rewrite <- E. apply clips_from_shots_length.
  - intro Hno. apply Hnil in Hno. rewrite Hno. reflexivity.
  - intro cap. split; [reflexivity|]. split; [apply length_firstn|].
    intro Hne. intro Hc.
    apply (AssembleFacts.capped_nil string) in Hc. contradiction.
Qed.

End WithFiles.

Import Examples.

Lemma selected_clips_exist_witness :
  In "shot_001_take02.mp4"%string
     (_select_clip_paths same_path every_file one_shot_manifest (Some 0%Z)) /\
  every_file "shot_001_take02.mp4" = true.
Proof.
  assert (H : In "shot_001_take02.mp4"%string
                (_select_clip_paths same_path every_file one_shot_manifest
                   (Some 0%Z))) by (left; reflexivity).
  split; [exact H|].
  exact (selected_clips_exist same_path every_file one_shot_manifest
           (Some 0%Z) "shot_001_take02.mp4" H).
Defined.

Lemma clips_follow_shots_then_cap_witness :
  _select_clip_paths same_path every_file one_shot_manifest (Some (-3)%Z)
  = firstn (Z.to_nat (Z.max 1 (-3)))
      (_select_clip_paths same_path every_file one_shot_manifest None).
Proof.
  exact (proj1 (proj2 (proj2 (clips_follow_shots_then_cap same_path every_file
                                one_shot_manifest)) (-3)%Z)).
Defined.

End AssembleSelectFacts.

(** ** The compose script: frames, steps and models *)

Module ComposeFacts.

Import Num NumFacts Compose.
Local Open Scope Q_scope.

Lemma max_frames_cases (vram_gb : Q) :
  _max_frames_for_vram vram_gb = 81%Z \/ _max_frames_for_vram vram_gb = 121%Z \/
  _max_frames_for_vram vram_gb = 161%Z \/ _max_frames_for_vram vram_gb = 241%Z.
Proof.
  unfold _max_frames_for_vram.
  destruct (Qle_bool vram_gb 8); [auto|].
  destruct (Qle_bool vram_gb 12); [auto|].
  destruct (Qle_bool vram_gb 20); auto.
Qed.

Lemma max_frames_mono (v1 v2 : Q) :
  v1 <= v2 -> (_max_frames_for_vram v1 <= _max_frames_for_vram v2)%Z.
Proof.
  intro H. unfold _max_frames_for_vram.
  destruct (Qle_bool v1 8) eqn:A1; destruct (Qle_bool v2 8) eqn:A2;
    destruct (Qle_bool v1 12) eqn:B1; destruct (Qle_bool v2 12) eqn:B2;
    destruct (Qle_bool v1 20) eqn:C1; destruct (Qle_bool v2 20) eqn:C2;
    qbool; try lia; exfalso; lra.
Qed.

Lemma video_length_eq (task : Task) (has_image : bool) (quality : Quality)
    (duration_seconds : Q) (fps : Z) (vram_gb : Q) :
  video_length (_build_settings task has_image quality duration_seconds fps vram_gb)
  = Z.min (Z.max 16 (round_half_even (duration_seconds * inject_Z fps)))
          (_max_frames_for_vram vram_gb).
Proof. unfold _build_settings. destruct (String.eqb _ _); reflexivity. Qed.

(** X23. The number of frames asked from the generator lies between 16 and the
    frame budget of the VRAM tier, which is 81, 121, 161 or 241 and never
    shrinks when the VRAM grows; below the budget it is the rounded product
    of duration and frame rate. *)
Theorem video_length_within_budget (task : Task) (has_image : bool)
    (quality : Quality) (duration_seconds : Q) (fps : Z) (vram_gb : Q) :
  let settings :=
    _build_settings task has_image quality duration_seconds fps vram_gb in
  (16 <= video_length settings <= _max_frames_for_vram vram_gb)%Z /\
  (video_length settings <= 241)%Z /\
  ((16 <= round_half_even (duration_seconds * inject_Z fps)
    <= _max_frames_for_vram vram_gb)%Z ->
   video_length settings = round_half_even (duration_seconds * inject_Z fps)) /\
  (forall more_vram, vram_gb <= more_vram ->
     (video_length settings
      <= video_length (_build_settings task has_image quality duration_seconds
                         fps more_vram))%Z).
Proof.
  intro settings. unfold settings. rewrite video_length_eq.
  pose proof (max_frames_cases vram_gb) as Hc.
  split; [lia|]. split; [lia|]. split; [lia|].
  intros more Hmore. rewrite video_length_eq.
  pose proof (max_frames_mono _ _ Hmore). lia.
Qed.

Lemma video_length_within_budget_witness :
  (16 <= round_half_even ((7 # 2) * inject_Z 16) <= _max_frames_for_vram 8)%Z /\
  video_length (_build_settings T2v false HighQuality (7 # 2) 16 8)
  = round_half_even ((7 # 2) * inject_Z 16).
Proof.
  assert (H : (16 <= round_half_even ((7 # 2) * inject_Z 16)
               <= _max_frames_for_vram 8)%Z)
    by (vm_compute; split; intro H; discriminate H).
  split; [exact H|].
  exact (proj1 (proj2 (proj2 (video_length_within_budget T2v false HighQuality
                                (7 # 2) 16 8))) H).
Defined.

(** X24. The model [t2v_2_2] is selected exactly for a text-to-video task (given
    or inferred without start image) with quality [quality] on at least 20 GB
    of VRAM, and only then are the guidance settings added. The step count
    written to the settings is always the one of [_steps_for_quality]: 12, 20
    or 30, at most 20 on 8 GB or less; for [t2v_2_2] it is 30, so the raise
    of the steps to 24 never takes effect. *)
Theorem steps_and_model_agree (task : Task) (has_image : bool)
    (quality : Quality) (duration_seconds : Q) (fps : Z) (vram_gb : Q) :
  let settings :=
    _build_settings task has_image quality duration_seconds fps vram_gb in
  (model_type settings = "t2v_2_2"%string <->
   (task = T2v \/ task = Auto /\ has_image = false) /\
   20 <= vram_gb /\ quality = HighQuality) /\
  (guidance_phases settings <> None <-> model_type settings = "t2v_2_2"%string) /\
  num_inference_steps settings = _steps_for_quality quality vram_gb /\
  (num_inference_steps settings = 12 \/ num_inference_steps settings = 20 \/
   num_inference_steps settings = 30)%Z /\
  (vram_gb <= 8 -> (num_inference_steps settings <= 20)%Z) /\
  (model_type settings = "t2v_2_2"%string ->
   num_inference_steps settings = 30%Z).
Proof.
  intro settings. unfold settings, _build_settings, _select_model,
    _steps_for_quality.
  destruct task, has_image, quality;
    destruct (Qle_bool 20 vram_gb) eqn:E20;
    destruct (Qle_bool 12 vram_gb) eqn:E12;
    destruct (Qle_bool vram_gb 8) eqn:E8;
    qbool; simpl;
    try (exfalso; lra);
    repeat match goal with
    | |- _ /\ _ => split
    | |- _ <-> _ => split
    end;
    intros;
    try discriminate; try reflexivity; try lia;
    try (exfalso; lra);
    try (simpl in *; congruence);
    try (intuition (try discriminate; try congruence; try lra; auto); fail).
Qed.

Lemma steps_and_model_agree_witness :
  model_type (_build_settings Auto false HighQuality 4 16 24) = "t2v_2_2"%string /\
  num_inference_steps (_build_settings Auto false HighQuality 4 16 24) = 30%Z.
Proof.
  assert (H : model_type (_build_settings Auto false HighQuality 4 16 24)
              = "t2v_2_2"%string) by reflexivity.
  split; [exact H|].
  exact (proj2 (proj2 (proj2 (proj2 (proj2
           (steps_and_model_agree Auto false HighQuality 4 16 24))))) H).
Defined.

(** X25. The runner is told to compile only for a quality other than [quality]
    on more than 12 GB of VRAM, and then with the attention modes [sage] or
    [sage2]; for quality [quality] the attention is always [sdpa] without
    compilation. With the compile mode [auto] the generator follows this
    flag, with [on] and [off] it overrides it. *)
Theorem compile_only_on_large_fast_runs (vram_gb : Q) (quality : Quality) :
  let flags := _recommended_runtime_flags vram_gb quality in
  (compile flags = true <-> quality <> HighQuality /\ 12 < vram_gb) /\
  (compile flags = true ->
   attention flags = "sage"%string \/ attention flags = "sage2"%string) /\
  (compile flags = false -> attention flags = "sdpa"%string) /\
  (teacache flags = None <-> quality = HighQuality /\ 12 < vram_gb) /\
  GenerateRun._compile_enabled (compile flags) "auto" = compile flags /\
  GenerateRun._compile_enabled (compile flags) "on" = true /\
  GenerateRun._compile_enabled (compile flags) "off" = false.
Proof.
  intro flags. unfold flags, _recommended_runtime_flags.
  destruct quality;
    destruct (Qle_bool vram_gb 8) eqn:E8;
    destruct (Qle_bool vram_gb 12) eqn:E12;
    destruct (Qle_bool vram_gb 20) eqn:E20;
    qbool; simpl;
    try (exfalso; lra);
    repeat match goal with
    | |- _ /\ _ => split
    | |- _ <-> _ => split
    end;
    intros;
    try discriminate; try reflexivity;
    try (exfalso; lra);
    try (intuition (try discriminate; try congruence; try lra; auto); fail).
Qed.

Lemma compile_only_on_large_fast_runs_witness :
  compile (_recommended_runtime_flags 16 Balanced) = true /\
  (attention (_recommended_runtime_flags 16 Balanced) = "sage"%string \/
   attention (_recommended_runtime_flags 16 Balanced) = "sage2"%string).
Proof.
  assert (H : compile (_recommended_runtime_flags 16 Balanced) = true)
    by reflexivity.
  split; [exact H|].
  exact (proj1 (proj2 (compile_only_on_large_fast_runs 16 Balanced)) H).
Defined.

End ComposeFacts.

(** ** The pipeline: the order of the stages *)

Module PipelineFacts.

Import Pipeline.
Local Open Scope Z_scope.


(** [main] fails before any stage when the audio file is missing or when
    generation is to be executed without a Wan2GP root; otherwise its result
    is the report of the stages. *)
Lemma main_checks_arguments (audio_exists wan_root_given execute_generation
    skip_assemble : bool) (codes : StageCodes) :
  (exists report,
     main audio_exists wan_root_given execute_generation skip_assemble codes
     = Ok report) <->
  audio_exists = true /\ (execute_generation = true -> wan_root_given = true).
Proof.
  unfold main.
  destruct audio_exists, execute_generation, wan_root_given; simpl;
    split; intros; try (destruct H as [r Hr]; discriminate);
    try (eexists; reflexivity); intuition discriminate.
Qed.


End PipelineFacts.

(** ** The planner's beat interval *)

Module BeatIntervalFacts.

Import Num NumFacts Plan.
Local Open Scope Q_scope.

(** The median of data between two bounds lies between them. *)
Lemma median_between (data : list Q) (lo hi : Q) :
  data <> [] -> (forall v, In v data -> lo <= v <= hi) ->
  lo <= median data <= hi.
Proof.
  intros Hne Hb. unfold median.
  assert (Hs : forall v, In v (sort_asc data) -> lo <= v <= hi).
  { intros v Hv. apply Hb, NumFacts.sort_asc_In, Hv. }
  assert (Hlen : List.length (sort_asc data) <> 0%nat).
  { rewrite NumFacts.sort_asc_length. destruct data; simpl; congruence. }
  set (s := sort_asc data) in *.
  set (n := List.length s) in *.
  assert (Hdiv : (n / 2 < n)%nat) by (apply Nat.div_lt; lia).
  destruct (Nat.even n).
  - assert (H1 : lo <= nth (n / 2 - 1) s 0 <= hi) by (apply Hs, nth_In; lia).
    assert (H2 : lo <= nth (n / 2) s 0 <= hi) by (apply Hs, nth_In; lia).
    split.
    + apply Qle_shift_div_l; lra.
    + apply Qle_shift_div_r; lra.
  - apply Hs, nth_In; lia.
Qed.


(** Every interval is the difference of two neighbours. *)
Lemma intervals_In (l : list Q) (v : Q) :
  In v (intervals l) ->
  exists i, (S i < List.length l)%nat /\ v = nth (S i) l 0 - nth i l 0.
Proof.
  induction l as [|a l IH]; [intros []|].
  destruct l as [|b r]; [intros []|].
  intros [<- | H].
  - exists 0%nat. split; [simpl; lia | reflexivity].
  - destruct (IH H) as (i & Hi & Hv).
    exists (S i). split; [simpl in Hi |- *; lia | exact Hv].
Qed.



Lemma filter_all {A : Type} (f : A -> bool) (l : list A) :
  (forall x, In x l -> f x = true) -> filter f l = l.
Proof.
  induction l as [|x l IH]; intro H; [reflexivity|]. simpl.
  rewrite (H x (or_introl eq_refl)). f_equal.
  apply IH. intros y Hy. apply H. now right.
Qed.

(** X28. When the analyzer falls back to its 120 BPM grid, for any duration
    that is not negative, the planner works with a beat interval of exactly
    half a second, whether the grid has one beat or many. *)
Theorem fallback_grid_beat_is_half_second (duration : Q) (a : Analysis) :
  0 <= duration ->
  Plan.beats a = snd (Analyze._fallback_beats duration) ->
  Plan.bpm a = Some (fst (Analyze._fallback_beats duration)) ->
  analysis_beat_sec a == 1 # 2.
Proof.
  intros HD Hbeats Hbpm.
  destruct (AnalyzeGridFacts.fallback_beats_grid duration HD)
    as (Hf & Hlen & _ & Hnth).
  unfold analysis_beat_sec, analysis_bpm, analysis_beats.
  rewrite Hbeats, Hbpm, Hf.
  change (if Qeq_bool 120 0 then 120 else 120) with 120.
  set (L := snd (Analyze._fallback_beats duration)) in *.
  assert (Hnn : filter (fun value => Qle_bool 0 value) L = L).
  { apply filter_all. intros b Hb. apply Qle_bool_iff.
    unfold L, Analyze._fallback_beats in Hb. cbv zeta in Hb. cbn [snd] in Hb.
    match type of Hb with
    | In _ (Analyze._clip_round ?values ?d) =>
        destruct (AnalyzeGridFacts.clip_round_bounds values d) as (_ & _ & H)
    end.
    apply (H b Hb). }
  rewrite Hnn.
  assert (Hfb : 60 / Qmax 40 (Qmin 220 (if Qeq_bool 120 0 then 120 else 120))
                == 1 # 2) by reflexivity.
  unfold _beat_interval.
  destruct (2 <=? List.length L)%nat; [|exact Hfb].
  destruct (positive_only (intervals L)) as [|v r] eqn:E; [exact Hfb|].
  assert (Hm : 1 # 2 <= median (v :: r) <= 1 # 2).
  { apply median_between; [discriminate|].
    intros w Hw. rewrite <- E in Hw.
    unfold positive_only in Hw. apply filter_In in Hw. destruct Hw as [Hw _].
    destruct (intervals_In _ _ Hw) as (i & Hi & ->).
    rewrite Hlen in Hi.
    rewrite (Hnth (S i) Hi), (Hnth i ltac:(lia)).
    rewrite Nat2Z.inj_succ. unfold Z.succ. rewrite inject_Z_plus.
    change (inject_Z 1) with 1.
    set (x := inject_Z (Z.of_nat i)).
    assert (Hx : (x + 1) / 2 - x / 2 == 1 # 2) by field.
    rewrite Hx. split; apply Qle_refl. }
  apply Qle_antisym; apply Hm.
Qed.

Lemma fallback_grid_beat_is_half_second_witness :
  analysis_beat_sec
    {| Plan.duration_seconds := Some 3;
       Plan.beats := snd (Analyze._fallback_beats 3);
       Plan.bpm := Some (fst (Analyze._fallback_beats 3));
       Plan.sections := [];
       Plan.backend := "ffprobe-fallback"%string;
       Plan.beat_count := 6;
       Plan.downbeats := [];
       Plan.energy_curve := [];
       Plan.warnings := [] |} == 1 # 2.
Proof.
  apply (fallback_grid_beat_is_half_second 3); [discriminate | reflexivity | reflexivity].
Defined.

End BeatIntervalFacts.

(** ** Prompts from the planner to the compose script *)

Module PromptFacts.

Import Plan.
Local Open Scope string_scope.

Lemma lower_app (a b : string) :
  Text.lower (a ++ b) = Text.lower a ++ Text.lower b.
Proof. induction a as [|c a IH]; simpl; [reflexivity|]. now rewrite IH. Qed.

Lemma contains_app_r (needle a b : string) :
  Text.contains needle b = true -> Text.contains needle (a ++ b) = true.
Proof.
  intro H. induction a as [|c a IH]; [exact H|].
  change (String c a ++ b) with (String c (a ++ b)).
  cbn [Text.contains]. rewrite IH.
  destruct (prefix needle (String c (a ++ b))); reflexivity.
Qed.

(** Text in front of a string that ends with a visible character is kept by
    [rstrip]. *)
Lemma rstrip_app_fixed (a b : string) :
  Text.rstrip b = b /\ b <> EmptyString ->
  Text.rstrip (a ++ b) = a ++ b /\ a ++ b <> EmptyString.
Proof.
  intros [Hb Hne]. induction a as [|c a [IH1 IH2]]; [split; assumption|].
  change (String c a ++ b) with (String c (a ++ b)).
  split; [|discriminate].
  cbn [Text.rstrip]. rewrite IH1.
  destruct (a ++ b); [congruence | reflexivity].
Qed.

Lemma strip_keeps (x : string) :
  Text.lstrip x = x -> Text.rstrip x = x -> Text.strip x = x.
Proof. intros Hl Hr. unfold Text.strip. now rewrite Hl. Qed.

Lemma warns_on_logo (prompt : string) :
  Text.contains "logo" (Text.lower prompt) = true ->
  Compose._prompt_quality_warnings prompt = [Compose.text_warning].
Proof.
  intro H. unfold Compose._prompt_quality_warnings, Compose.risky_terms.
  cbn [existsb]. rewrite H. reflexivity.
Qed.

Section WithRandom.

Context {R : RandomSource}.

(** X29. The generator hands every prompt of the planner to the compose
    script unchanged, since it starts and ends with visible characters; and
    when the brand is not blank the prompt ends with the clause about
    logos and text, so the compose script always answers with its warning
    about readable text, whatever the theme, the section and the random
    choices are. *)
Theorem branded_prompts_always_warn (g : rng) (theme : string)
    (style_preset : StylePreset) (section_label brand : string) :
  let prompt := fst (_build_prompt g theme style_preset section_label brand) in
  GenerateRun.compose_prompt (Some prompt) = prompt /\
  (Text.strip brand <> EmptyString ->
   Compose._prompt_quality_warnings (GenerateRun.compose_prompt (Some prompt))
   = [Compose.text_warning]).
Proof.
  intro prompt.
  assert (Hstrip : GenerateRun.compose_prompt (Some prompt) = prompt).
  { unfold prompt, GenerateRun.compose_prompt, _build_prompt.
    destruct (choice g _) as [i g1]. destruct (sample g1 _ _) as [picks g2].
    cbn [fst].
    apply strip_keeps; [reflexivity|].
    match goal with
    | |- Text.rstrip ?x = ?x =>
        enough (Hfix : Text.rstrip x = x /\ x <> EmptyString)
          by exact (proj1 Hfix)
    end.
    destruct (String.eqb (Text.strip brand) EmptyString).
    - do 8 apply rstrip_app_fixed. split; [reflexivity | discriminate].
    - do 11 apply rstrip_app_fixed. split; [reflexivity | discriminate]. }
  split; [exact Hstrip|].
  intro Hbrand. rewrite Hstrip. apply warns_on_logo.
  unfold prompt, _build_prompt.
  destruct (choice g _) as [i g1]. destruct (sample g1 _ _) as [picks g2].
  cbn [fst].
  destruct (String.eqb_spec (Text.strip brand) EmptyString) as [E | _];
    [contradiction|].
  rewrite !lower_app.
  do 11 apply contains_app_r. reflexivity.
Qed.

End WithRandom.

Lemma branded_prompts_always_warn_witness :
  Text.strip " Acme " <> EmptyString /\
  Compose._prompt_quality_warnings
    (GenerateRun.compose_prompt
       (Some (fst (_build_prompt (Random 42) "neon city dream" Cinematic
                     "chorus" " Acme "))))
  = [Compose.text_warning].
Proof.
  assert (H : Text.strip " Acme " <> EmptyString) by (vm_compute; discriminate).
  split; [exact H|].
  exact (proj2 (branded_prompts_always_warn (Random 42) "neon city dream"
                  Cinematic "chorus" " Acme ") H).
Defined.

End PromptFacts.
